(** * ASCII streamer: banner track, frame compositor, frame store, stream

    A shallow embedding of [app.py].  Python values are modelled as follows:
    - [str] is a list of Unicode code points ([N]), so that [len] counts code
      points as Python does;
    - [int] is [Z]; [%] is the floor modulo ([Z.modulo]) and raises
      [ZeroDivisionError] on a zero divisor;
    - a call that may raise returns a [result];
    - the Rich console ([CONSOLE.print]) is an external collaborator and is a
      parameter of the model: from the markup printed, the text that lands in
      the buffer, or the exception the console raises (a [MarkupError] on
      markup it rejects);
    - paths are POSIX paths; the file system and the JSON decoder are seen
      through what [os.path.exists], [open] and [json.load] answer;
    - [functools.lru_cache] is an association list in order of last use;
    - the asynchronous generator is a state machine over the places where it
      is suspended, driven by the events of its environment: resumed, an
      exception raised at that place, or closed with [aclose()]. *)

From Stdlib Require Import ZArith NArith QArith Bool Ascii String List Lia Arith.
From Stdlib Require Import Permutation DecimalString.
Import ListNotations.

Open Scope Z_scope.

(* ------------------------------------------------------------------ *)
(** ** Python strings *)

Definition char := N.
Definition str := list char.

Definition str_of (s : string) : str :=
  map N_of_ascii (list_ascii_of_string s).

Definition len {A} (l : list A) : Z := Z.of_nat (length l).

Definition SP : char := 32%N.
Definition LF : char := 10%N.
Definition CR : char := 13%N.
Definition ESC : char := 27%N.

(** [str.isspace] on one code point: the whitespace set used by [split],
    [strip] and [rstrip] when called without arguments. *)
Definition isspace (c : char) : bool :=
  ((9 <=? c) && (c <=? 13) || (28 <=? c) && (c <=? 32)
   || (c =? 133) || (c =? 160) || (c =? 5760)
   || (8192 <=? c) && (c <=? 8202)
   || (c =? 8232) || (c =? 8233) || (c =? 8239) || (c =? 8287)
   || (c =? 12288))%N.

(** Line boundaries recognised by [str.splitlines] (CR LF is handled by the
    splitter itself). *)
Definition is_linebreak (c : char) : bool :=
  ((10 <=? c) && (c <=? 13) || (28 <=? c) && (c <=? 30)
   || (c =? 133) || (c =? 8232) || (c =? 8233))%N.

Fixpoint dropwhile {A} (p : A -> bool) (l : list A) : list A :=
  match l with
  | [] => []
  | x :: r => if p x then dropwhile p r else l
  end.

Definition lstrip (s : str) : str := dropwhile isspace s.
Definition rstrip (s : str) : str := rev (dropwhile isspace (rev s)).
Definition strip (s : str) : str := lstrip (rstrip s).

(** Truthiness of a string: non-empty. *)
Definition truthy (s : str) : bool :=
  match s with [] => false | _ => true end.

(** [s.ljust(width)]: pad on the right with spaces up to [width]; a string
    already that long is returned unchanged. *)
Definition ljust (s : str) (width : Z) : str :=
  if width <=? len s then s
  else s ++ repeat SP (Z.to_nat (width - len s)).

(** Slice bound normalisation: a negative index counts from the end, and
    the result is clamped to [0, len]. *)
Definition slice_index (n : nat) (i : Z) : nat :=
  let j := if i <? 0 then i + Z.of_nat n else i in
  if j <? 0 then 0%nat
  else if Z.of_nat n <? j then n
  else Z.to_nat j.

(** [s[i:]] *)
Definition slice_from {A} (s : list A) (i : Z) : list A :=
  skipn (slice_index (length s) i) s.

(** [s[:i]] *)
Definition slice_to {A} (s : list A) (i : Z) : list A :=
  firstn (slice_index (length s) i) s.

(** [s.split()]: cut at runs of whitespace, no empty words.  [cur] holds the
    word being read, last character first. *)
Fixpoint split_from (cur : str) (s : str) : list str :=
  match s with
  | [] => match cur with [] => [] | _ => [rev cur] end
  | c :: r =>
      if isspace c then
        match cur with
        | [] => split_from [] r
        | _ => rev cur :: split_from [] r
        end
      else split_from (c :: cur) r
  end.

Definition split (s : str) : list str := split_from [] s.

(** [sep.join(words)] *)
Fixpoint join (sep : str) (words : list str) : str :=
  match words with
  | [] => []
  | [w] => w
  | w :: ws => w ++ sep ++ join sep ws
  end.

(** [s.splitlines()]: cut at line boundaries, CR LF counting as one, and no
    empty last line after a final boundary. *)
Fixpoint splitlines_from (cur : str) (s : str) : list str :=
  match s with
  | [] => match cur with [] => [] | _ => [rev cur] end
  | c :: r =>
      if (c =? CR)%N then
        match r with
        | c2 :: r2 =>
            if (c2 =? LF)%N then rev cur :: splitlines_from [] r2
            else rev cur :: splitlines_from [] r
        | [] => rev cur :: splitlines_from [] r
        end
      else if is_linebreak c then rev cur :: splitlines_from [] r
      else splitlines_from (c :: cur) r
  end.

Definition splitlines (s : str) : list str := splitlines_from [] s.

(* ------------------------------------------------------------------ *)
(** ** Exceptions and results *)

Inductive reason :=
| MustBeAbsolute (json_path : str)
| JsonNotFound (json_path : str)
| NotAFrameList
| FrameNotString (i : nat)
| Other (what : string).

Inductive exn :=
| ValueError (r : reason)
| FileNotFoundError (r : reason)
| ZeroDivisionError
| IndexError
| OSError (r : reason)
| UnicodeEncodeError            (* from [str.encode]; a ValueError *)
| StopIteration
| StopAsyncIteration
| PyRuntimeError (msg : string) (* RuntimeError, raised by the interpreter *)
| Exception (r : reason)        (* any other subclass of Exception *)
| CancelledError                (* asyncio.CancelledError: a BaseException *)
| GeneratorExit
| KeyboardInterrupt.

(** [isinstance(e, Exception)] *)
Definition is_Exception (e : exn) : bool :=
  match e with
  | CancelledError | GeneratorExit | KeyboardInterrupt => false
  | _ => true
  end.

Definition is_CancelledError (e : exn) : bool :=
  match e with CancelledError => true | _ => false end.

Inductive result (A : Type) :=
| Ok (a : A)
| Raise (e : exn).
Arguments Ok {A} a.
Arguments Raise {A} e.

Definition bind {A B} (r : result A) (k : A -> result B) : result B :=
  match r with
  | Ok a => k a
  | Raise e => Raise e
  end.

Notation "x <- r ;; k" := (bind r (fun x => k))
  (at level 61, r at next level, right associativity).

(** [a % b] on integers. *)
Definition py_mod (a b : Z) : result Z :=
  if b =? 0 then Raise ZeroDivisionError else Ok (a mod b).

(* ------------------------------------------------------------------ *)
(** ** BannerTrack *)

Definition PADDING : Z := 10.

(** [max(xs, default=d)] *)
Definition py_max (xs : list Z) (default : Z) : Z :=
  match xs with
  | [] => default
  | x :: r => fold_left Z.max r x
  end.

(** [max((len(ln) for ln in raw), default=0)] *)
Definition max_len (raw : list str) : Z := py_max (map len raw) 0.

Definition _normalize_banner_lines (lines : list str) (pad : Z)
  : list str * Z :=
  let raw := map rstrip (filter (fun ln => truthy (strip ln)) lines) in
  let max_len := max_len raw in
  let width := max_len + pad in
  let fixed := map (fun ln => ljust ln width) raw in
  (fixed, width).

Definition make_ticker_lines (text : str) (pad : Z) : list str * Z :=
  let text := join [SP] (split text) in
  let base := if truthy text then text else [] in
  let width := len base + pad in
  ([ljust base width], width).

Definition shift_lines (lines : list str) (offset : Z) (total_width : Z)
  : result (list str) :=
  o <- py_mod offset (Z.max 1 total_width) ;;
  Ok (map (fun line => slice_from line o ++ slice_to line o) lines).

(** The big logo, as [BANNER_BIG_RAW]: the lines of the raw literal, the first
    one empty because the literal opens with a newline. *)
Definition BANNER_BIG_RAW : list str := map str_of [
    EmptyString;
    "                         /$$ /$$             /$$                                                                                  ";
    "                        | $$| $$            | $$                                                                                  ";
    " /$$$$$$/$$$$   /$$$$$$ | $$| $$  /$$$$$$$ /$$$$$$    /$$$$$$   /$$$$$$  /$$   /$$      /$$$$$$   /$$$$$$  /$$$$$$/$$$$   /$$$$$$ ";
    "| $$_  $$_  $$ /$$__  $$| $$| $$ /$$_____/|_  $$_/   /$$__  $$ /$$__  $$| $$  | $$     /$$__  $$ |____  $$| $$_  $$_  $$ /$$__  $$";
    "| $$ \ $$ \ $$| $$$$$$$$| $$| $$|  $$$$$$   | $$    | $$  \__/| $$  \ $$| $$  | $$    | $$  \ $$  /$$$$$$$| $$ \ $$ \ $$| $$$$$$$$";
    "| $$ | $$ | $$| $$_____/| $$| $$ \____  $$  | $$ /$$| $$      | $$  | $$| $$  | $$    | $$  | $$ /$$__  $$| $$ | $$ | $$| $$_____/";
    "| $$ | $$ | $$|  $$$$$$$| $$| $$ /$$$$$$$/  |  $$$$/| $$      |  $$$$$$/|  $$$$$$$ /$$|  $$$$$$$|  $$$$$$$| $$ | $$ | $$|  $$$$$$$";
    "|__/ |__/ |__/ \_______/|__/|__/|_______/    \___/  |__/       \______/  \____  $$|__/ \____  $$ \_______/|__/ |__/ |__/ \_______/";
    "                                                                         /$$  | $$     /$$  \ $$                                  ";
    "                                                                        |  $$$$$$/    |  $$$$$$/                                  ";
    "                                                                         \______/      \______/                                   "
  ]%string.

Definition BANNER_BIG : list str :=
  fst (_normalize_banner_lines BANNER_BIG_RAW PADDING).
Definition BANNER_BIG_WIDTH : Z :=
  snd (_normalize_banner_lines BANNER_BIG_RAW PADDING).

(* ------------------------------------------------------------------ *)
(** ** FrameCompositor *)

(** A control sequence: ESC followed by printable text. *)
Definition esc (s : string) : str := ESC :: str_of s.

Definition ERASE_LINE : str := esc "[K".
Definition ERASE_DOWN : str := esc "[J".

(** The markup wrapped around a banner line: [rgb(c)], the line, [/]. *)
Definition colored (banner_color ln : str) : str :=
  str_of "[rgb(" ++ banner_color ++ str_of ")]" ++ ln ++ str_of "[/]".

(** A [for] loop whose body may raise: the state goes from one item to the
    next and the first exception ends the loop. *)
Fixpoint for_each {A S} (body : S -> A -> result S) (items : list A)
  (s : S) : result S :=
  match items with
  | [] => Ok s
  | x :: r => s' <- body s x ;; for_each body r s'
  end.

Section Compositor.

(** [CONSOLE.print(line, end='')]: what Rich appends to the buffer for one
    line of markup, or the exception it raises. *)
Variable console_print : str -> result str.

Definition print_line_and_clear (buf : str) (line : str) : result str :=
  printed <- console_print line ;;
  Ok (buf ++ printed ++ ERASE_LINE ++ [LF]).

Definition render_frame_with_banner
  (frame_rich_text : str) (banner_lines : list str) (banner_color : str)
  : result str :=
  let buf := [] in
  buf <- for_each print_line_and_clear (splitlines frame_rich_text) buf ;;
  buf <- print_line_and_clear buf [] ;;
  buf <- for_each (fun b ln =>
                     print_line_and_clear b (colored banner_color ln))
                  banner_lines buf ;;
  Ok (buf ++ ERASE_DOWN).

End Compositor.

(* ------------------------------------------------------------------ *)
(** ** FrameStore *)

(** What [json.load] can return. *)
#[local] Set Warnings "-register-all".
Inductive json :=
| JNull
| JBool (b : bool)
| JNumber (digits : str)
| JString (s : str)
| JArray (items : list json)
| JObject (members : list (str * json)).

(** The part of the file system the loader looks at: whether a path exists,
    and what opening and decoding it gives (or raises). *)
Record world := {
  path_exists : str -> bool;
  json_load : str -> result json
}.

(** [os.path.isabs] (POSIX): the path starts with a slash. *)
Definition isabs (p : str) : bool :=
  match p with
  | c :: _ => (c =? 47)%N
  | [] => false
  end.

(** The loop [for i, fr in enumerate(data)]: the first element that is not a
    string raises; otherwise the list itself comes back. *)
Fixpoint check_frames (i : nat) (data : list json) : result (list str) :=
  match data with
  | [] => Ok []
  | JString s :: r => rest <- check_frames (S i) r ;; Ok (s :: rest)
  | _ :: _ => Raise (ValueError (FrameNotString i))
  end.

(** The body of [load_json_frames], without the cache. *)
Definition load_json_frames (w : world) (json_path : str)
  : result (list str) :=
  if negb (isabs json_path) then
    Raise (ValueError (MustBeAbsolute json_path))
  else if negb (path_exists w json_path) then
    Raise (FileNotFoundError (JsonNotFound json_path))
  else
    data <- json_load w json_path ;;
    match data with
    | JArray ((_ :: _) as items) => check_frames 0 items
    | _ => Raise (ValueError NotAFrameList)
    end.

(** [functools.lru_cache(maxsize=32)]: entries most recently used first,
    with the hit and miss counters of [cache_info]. *)
Record lru := {
  entries : list (str * list str);
  hits : nat;
  misses : nat
}.

Definition maxsize : nat := 32.

Definition str_eq_dec : forall a b : str, {a = b} + {a <> b} :=
  list_eq_dec N.eq_dec.

Fixpoint cache_get (k : str) (l : list (str * list str))
  : option (list str) :=
  match l with
  | [] => None
  | (k', v) :: r => if str_eq_dec k k' then Some v else cache_get k r
  end.

Fixpoint cache_del (k : str) (l : list (str * list str))
  : list (str * list str) :=
  match l with
  | [] => []
  | (k', v) :: r => if str_eq_dec k k' then cache_del k r
                    else (k', v) :: cache_del k r
  end.

Definition cache_empty : lru := {| entries := []; hits := 0; misses := 0 |}.

(** [load_json_frames.cache_clear()] *)
Definition cache_clear (c : lru) : lru := cache_empty.

(** One call of the decorated [load_json_frames].  A hit moves the entry to
    the front; a miss counts, calls the body, and stores the result only when
    the body returns, dropping the least recently used entry of a full
    cache. *)
Definition cached_load (w : world) (c : lru) (json_path : str)
  : result (list str) * lru :=
  match cache_get json_path (entries c) with
  | Some v =>
      (Ok v,
       {| entries := (json_path, v) :: cache_del json_path (entries c);
          hits := S (hits c);
          misses := misses c |})
  | None =>
      let c := {| entries := entries c; hits := hits c;
                  misses := S (misses c) |} in
      match load_json_frames w json_path with
      | Raise e => (Raise e, c)
      | Ok v =>
          let kept :=
            if (maxsize <=? length (entries c))%nat
            then removelast (entries c) else entries c in
          (Ok v, {| entries := (json_path, v) :: kept;
                    hits := hits c; misses := misses c |})
      end
  end.

(** A series of calls, each against the file system of its moment. *)
Fixpoint cached_loads (c : lru) (calls : list (world * str))
  : list (result (list str)) * lru :=
  match calls with
  | [] => ([], c)
  | (w, p) :: r =>
      let '(x, c1) := cached_load w c p in
      let '(xs, c2) := cached_loads c1 r in
      (x :: xs, c2)
  end.

(* ------------------------------------------------------------------ *)
(** ** AnimationStream *)

(** The keyword arguments of [stream_json_with_banner]. *)
Record request := {
  json_path : str;
  banner_kind : str;
  banner_text : str;
  banner_color : str;
  delay : Q;
  alt_screen : bool
}.

(** The bytes of a text in a given encoding, kept symbolic. *)
Inductive bytes := Encoded (codec : string) (s : str).

Definition utf8 (s : str) : bytes := Encoded "utf-8" s.

(** A surrogate code point, U+D800 to U+DFFF: a Python string can hold one
    (the JSON decoder gives one for a lone escape), UTF-8 cannot. *)
Definition is_surrogate (c : char) : bool :=
  ((55296 <=? c) && (c <=? 57343))%N.

(** [s.encode("utf-8")] *)
Definition encode (s : str) : result bytes :=
  if existsb is_surrogate s then Raise UnicodeEncodeError else Ok (utf8 s).

Definition ENTER_ALT : str := esc "[?1049h".
Definition CLEAR : str := esc "[2J".
Definition HOME : str := esc "[H".
Definition HIDE_CURSOR : str := esc "[?25l".
Definition SHOW_CURSOR : str := esc "[?25h".
Definition EXIT_ALT : str := esc "[?1049l".

Definition start_sequence (alt_screen : bool) : str :=
  if alt_screen then ENTER_ALT ++ CLEAR ++ HOME ++ HIDE_CURSOR
  else CLEAR ++ HOME ++ HIDE_CURSOR.

Definition end_sequence (alt_screen : bool) : str :=
  if alt_screen then SHOW_CURSOR ++ EXIT_ALT
  else SHOW_CURSOR.

(** The local variables of the generator once its prologue has run. *)
Record locals := {
  frames : list str;
  start : str;
  end_ : str;
  banner_template : list str;
  banner_width : Z;
  color : str;
  pause : Q
}.

(** Where the generator is suspended. *)
Inductive gen :=
| Created (rq : request)                           (* not started *)
| AtYieldStart (l : locals)                        (* [yield start]   *)
| AtYieldFrame (l : locals) (i : nat) (banner_offset : Z)
                                                   (* [yield frame]   *)
| AtSleep (l : locals) (i : nat) (banner_offset : Z)
                                                   (* [await sleep]   *)
| AtYieldEnd (l : locals) (pending : option exn)   (* [yield end]     *)
| Closing (l : locals)      (* [yield end] reached by [aclose()]: the value
                               was refused, GeneratorExit is pending and
                               the generator is marked closed *)
| Spinning                                         (* loop without a yield *)
| Closed.

(** What the environment does to a suspended generator: let it go on
    ([__anext__()], or the sleep being over); raise an exception at the
    point where it is suspended ([athrow(e)] at a [yield]; at the pause, the
    awaited sleep raising, as it does in a cancelled task); or close it
    ([aclose()]). *)
Inductive event :=
| Resume
| Throw (e : exn)
| Close.

(** What a step of the generator gives back.
    - [Yielded b]: the call hands [b] out;
    - [Sleeping d]: the generator waits in [asyncio.sleep(d)];
    - [Returned]: the generator finishes in this call and the call ends
      without an error (the end of the iteration for [__anext__] and
      [athrow], a plain return for [aclose]);
    - [Raised e]: the call raises [e];
    - [Diverged]: the call never ends;
    - [Exhausted]: the generator was finished or marked closed before the
      call; none of its code runs and nothing is handed out. *)
Inductive outcome :=
| Yielded (b : bytes)
| Sleeping (d : Q)
| Returned
| Raised (e : exn)
| Diverged
| Exhausted.

Definition str_eqb (a b : str) : bool :=
  if str_eq_dec a b then true else false.

Definition IGNORED_EXIT : string := "async generator ignored GeneratorExit".
Definition ALREADY_RUNNING : string :=
  "aclose(): asynchronous generator is already running".

(** An exception leaving the body of an asynchronous generator: the
    interpreter turns [StopIteration] and [StopAsyncIteration] into
    [RuntimeError]; any other goes out as it is. *)
Definition raised_out (e : exn) : exn :=
  match e with
  | StopIteration => PyRuntimeError "async generator raised StopIteration"
  | StopAsyncIteration =>
      PyRuntimeError "async generator raised StopAsyncIteration"
  | _ => e
  end.

Section Stream.

Variable console_print : str -> result str.

(** The prologue: everything before [try]. *)
Definition prologue (rq : request) (frames : list str) : locals :=
  let '(banner_template, banner_width) :=
    if str_eqb (banner_kind rq) (str_of "big")
    then (BANNER_BIG, BANNER_BIG_WIDTH)
    else make_ticker_lines (banner_text rq) PADDING in
  {| frames := frames;
     start := start_sequence (alt_screen rq);
     end_ := end_sequence (alt_screen rq);
     banner_template := banner_template;
     banner_width := banner_width;
     color := banner_color rq;
     pause := delay rq |}.

(** After [finally]: a pending exception goes on, otherwise the generator
    returns. *)
Definition finish (pending : option exn) : gen * outcome :=
  match pending with
  | Some e => (Closed, Raised (raised_out e))
  | None => (Closed, Returned)
  end.

(** The [finally] block: [yield end.encode("utf-8")] under
    [except Exception: pass], with [pending] the exception that [finally]
    will raise again.  An error of the encoding is of class [Exception] and
    is dropped there. *)
Definition teardown (l : locals) (pending : option exn) : gen * outcome :=
  match encode (end_ l) with
  | Ok b => (AtYieldEnd l pending, Yielded b)
  | Raise e =>
      if is_Exception e then finish pending
      else (Closed, Raised (raised_out e))
  end.

(** An exception inside [try]: [CancelledError] is caught and dropped,
    anything else stays pending; either way [finally] yields [end]. *)
Definition unwind (l : locals) (e : exn) : gen * outcome :=
  teardown l (if is_CancelledError e then None else Some e).

(** [aclose()] at a [yield] inside [try]: GeneratorExit is raised there,
    [except CancelledError] does not take it, and [finally] yields [end].
    A generator that yields while it is being closed is refused: the value
    is dropped and the closer gets [RuntimeError].  Had the encoding of
    [end] failed, the error would be dropped, GeneratorExit would leave the
    generator and [aclose()] would return. *)
Definition close_in_try (l : locals) : gen * outcome :=
  match encode (end_ l) with
  | Ok _ => (Closing l, Raised (PyRuntimeError IGNORED_EXIT))
  | Raise e =>
      if is_Exception e then (Closed, Returned)
      else (Closed, Raised (raised_out e))
  end.

(** [yield start.encode("utf-8")], the first statement inside [try]. *)
Definition first_yield (l : locals) : gen * outcome :=
  match encode (start l) with
  | Ok b => (AtYieldStart l, Yielded b)
  | Raise e => unwind l e
  end.

(** [frames[i]] *)
Definition getitem (fs : list str) (i : nat) : result str :=
  match nth_error fs i with
  | Some f => Ok f
  | None => Raise IndexError
  end.

(** One turn of the loop body, from its first line to [yield]: an exception
    of the compositor (the console rejecting a line) or of the encoding is
    raised inside [try]. *)
Definition loop_body (l : locals) (i : nat) (banner_offset : Z)
  : gen * outcome :=
  let r :=
    shifted <- shift_lines (banner_template l) banner_offset
                           (banner_width l) ;;
    frame <- getitem (frames l) i ;;
    content <- render_frame_with_banner console_print frame shifted
                                        (color l) ;;
    encode (HOME ++ content) in
  match r with
  | Ok b => (AtYieldFrame l i (banner_offset + 1), Yielded b)
  | Raise e => unwind l e
  end.

(** Entering [while True: for i in range(n)] with [banner_offset = 0]:
    without frames the loop spins and never yields. *)
Definition enter_loop (l : locals) : gen * outcome :=
  match length (frames l) with
  | O => (Spinning, Diverged)
  | S _ => loop_body l 0 0
  end.

(** The next turn after the pause: the next index, or a new [for] from 0. *)
Definition next_turn (l : locals) (i : nat) (banner_offset : Z)
  : gen * outcome :=
  if (S i <? length (frames l))%nat
  then loop_body l (S i) banner_offset
  else loop_body l 0 banner_offset.

(** A started generator reacting to an event at its suspension point. *)
Definition react (g : gen) (ev : event) : gen * outcome :=
  match g with
  | Created _ => (g, Exhausted)       (* not started: see [step] *)
  | AtYieldStart l =>
      match ev with
      | Resume => enter_loop l
      | Throw e => unwind l e
      | Close => close_in_try l
      end
  | AtYieldFrame l i banner_offset =>
      match ev with
      | Resume => (AtSleep l i banner_offset, Sleeping (pause l))
      | Throw e => unwind l e
      | Close => close_in_try l
      end
  | AtSleep l i banner_offset =>
      match ev with
      | Resume => next_turn l i banner_offset
      | Throw e => unwind l e
      | Close =>
          (* the generator is inside [__anext__]: it cannot be closed *)
          (g, Raised (PyRuntimeError ALREADY_RUNNING))
      end
  | AtYieldEnd l pending =>
      match ev with
      | Resume => finish pending
      | Throw e =>
          (* [except Exception: pass] around [yield end] *)
          if is_Exception e then finish pending
          else (Closed, Raised (raised_out e))
      | Close =>
          (* GeneratorExit leaves the generator and [aclose()] takes it *)
          (Closed, Returned)
      end
  | Closing l =>
      match ev with
      | Resume => finish (Some GeneratorExit)
      | _ => (g, Exhausted)
      end
  | Spinning => (Spinning, Diverged)
  | Closed => (Closed, Exhausted)
  end.

(** One step of a session.  The cache is the process-wide one; only the
    first step, which runs [load_json_frames(json_path)], touches it.  An
    exception thrown into a generator that has not started is raised back
    and nothing runs; closing it runs nothing either. *)
Definition step (w : world) (st : lru * gen) (ev : event)
  : (lru * gen) * outcome :=
  let '(c, g) := st in
  match g with
  | Created rq =>
      match ev with
      | Resume =>
          let '(r, c') := cached_load w c (json_path rq) in
          match r with
          | Raise e => ((c', Closed), Raised (raised_out e))
          | Ok frames =>
              let '(g', o) := first_yield (prologue rq frames) in
              ((c', g'), o)
          end
      | Throw e => ((c, Closed), Raised (raised_out e))
      | Close => ((c, Closed), Returned)
      end
  | _ => let '(g', o) := react g ev in ((c, g'), o)
  end.

Fixpoint run (w : world) (st : lru * gen) (evs : list event)
  : (lru * gen) * list outcome :=
  match evs with
  | [] => (st, [])
  | ev :: r =>
      let '(st1, o) := step w st ev in
      let '(st2, os) := run w st1 r in
      (st2, o :: os)
  end.

(** The buffers a consumer receives. *)
Definition emitted (os : list outcome) : list bytes :=
  flat_map (fun o => match o with Yielded b => [b] | _ => [] end) os.

End Stream.

(* ------------------------------------------------------------------ *)
(** ** Predicates used in the statements *)

(** [line'] is [line] rotated to the left by [k] places: the character at
    place [i] of [line'] is the one at place [(i + k) mod len] of [line]. *)
Definition rotated_by (k : nat) (line line' : str) : Prop :=
  length line' = length line /\
  forall i, (i < length line)%nat ->
            nth_error line' i = nth_error line ((i + k) mod length line)%nat.

(** [pat] occurs in [s] starting at its first character. *)
Fixpoint starts_with (pat s : str) : bool :=
  match pat, s with
  | [], _ => true
  | _ :: _, [] => false
  | p :: pat', c :: s' => (p =? c)%N && starts_with pat' s'
  end.

(** The number of places of [s] where [pat] occurs. *)
Fixpoint occurrences (pat s : str) : nat :=
  match s with
  | [] => 0
  | _ :: r => (if starts_with pat s then 1 else 0) + occurrences pat r
  end%nat.

Definition contains (pat s : str) : bool :=
  negb (occurrences pat s =? 0)%nat.

Definition ends_with (pat s : str) : Prop := exists body, s = body ++ pat.

(** A line is blank when it has whitespace only. *)
Definition blank (s : str) : bool := forallb isspace s.

(** A caption in normal form: no whitespace at either end, and between
    words one space character and nothing else.  [after_space] tells whether
    the place before is a space (or the start). *)
Fixpoint single_spaced (after_space : bool) (s : str) : bool :=
  match s with
  | [] => negb after_space
  | c :: r =>
      if isspace c
      then (c =? SP)%N && negb after_space && single_spaced true r
      else single_spaced false r
  end.

Definition normal_caption (s : str) : bool :=
  match s with
  | [] => true
  | _ => single_spaced true s
  end.

(** A word: at least one character and no whitespace. *)
Definition word (w : str) : Prop :=
  w <> [] /\ forallb (fun c => negb (isspace c)) w = true.

(** The art lines kept by the block banner: blank lines dropped, trailing
    whitespace stripped from the others. *)
Definition trimmed_nonblank (lines : list str) : list str :=
  map rstrip (filter (fun ln => negb (blank ln)) lines).

(** The lines the compositor emits for a frame: the lines of the content,
    one empty separator, and the banner lines in their colour markup. *)
Definition emitted_lines (frame_rich_text : str) (banner_lines : list str)
  (banner_color : str) : list str :=
  splitlines frame_rich_text ++ [[]] ++ map (colored banner_color) banner_lines.

(** A console without markup or styles: the text goes to the buffer as it
    is. *)
Definition plain_console : str -> result str := fun s => Ok s.

(** A console that, as Rich does, refuses a closing tag that closes
    nothing: printing the line [/] raises; any other text goes through. *)
Definition strict_console : str -> result str :=
  fun s => if str_eqb s (str_of "[/]")
           then Raise (Exception (Other "MarkupError"))
           else Ok s.

(** The caption as the specification words it: every run of whitespace
    becomes a single space, then the ends are trimmed.  [in_run] tells
    whether the place before is whitespace. *)
Fixpoint squeeze (in_run : bool) (s : str) : str :=
  match s with
  | [] => []
  | c :: r =>
      if isspace c
      then if in_run then squeeze true r else SP :: squeeze true r
      else c :: squeeze false r
  end.

Definition collapsed (caption : str) : str := strip (squeeze false caption).

(** The characters of a text that are not whitespace, in order. *)
Definition ink (s : str) : str := filter (fun c => negb (isspace c)) s.

(** A file system with nothing on it. *)
Definition empty_disk : world :=
  {| path_exists := fun _ => false;
     json_load := fun p => Raise (FileNotFoundError (JsonNotFound p)) |}.

(** A file system with one file, at [p], whose content decodes to [data]. *)
Definition one_file (p : str) (data : json) : world :=
  {| path_exists := fun q => str_eqb q p;
     json_load := fun q => if str_eqb q p then Ok data
                           else Raise (FileNotFoundError (JsonNotFound q)) |}.

Definition is_JString (x : json) : bool :=
  match x with JString _ => true | _ => false end.

(** The decoded content is a list with at least one element. *)
Definition nonempty_list (data : json) : bool :=
  match data with JArray (_ :: _) => true | _ => false end.

Definition keys (c : lru) : list str := map fst (entries c).

(** The cache after a call that missed and whose body raised: the miss is
    counted and nothing else changes. *)
Definition counted_miss (c : lru) : lru :=
  {| entries := entries c; hits := hits c; misses := S (misses c) |}.

(** A well-formed cache: one entry per key, no more than [maxsize]. *)
Definition cache_ok (c : lru) : Prop :=
  NoDup (keys c) /\ (length (entries c) <= maxsize)%nat.

(** The entry of [p], holding [v], is in the cache and only keys of
    [others] have been used since it was. *)
Definition held (p : str) (v : list str) (others : list str) (c : lru)
  : Prop :=
  cache_ok c /\
  exists front back,
    entries c = front ++ (p, v) :: back /\ incl (map fst front) others.

(** The calls of a series that are for another key than [p]. *)
Definition calls_elsewhere (p : str) (calls : list (world * str)) : nat :=
  length (filter (fun call => negb (str_eqb (snd call) p)) calls).

(** The view of a template at a tick: what [shift_lines] returns. *)
Definition view (template : list str) (width tick : Z) : list str :=
  let o := tick mod Z.max 1 width in
  map (fun line => slice_from line o ++ slice_to line o) template.

Definition bytes_eq_dec (a b : bytes) : {a = b} + {a <> b}.
Proof.
  destruct a as [c1 s1], b as [c2 s2].
  destruct (string_dec c1 c2) as [->|H1]; [|right; congruence].
  destruct (str_eq_dec s1 s2) as [->|H2]; [left; reflexivity|].
  right; congruence.
Defined.

(** How many times a buffer occurs among the emitted ones. *)
Definition times (b : bytes) (bs : list bytes) : nat :=
  count_occ bytes_eq_dec bs b.

(** A generator inside [try], with the locals [l]. *)
Definition in_try (l : locals) (g : gen) : Prop :=
  match g with
  | AtYieldStart l' | AtYieldFrame l' _ _ | AtSleep l' _ _ => l' = l
  | Spinning => True
  | _ => False
  end.

Section StreamSpec.

Variable console_print : str -> result str.

(** The buffer of one cycle: cursor home, then frame [i] composed with the
    banner as it is at [tick]; or the exception that composing or encoding
    it raises. *)
Definition composed (l : locals) (i : nat) (tick : Z) : result bytes :=
  content <- render_frame_with_banner console_print
               (nth i (frames l) [])
               (view (banner_template l) (banner_width l) tick)
               (color l) ;;
  encode (HOME ++ content).

(** The buffers of the cycles [from], [from + 1], ... , [count] of them. *)
Definition cycles (l : locals) (from count : nat) : list (result bytes) :=
  map (fun j => composed l (j mod length (frames l)) (Z.of_nat j))
      (seq from count).

End StreamSpec.

Definition is_throw (ev : event) : bool :=
  match ev with Throw _ => true | _ => false end.

Definition is_close (ev : event) : bool :=
  match ev with Close => true | _ => false end.

(** A request for the examples: the ticker banner, no alternate screen,
    cadence 0. *)
Definition demo_request (alt : bool) : request :=
  {| json_path := str_of "/srv/a.json";
     banner_kind := str_of "ticker";
     banner_text := str_of "hi";
     banner_color := str_of "0,255,180";
     delay := 0%Q;
     alt_screen := alt |}.

(** A file system holding three frames at the path of [demo_request]. *)
Definition demo_disk : world :=
  one_file (str_of "/srv/a.json")
           (JArray [JString (str_of "a"); JString (str_of "b");
                    JString (str_of "c")]).

Definition demo_frames : list str := [str_of "a"; str_of "b"; str_of "c"].

Definition demo_cache : lru :=
  {| entries := [(str_of "/srv/a.json", demo_frames)];
     hits := 0; misses := 1 |}.

(** A file system where every path exists and holds one frame, its own
    name. *)
Definition full_disk : world :=
  {| path_exists := fun _ => true;
     json_load := fun p => Ok (JArray [JString p]) |}.

(** Thirty-two paths other than ["/srv/a.json"]. *)
Definition other_paths : list str :=
  map (fun i => str_of "/srv/b" ++ [N.of_nat i]) (seq 0 32).

(** Every cached sequence has at least one frame. *)
Definition cache_sound (c : lru) : Prop :=
  Forall (fun kv => snd kv <> []) (entries c).

(* ------------------------------------------------------------------ *)
(** ** Registry, browser detection and routes *)

(** A [dict] with text keys, in insertion order. *)
Definition dict (V : Type) := list (str * V).

(** [d.get(k)] *)
Fixpoint dict_get {V} (d : dict V) (k : str) : option V :=
  match d with
  | [] => None
  | (k', v) :: r => if str_eq_dec k k' then Some v else dict_get r k
  end.

(** [d.get(k, default)] *)
Definition dict_get_default {V} (d : dict V) (k : str) (default : V) : V :=
  match dict_get d k with
  | Some v => v
  | None => default
  end.

(** [os.path.join(a, b)] (POSIX): an absolute [b] stands alone, otherwise
    it is put after [a] with one slash between them. *)
Definition path_join (a b : str) : str :=
  if isabs b then b
  else match rev a with
       | [] => b
       | c :: _ => if (c =? 47)%N then a ++ b else a ++ [47%N] ++ b
       end.

(** The registry [ANIMS], for the directory [base_dir] of the program. *)
Definition ANIMS (base_dir : str) : dict (dict str) :=
  let banner_text :=
    str_of "MELLSTROY " ++ [8226%N] ++ str_of " STREAM " ++ [8226%N]
    ++ str_of " ASCII" in
  [ (str_of "woohoo",
     [ (str_of "json_path",
        path_join base_dir (str_of "assets/mellstroy2_ascii.json"));
       (str_of "banner_kind", str_of "big");
       (str_of "banner_text", banner_text);
       (str_of "color", str_of "0,255,180") ]);
    (str_of "clap",
     [ (str_of "json_path",
        path_join base_dir (str_of "assets/mellstroy3_ascii.json"));
       (str_of "banner_kind", str_of "big");
       (str_of "banner_text", banner_text);
       (str_of "color", str_of "255,165,0") ]);
    (str_of "blyat",
     [ (str_of "json_path",
        path_join base_dir (str_of "assets/mellstroy4_ascii.json"));
       (str_of "banner_kind", str_of "big");
       (str_of "banner_text", banner_text);
       (str_of "color", str_of "255,0,0") ]) ].

(** [s.lower()] on header values, which are Latin-1 text: the capital
    letters A-Z and the accented capitals of Latin-1 move up by 32. *)
Definition lower_char (c : char) : char :=
  if ((65 <=? c) && (c <=? 90)
      || (192 <=? c) && (c <=? 222) && negb (c =? 215))%N
  then (c + 32)%N else c.

Definition lower (s : str) : str := map lower_char s.

(** [sub in s] on strings. *)
Fixpoint py_in (sub s : str) : bool :=
  starts_with sub s
  || match s with
     | [] => false
     | _ :: r => py_in sub r
     end.

(** The part of a request the routes read: its headers, names in lower
    case as the server hands them over. *)
Record http_request := { headers : dict str }.

(** [x or y] on strings that may be [None]. *)
Definition or_else (x : option str) (y : str) : str :=
  match x with
  | Some s => if truthy s then s else y
  | None => y
  end.

Definition browser_words : list str :=
  map str_of ["mozilla"; "chrome"; "safari"; "edg"; "firefox"; "opera"]%string.

Definition is_browser (req : http_request) : bool :=
  let ua := lower (or_else (dict_get (headers req) (str_of "user-agent")) []) in
  let accept := lower (or_else (dict_get (headers req) (str_of "accept")) []) in
  let ua_browser := existsb (fun k => py_in k ua) browser_words in
  let accept_html := py_in (str_of "text/html") accept in
  ua_browser || accept_html.

Definition BROWSER_HINT : str :=
  [1069; 1090; 1086; 1090; 32; 1101; 1085; 1076; 1087; 1086; 1080; 1085; 1090; 32;
   1086; 1090; 1076; 1072; 1105; 1090; 32; 1087; 1086; 1090; 1086; 1082; 32; 65;
   78; 83; 73; 45; 1075; 1088; 1072; 1092; 1080; 1082; 1080; 32; 1080; 32;
   1087; 1088; 1077; 1076; 1085; 1072; 1079; 1085; 1072; 1095; 1077; 1085; 32; 1076;
   1083; 1103; 32; 1090; 1077; 1088; 1084; 1080; 1085; 1072; 1083; 1072; 46; 10;
   10; 1054; 1090; 1082; 1088; 1086; 1081; 32; 1095; 1077; 1088; 1077; 1079; 32;
   1090; 1077; 1088; 1084; 1080; 1085; 1072; 1083; 44; 32; 1085; 1072; 1087; 1088;
   1080; 1084; 1077; 1088; 58; 10; 32; 32; 99; 117; 114; 108; 32; 45;
   78; 32; 104; 116; 116; 112; 58; 47; 47; 60; 104; 111; 115; 116;
   62; 58; 60; 112; 111; 114; 116; 62; 47; 97; 47; 114; 111; 109;
   97; 63; 100; 101; 108; 97; 121; 61; 48; 46; 48; 52; 10; 1080;
   1083; 1080; 32; 1087; 1086; 1076; 32; 87; 105; 110; 100; 111; 119; 115;
   32; 80; 111; 119; 101; 114; 83; 104; 101; 108; 108; 58; 10; 32;
   32; 99; 117; 114; 108; 46; 101; 120; 101; 32; 45; 78; 32; 104;
   116; 116; 112; 58; 47; 47; 60; 104; 111; 115; 116; 62; 58; 60;
   112; 111; 114; 116; 62; 47; 97; 47; 114; 111; 109; 97; 63; 100;
   101; 108; 97; 121; 61; 48; 46; 48; 52; 10; 10; 1057; 1087; 1080;
   1089; 1086; 1082; 32; 1076; 1086; 1089; 1090; 1091; 1087; 1085; 1099; 1093; 32;
   1072; 1085; 1080; 1084; 1072; 1094; 1080; 1081; 58; 32; 47; 97; 10]%N.

(** What a route hands back to the framework, or raises. *)
Inductive response :=
| PlainTextResponse (content : str) (status_code : Z)
| JSONResponse (names : list str)
| StreamingResponse (body : gen) (media_type : str) (headers : dict str).

Inductive route_error :=
| HTTPException (status_code : Z) (detail : str)
| KeyError (key : str).

Definition quoted_name (name : str) : str :=
  str_of "Animation '" ++ name ++ str_of "'".

(** The check of [list_anims]: the first entry whose path is not absolute
    raises. *)
Fixpoint check_registry (items : dict (dict str)) : option route_error :=
  match items with
  | [] => None
  | (name, cfg) :: r =>
      let p := dict_get_default cfg (str_of "json_path") [] in
      if negb (isabs p) then
        Some (HTTPException 500
                (quoted_name name ++ str_of " has non-absolute json_path: "
                 ++ p))
      else check_registry r
  end.

Definition list_anims (anims : dict (dict str)) : route_error + response :=
  match check_registry anims with
  | Some e => inl e
  | None => inr (JSONResponse (map fst anims))
  end.

(** Truthiness of an optional [dict]: there and not empty. *)
Definition truthy_cfg (cfg : option (dict str)) : option (dict str) :=
  match cfg with
  | Some ((_ :: _) as d) => Some d
  | _ => None
  end.

Definition stream_anim (anims : dict (dict str)) (req : http_request)
  (name : str) (delay : Q) (alt : bool) (banner : option str)
  : route_error + response :=
  if is_browser req then inr (PlainTextResponse BROWSER_HINT 200)
  else
    match truthy_cfg (dict_get anims name) with
    | None =>
        inl (HTTPException 404 (quoted_name name ++ str_of " not found"))
    | Some cfg =>
        match dict_get cfg (str_of "json_path") with
        | None => inl (KeyError (str_of "json_path"))
        | Some json_path =>
            if negb (isabs json_path) then
              inl (HTTPException 500
                     (quoted_name name
                      ++ str_of " has non-absolute json_path: " ++ json_path))
            else
              let banner_kind :=
                or_else banner
                  (dict_get_default cfg (str_of "banner_kind") (str_of "big")) in
              let gen :=
                Created
                  {| json_path := json_path;
                     banner_kind := banner_kind;
                     banner_text :=
                       dict_get_default cfg (str_of "banner_text") [];
                     banner_color :=
                       dict_get_default cfg (str_of "color")
                                        (str_of "255,215,0");
                     delay := delay;
                     alt_screen := alt |} in
              inr (StreamingResponse gen
                     (str_of "text/plain; charset=utf-8")
                     [(str_of "Cache-Control", str_of "no-store")])
        end
    end.

(** How the startup hook ends. *)
Inductive startup :=
| Started (c : lru)
| RuntimeError (name : str) (path : option str)
| Propagated (e : exn).

(** [warmup_cache]: for every entry, in order, the path is checked, the
    cache is cleared and the frames are loaded; an [Exception] of the load
    is dropped. *)
Fixpoint warmup_cache (w : world) (items : dict (dict str)) (c : lru)
  : startup :=
  match items with
  | [] => Started c
  | (name, cfg) :: r =>
      let path := dict_get cfg (str_of "json_path") in
      match path with
      | None => RuntimeError name path
      | Some p =>
          if negb (truthy p) || negb (isabs p) then RuntimeError name path
          else
            let c0 := cache_clear c in
            let '(x, c1) := cached_load w c0 p in
            match x with
            | Ok _ => warmup_cache w r c1
            | Raise e =>
                if is_Exception e then warmup_cache w r c1
                else Propagated e
            end
      end
  end.

(** An entry of the registry that the startup hook accepts: it has a path,
    not empty and absolute. *)
Definition entry_ok (cfg : dict str) : bool :=
  match dict_get cfg (str_of "json_path") with
  | Some p => truthy p && isabs p
  | None => false
  end.

(** An entry of the registry that [list_anims] accepts. *)
Definition entry_listed (cfg : dict str) : bool :=
  isabs (dict_get_default cfg (str_of "json_path") []).

(** A file system whose failures are all of class [Exception]. *)
Definition calm (w : world) : Prop :=
  forall q e, json_load w q = Raise e -> is_Exception e = true.

(** [sub] occurs in [s]. *)
Definition occurs_in (sub s : str) : Prop :=
  exists pre post, s = pre ++ sub ++ post.

(** The value of a header, or the empty text. *)
Definition header (req : http_request) (name : string) : str :=
  or_else (dict_get (headers req) (str_of name)) [].

(** A generator that has frames to show or has stopped showing them. *)
Definition live (g : gen) : Prop :=
  match g with
  | Created _ | Spinning => False
  | AtYieldStart l | AtYieldFrame l _ _ | AtSleep l _ _ => frames l <> []
  | AtYieldEnd _ _ | Closing _ | Closed => True
  end.

(** A generator inside the loop of the locals [l], [k] frames emitted. *)
Definition looping (l : locals) (k : nat) (g : gen) : Prop :=
  match g with
  | AtYieldStart l' => l' = l /\ k = 0%nat
  | AtYieldFrame l' i tick | AtSleep l' i tick =>
      l' = l /\ frames l <> [] /\
      exists j, k = S j /\ i = (j mod length (frames l))%nat
                /\ tick = Z.of_nat (S j)
  | _ => False
  end.

(** A generator that has left the loop for good. *)
Definition past_loop (g : gen) : Prop :=
  match g with
  | AtYieldEnd _ _ | Closing _ | Closed => True
  | _ => False
  end.

(** What [finally] will raise again after an exception [e] inside [try]:
    nothing for a cancellation, which [except] has taken; else [e]. *)
Definition pending_after (e : exn) : option exn :=
  if is_CancelledError e then None else Some e.

(** The locals of a session that asked for the alternate screen or not. *)
Definition session_of (alt : bool) (l : locals) : Prop :=
  start l = start_sequence alt /\ end_ l = end_sequence alt.

Section LoopSteps.

Variable console_print : str -> result str.
Variable l : locals.

(** The buffer of cycle [k]: frame [k mod n] with the banner at tick [k]. *)
Definition buffer (k : nat) : result bytes :=
  composed console_print l (k mod length (frames l)) (Z.of_nat k).

(** The ways a step taken inside the loop, [k] frames emitted, can end:
    no buffer and the loop goes on; the buffer of cycle [k]; the teardown,
    handed out; the teardown refused, the generator being closed; or, with
    no frame at all, a loop that never yields. *)
Inductive loop_step (k : nat) (ev : event) : gen -> outcome -> Prop :=
| step_stay (g' : gen) (o : outcome) :
    looping l k g' -> emitted [o] = [] -> o <> Diverged ->
    is_throw ev = false ->
    loop_step k ev g' o
| step_frame (g' : gen) (b : bytes) :
    looping l (S k) g' -> ev = Resume -> buffer k = Ok b ->
    loop_step k ev g' (Yielded b)
| step_teardown (pending : option exn) :
    is_close ev = false ->
    (forall e, ev = Throw e -> pending = pending_after e) ->
    (ev = Resume ->
     exists e, buffer k = Raise e /\ pending = pending_after e) ->
    loop_step k ev (AtYieldEnd l pending) (Yielded (utf8 (end_ l)))
| step_refused :
    ev = Close ->
    loop_step k ev (Closing l) (Raised (PyRuntimeError IGNORED_EXIT))
| step_spin :
    ev = Resume -> frames l = [] ->
    loop_step k ev Spinning Diverged.

End LoopSteps.

(* ================================================================== *)
(** * Properties *)

(* ------------------------------------------------------------------ *)
(** ** Slices and the scrolling view *)

Lemma slice_index_le (n : nat) (i : Z) : (slice_index n i <= n)%nat.
Proof.
  unfold slice_index.
  destruct (i <? 0) eqn:Hi;
    repeat match goal with
           | |- context [?a <? ?b] => destruct (Z.ltb_spec a b)
           end; lia.
Qed.

Lemma slice_index_inside (n : nat) (i : Z) :
  0 <= i <= Z.of_nat n -> slice_index n i = Z.to_nat i.
Proof.
  intros H. unfold slice_index.
  destruct (Z.ltb_spec i 0); [lia|]. cbv zeta iota.
  destruct (Z.ltb_spec i 0); [lia|].
  destruct (Z.ltb_spec (Z.of_nat n) i); lia.
Qed.

Lemma rotation_length {A} (s : list A) (o : Z) :
  length (slice_from s o ++ slice_to s o) = length s.
Proof.
  unfold slice_from, slice_to.
  pose proof (slice_index_le (length s) o).
  rewrite length_app, length_skipn, length_firstn. lia.
Qed.

Lemma rotation_nth (s : str) (k i : nat) :
  (k <= length s)%nat -> (i < length s)%nat ->
  nth_error (skipn k s ++ firstn k s) i
  = nth_error s ((i + k) mod length s)%nat.
Proof.
  intros Hk Hi.
  rewrite nth_error_app, length_skipn.
  destruct (Nat.ltb_spec i (length s - k)) as [Hlt|Hge].
  - rewrite nth_error_skipn, Nat.mod_small by lia.
    f_equal. lia.
  - rewrite nth_error_firstn.
    destruct (Nat.ltb_spec (i - (length s - k)) k); [|lia].
    f_equal.
    apply Nat.mod_unique with (q := 1%nat); lia.
Qed.

Lemma py_mod_max (t W : Z) :
  py_mod t (Z.max 1 W) = Ok (t mod Z.max 1 W).
Proof.
  unfold py_mod. destruct (Z.eqb_spec (Z.max 1 W) 0); [lia|reflexivity].
Qed.

Lemma shift_lines_eq (lines : list str) (t W : Z) :
  shift_lines lines t W
  = Ok (map (fun line => slice_from line (t mod Z.max 1 W)
                         ++ slice_to line (t mod Z.max 1 W)) lines).
Proof. unfold shift_lines. rewrite py_mod_max. reflexivity. Qed.

Lemma offset_range (t W : Z) : 0 <= t mod Z.max 1 W < Z.max 1 W.
Proof. apply Z.mod_pos_bound. lia. Qed.

(** C1.  On a template whose lines all have the width [W], the view at tick
    [t] is, line by line, [line[o:] + line[:o]] for the one offset
    [o = t mod max(1, W)]; each such line is the left rotation of the
    template line by [o] places.  The line ["ABCDE  "] of width 7 is itself
    at tick 0, ["BCDE  A"] at tick 1, and at tick 7 what it is at tick 0. *)
Theorem shift_lines_rotates (lines : list str) (W t : Z) :
  Forall (fun line => len line = W) lines ->
  let o := t mod Z.max 1 W in
  (exists out,
      shift_lines lines t W = Ok out /\
      out = map (fun line => slice_from line o ++ slice_to line o) lines /\
      Forall2 (rotated_by (Z.to_nat o)) lines out) /\
  shift_lines [str_of "ABCDE  "] 0 7 = Ok [str_of "ABCDE  "] /\
  shift_lines [str_of "ABCDE  "] 1 7 = Ok [str_of "BCDE  A"] /\
  shift_lines [str_of "ABCDE  "] 7 7 = shift_lines [str_of "ABCDE  "] 0 7.
Proof.
  intros Hw o. split; [|repeat split; reflexivity].
  eexists. split; [apply shift_lines_eq|]. split; [reflexivity|].
  fold o. pose proof (offset_range t W) as Ho. fold o in Ho.
  induction Hw as [|line rest Hline _ IH]; cbn [map]; constructor; auto.
  unfold len in Hline.
  assert (Hin : 0 <= o <= Z.of_nat (length line)).
  { destruct rest; lia. }
  split.
  - apply rotation_length.
  - intros i Hi. unfold slice_from, slice_to.
    rewrite slice_index_inside by exact Hin.
    apply rotation_nth; lia.
Qed.

Lemma shift_lines_rotates_witness :
  Forall (fun line => len line = 7) [str_of "ABCDE  "; str_of "  12345"] /\
  shift_lines [str_of "ABCDE  "; str_of "  12345"] 9 7
  = Ok [str_of "CDE  AB"; str_of "12345  "].
Proof.
  split; [repeat constructor|].
  destruct (shift_lines_rotates [str_of "ABCDE  "; str_of "  12345"] 7 9)
    as [[out [Hrun [Hout _]]] _]; [repeat constructor|].
  rewrite Hrun, Hout. reflexivity.
Defined.

(** C8.  For a width [W >= 1], two ticks that agree modulo [W] give the same
    view of any template, line for line. *)
Theorem shift_lines_periodic (lines : list str) (W t1 t2 : Z) :
  1 <= W ->
  t1 mod W = t2 mod W ->
  shift_lines lines t1 W = shift_lines lines t2 W.
Proof.
  intros HW Heq. rewrite !shift_lines_eq.
  replace (Z.max 1 W) with W by lia.
  rewrite Heq. reflexivity.
Qed.

Lemma shift_lines_periodic_witness :
  shift_lines [str_of "ABCDE  "] (-6) 7 = shift_lines [str_of "ABCDE  "] 15 7.
Proof.
  apply shift_lines_periodic; [lia | reflexivity].
Defined.

(** C10.  For any lines, any offset and any width, zero and negative ones
    included, the shift returns (the modulus [max(1, total_width)] is never
    zero and the slice bounds are clamped), as many lines as it was given,
    each as long as the line it comes from. *)
Theorem shift_lines_total (lines : list str) (offset total_width : Z) :
  exists out,
    shift_lines lines offset total_width = Ok out /\
    length out = length lines /\
    Forall2 (fun line line' => length line' = length line) lines out.
Proof.
  eexists. split; [apply shift_lines_eq|]. split.
  - apply length_map.
  - induction lines as [|line rest IH]; cbn [map]; constructor; auto.
    apply rotation_length.
Qed.

(* ------------------------------------------------------------------ *)
(** ** Building the templates *)

Lemma dropwhile_nil {A} (p : A -> bool) (l : list A) :
  dropwhile p l = [] <-> forallb p l = true.
Proof.
  induction l as [|x r IH]; cbn; [tauto|].
  destruct (p x); cbn; [exact IH|]. split; discriminate.
Qed.

Lemma dropwhile_head {A} (p : A -> bool) (l : list A) x r :
  dropwhile p l = x :: r -> p x = false.
Proof.
  induction l as [|y l IH]; cbn; [discriminate|].
  destruct (p y) eqn:Hy; [exact IH|].
  intros H; injection H as -> _. exact Hy.
Qed.

Lemma forallb_rev {A} (p : A -> bool) (l : list A) :
  forallb p (rev l) = forallb p l.
Proof.
  induction l as [|x r IH]; cbn; [reflexivity|].
  rewrite forallb_app, IH. cbn. rewrite andb_true_r. apply andb_comm.
Qed.

(** [ln.strip()] is empty exactly for a blank line. *)
Lemma strip_truthy (ln : str) : truthy (strip ln) = negb (blank ln).
Proof.
  unfold strip, lstrip, rstrip, blank.
  destruct (dropwhile isspace (rev ln)) as [|x r] eqn:Hd.
  - apply dropwhile_nil in Hd. rewrite forallb_rev in Hd.
    rewrite Hd. reflexivity.
  - assert (Hb : forallb isspace ln = false).
    { destruct (forallb isspace ln) eqn:Hf; [|reflexivity].
      rewrite <- forallb_rev in Hf. apply dropwhile_nil in Hf. congruence. }
    rewrite Hb. apply dropwhile_head in Hd.
    destruct (dropwhile isspace (rev (x :: r))) eqn:Hd2; [|reflexivity].
    apply dropwhile_nil in Hd2. rewrite forallb_rev in Hd2.
    cbn in Hd2. rewrite Hd in Hd2. discriminate.
Qed.

(** What [rstrip] does: it removes a whitespace tail, and what is left does
    not end with whitespace. *)
Lemma rstrip_spec (ln : str) :
  exists tail, ln = rstrip ln ++ tail /\ blank tail = true /\
               forall body c, rstrip ln = body ++ [c] -> isspace c = false.
Proof.
  unfold rstrip, blank.
  assert (H : forall l : str, exists pre,
               l = pre ++ dropwhile isspace l /\ forallb isspace pre = true).
  { induction l as [|x r [pre [H1 H2]]]; [exists []; auto|].
    cbn. destruct (isspace x) eqn:Hx.
    - exists (x :: pre). cbn. rewrite Hx, H2. split; [congruence|reflexivity].
    - exists []. auto. }
  destruct (H (rev ln)) as [pre [H1 H2]].
  exists (rev pre). repeat split.
  - rewrite <- rev_app_distr, <- H1, rev_involutive. reflexivity.
  - rewrite forallb_rev. exact H2.
  - intros body c Hc.
    apply (f_equal (@rev char)) in Hc.
    rewrite rev_involutive, rev_app_distr in Hc. cbn in Hc.
    eapply dropwhile_head. exact Hc.
Qed.

Lemma trimmed_nonblank_eq (lines : list str) :
  map rstrip (filter (fun ln => truthy (strip ln)) lines)
  = trimmed_nonblank lines.
Proof.
  unfold trimmed_nonblank. f_equal.
  apply filter_ext. intros ln. apply strip_truthy.
Qed.

Lemma fold_left_max (l : list Z) (x m : Z) :
  (forall y, In y (x :: l) -> y <= m) -> In m (x :: l) ->
  fold_left Z.max l x = m.
Proof.
  revert x. induction l as [|a l IH]; intros x Hle Hin; cbn.
  - destruct Hin as [->|[]]. reflexivity.
  - apply IH.
    + intros y [<-|Hy]; [|apply Hle; cbn; tauto].
      apply Z.max_lub; apply Hle; cbn; tauto.
    + pose proof (Hle x (or_introl eq_refl)).
      pose proof (Hle a (or_intror (or_introl eq_refl))).
      destruct Hin as [<-|[<-|Hin]]; cbn; [left; lia|left; lia|tauto].
Qed.

Lemma max_len_longest (raw : list str) (L : Z) :
  Forall (fun ln => len ln <= L) raw ->
  Exists (fun ln => len ln = L) raw ->
  max_len raw = L.
Proof.
  intros Hle Hex. unfold max_len, py_max.
  rewrite Forall_forall in Hle. rewrite Exists_exists in Hex.
  destruct Hex as [m [Hm HL]].
  destruct raw as [|x r]; [destruct Hm|]. cbn [map].
  apply fold_left_max.
  - intros y Hy. change (In y (map len (x :: r))) in Hy.
    apply in_map_iff in Hy. destruct Hy as [ln [<- Hln]]. auto.
  - change (In L (map len (x :: r))). apply in_map_iff. eauto.
Qed.

Lemma ljust_short (s : str) (width : Z) :
  len s <= width ->
  ljust s width = s ++ repeat SP (Z.to_nat (width - len s)) /\
  len (ljust s width) = width.
Proof.
  intros H. unfold ljust.
  destruct (Z.leb_spec width (len s)) as [Hw|Hw].
  - assert (width = len s) as -> by lia.
    rewrite Z.sub_diag. cbn. rewrite app_nil_r. auto.
  - split; [reflexivity|]. unfold len in *.
    rewrite length_app, repeat_length. lia.
Qed.

(** C6.  When the longest of the trimmed non-blank raw lines has length [L],
    the block template is made of those lines (blank ones dropped, trailing
    whitespace stripped), each padded with spaces to length [L + PADDING],
    and the width returned is [L + PADDING], with [PADDING = 10]. *)
Theorem normalize_banner_lines_width (lines : list str) (L : Z) :
  Forall (fun ln => len ln <= L) (trimmed_nonblank lines) ->
  Exists (fun ln => len ln = L) (trimmed_nonblank lines) ->
  exists fixed width,
    _normalize_banner_lines lines PADDING = (fixed, width) /\
    PADDING = 10 /\
    width = L + PADDING /\
    Forall (fun ln => len ln = L + PADDING) fixed /\
    Forall2 (fun ln ln' =>
               ln' = ln ++ repeat SP (Z.to_nat (L + PADDING - len ln)))
            (trimmed_nonblank lines) fixed.
Proof.
  intros Hle Hex. unfold _normalize_banner_lines.
  rewrite trimmed_nonblank_eq, (max_len_longest _ L Hle Hex).
  do 2 eexists. split; [reflexivity|]. split; [reflexivity|].
  split; [reflexivity|].
  assert (HP : 0 <= PADDING) by (unfold PADDING; lia).
  clear Hex. induction Hle as [|ln rest Hln _ IH]; cbn [map].
  - split; constructor.
  - destruct IH as [IH1 IH2].
    destruct (ljust_short ln (L + PADDING)) as [E1 E2]; [lia|].
    split; constructor; auto.
Qed.

Lemma normalize_banner_lines_width_witness :
  _normalize_banner_lines
    [[]; str_of "  ab  "; str_of "abcd"; str_of "   "] PADDING
  = ([str_of "  ab          "; str_of "abcd          "], 14).
Proof.
  destruct (normalize_banner_lines_width
              [[]; str_of "  ab  "; str_of "abcd"; str_of "   "] 4)
    as [fixed [width [Hrun _]]].
  - repeat constructor; vm_compute; discriminate.
  - apply Exists_cons_tl, Exists_cons_hd. reflexivity.
  - reflexivity.
Defined.

(** The logo of the repository: eleven lines of width 140. *)
Lemma BANNER_BIG_shape :
  length BANNER_BIG = 11%nat /\ BANNER_BIG_WIDTH = 140 /\
  Forall (fun ln => len ln = BANNER_BIG_WIDTH) BANNER_BIG.
Proof.
  split; [reflexivity|]. split; [reflexivity|].
  vm_compute. repeat constructor.
Qed.

Lemma rev_cons_not_nil {A} (x : A) (l : list A) : rev (x :: l) <> [].
Proof.
  intros E. apply (f_equal (@length A)) in E.
  rewrite length_rev in E. discriminate.
Qed.

Lemma split_from_words (s cur : str) :
  forallb (fun c => negb (isspace c)) cur = true ->
  Forall word (split_from cur s).
Proof.
  revert cur. induction s as [|c r IH]; intros cur Hcur; cbn.
  - destruct cur as [|x cur']; constructor; [|constructor].
    split; [apply rev_cons_not_nil|].
    rewrite forallb_rev. exact Hcur.
  - destruct (isspace c) eqn:Hc.
    + destruct cur as [|x cur']; [apply IH; reflexivity|].
      constructor; [|apply IH; reflexivity].
      split; [apply rev_cons_not_nil|].
      rewrite forallb_rev. exact Hcur.
    + apply IH. cbn. rewrite Hc, Hcur. reflexivity.
Qed.

Lemma split_words (s : str) : Forall word (split s).
Proof. apply split_from_words. reflexivity. Qed.

Lemma split_from_app (w cur r : str) :
  forallb (fun c => negb (isspace c)) w = true ->
  split_from cur (w ++ r) = split_from (rev w ++ cur) r.
Proof.
  revert cur. induction w as [|c w IH]; intros cur Hw; cbn; [reflexivity|].
  cbn in Hw. apply andb_true_iff in Hw as [Hc Hw].
  apply negb_true_iff in Hc. rewrite Hc, IH by exact Hw.
  rewrite <- app_assoc. reflexivity.
Qed.

Lemma single_spaced_app (w r : str) (b : bool) :
  forallb (fun c => negb (isspace c)) w = true -> w <> [] ->
  single_spaced b (w ++ r) = single_spaced false r.
Proof.
  revert b. induction w as [|c w IH]; intros b Hw Hne; [congruence|].
  cbn in *. apply andb_true_iff in Hw as [Hc Hw].
  apply negb_true_iff in Hc. rewrite Hc.
  destruct w as [|c' w']; [reflexivity|].
  apply IH; [exact Hw|discriminate].
Qed.

Lemma join_cons (sep w : str) (ws : list str) :
  ws <> [] -> join sep (w :: ws) = w ++ sep ++ join sep ws.
Proof. destruct ws; [congruence|reflexivity]. Qed.

Lemma join_words_single_spaced (ws : list str) :
  Forall word ws -> ws <> [] -> single_spaced true (join [SP] ws) = true.
Proof.
  induction 1 as [|w ws [Hne Hw] Hws IH]; intros Hnil; [congruence|].
  destruct ws as [|w2 ws'].
  - cbn [join]. rewrite <- (app_nil_r w).
    rewrite single_spaced_app by assumption. reflexivity.
  - rewrite join_cons by discriminate.
    rewrite single_spaced_app by assumption.
    cbn [app single_spaced]. change (isspace SP) with true. cbn.
    apply IH. discriminate.
Qed.

Lemma join_words_normal (ws : list str) :
  Forall word ws -> normal_caption (join [SP] ws) = true.
Proof.
  intros H. destruct ws as [|w ws']; [reflexivity|].
  pose proof (join_words_single_spaced _ H ltac:(discriminate)) as Hs.
  unfold normal_caption. destruct (join [SP] (w :: ws')); auto.
Qed.

Lemma split_from_word (w r : str) :
  word w ->
  split_from [] (w ++ r)
  = match r with
    | [] => [w]
    | c :: r' => if isspace c then w :: split_from [] r'
                 else split_from (c :: rev w) r'
    end.
Proof.
  intros [Hne Hw]. rewrite split_from_app, app_nil_r by exact Hw.
  assert (Hcur : rev w <> []).
  { intros E. apply (f_equal (@rev char)) in E.
    rewrite rev_involutive in E. auto. }
  destruct r as [|c r']; cbn [split_from].
  - destruct (rev w) eqn:E; [congruence|].
    rewrite <- E, rev_involutive. reflexivity.
  - destruct (isspace c); [|reflexivity].
    destruct (rev w) eqn:E; [congruence|].
    rewrite <- E, rev_involutive. reflexivity.
Qed.

Lemma split_join_words (ws : list str) :
  Forall word ws -> split (join [SP] ws) = ws.
Proof.
  unfold split.
  induction 1 as [|w ws Hw Hws IH]; [reflexivity|].
  destruct ws as [|w2 ws'].
  - cbn [join]. rewrite <- (app_nil_r w).
    rewrite split_from_word by exact Hw. rewrite app_nil_r. reflexivity.
  - rewrite join_cons by discriminate.
    rewrite split_from_word by exact Hw.
    cbn [app]. change (isspace SP) with true. cbn iota.
    rewrite IH. reflexivity.
Qed.

(** A caption already in normal form is left as it is. *)
Lemma join_split_normal_from (s cur : str) :
  single_spaced (match cur with [] => true | _ => false end) s = true ->
  join [SP] (split_from cur s) = rev cur ++ s.
Proof.
  revert cur. induction s as [|c r IH]; intros cur Hs.
  - destruct cur; [discriminate|]. cbn. rewrite app_nil_r. reflexivity.
  - cbn in Hs |- *. destruct (isspace c) eqn:Hc.
    + apply andb_true_iff in Hs as [Hs Hr].
      apply andb_true_iff in Hs as [Hsp Hcur].
      apply N.eqb_eq in Hsp. subst c.
      destruct cur as [|x cur']; [discriminate|].
      specialize (IH [] Hr). cbn [rev app] in IH.
      destruct r as [|c2 r2]; [discriminate|].
      rewrite join_cons.
      * rewrite IH. reflexivity.
      * intros E. rewrite E in IH. discriminate.
    + rewrite (IH (c :: cur) Hs). cbn. rewrite <- app_assoc. reflexivity.
Qed.

Lemma join_split_normal (s : str) :
  normal_caption s = true -> join [SP] (split s) = s.
Proof.
  intros H. destruct s as [|c r]; [reflexivity|].
  apply (join_split_normal_from (c :: r) []). exact H.
Qed.

(** The caption of the registry, 26 characters: one line of width 36. *)
Example make_ticker_lines_registry :
  make_ticker_lines
    (str_of "MELLSTROY " ++ [8226%N] ++ str_of " STREAM " ++ [8226%N]
     ++ str_of " ASCII") PADDING
  = ([str_of "MELLSTROY " ++ [8226%N] ++ str_of " STREAM " ++ [8226%N]
      ++ str_of " ASCII          "], 36).
Proof. reflexivity. Qed.

(** Tabs, newlines and runs of spaces all become one space. *)
Example make_ticker_lines_collapses :
  make_ticker_lines ([9%N] ++ str_of " to   be" ++ [10%N; 13%N]
                     ++ str_of "continued  ") PADDING
  = ([str_of "to be continued          "], 25).
Proof. reflexivity. Qed.

(* ------------------------------------------------------------------ *)
(** ** The composed buffer *)

Section ComposeFacts.

Variable console_print : str -> result str.


(** The first line that the console refuses ends the loop with its
    exception. *)
Lemma for_each_print_raises (f : str -> str) (done rest rendered : list str)
  (ln : str) (e : exn) (buf : str) :
  Forall2 (fun ln r => console_print (f ln) = Ok r) done rendered ->
  console_print (f ln) = Raise e ->
  for_each (fun b ln => print_line_and_clear console_print b (f ln))
           (done ++ ln :: rest) buf
  = Raise e.
Proof.
  intros H He. revert buf.
  induction H as [|x r done rendered Hx _ IH]; intros buf;
    cbn [for_each app]; unfold print_line_and_clear at 1.
  - rewrite He. reflexivity.
  - rewrite Hx. cbn [bind]. apply IH.
Qed.





End ComposeFacts.









(** A line that the console refuses: the compositor raises and there is no
    buffer.  Here the frame is the closing tag [/] alone. *)
Example render_frame_with_banner_rejected :
  render_frame_with_banner strict_console (str_of "[/]") [] []
  = Raise (Exception (Other "MarkupError")).
Proof. reflexivity. Qed.

(** What is counted is what the compositor adds: a console that let an
    ESC[K of the content through would add to the count. *)
Example composed_buffer_counts_content :
  occurrences ERASE_LINE
    (concat (map (fun r => r ++ ERASE_LINE ++ [LF]) [ERASE_LINE; []])
     ++ ERASE_DOWN) = 3%nat.
Proof. reflexivity. Qed.

(* ------------------------------------------------------------------ *)
(** ** The frame store *)

Lemma check_frames_bad (items : list json) (k : nat) :
  Exists (fun x => is_JString x = false) items ->
  exists i x, nth_error items i = Some x /\ is_JString x = false /\
              check_frames k items = Raise (ValueError (FrameNotString (k + i))).
Proof.
  revert k. induction items as [|y r IH]; intros k Hex.
  - inversion Hex.
  - destruct (is_JString y) eqn:Hy.
    + assert (Hr : Exists (fun x => is_JString x = false) r)
        by (inversion Hex; subst; [congruence|assumption]).
      destruct (IH (S k) Hr) as [i [x [Hn [Hx Hc]]]].
      exists (S i), x. repeat split; auto.
      destruct y; try discriminate. cbn. rewrite Hc.
      replace (S k + i)%nat with (k + S i)%nat by lia. reflexivity.
    + exists 0%nat, y. rewrite Nat.add_0_r.
      destruct y; try discriminate; auto.
Qed.

Lemma check_frames_ok (items : list json) (k : nat) (fr : list str) :
  check_frames k items = Ok fr -> items = map JString fr.
Proof.
  revert k fr. induction items as [|y r IH]; intros k fr; cbn.
  - intros H; injection H as <-. reflexivity.
  - destruct y; try discriminate.
    destruct (check_frames (S k) r) as [rest|e] eqn:Hr; cbn; [|discriminate].
    intros H; injection H as <-. cbn. f_equal. eauto.
Qed.

(** What the body gives back is never the empty list. *)
Lemma load_json_frames_nonempty (w : world) (p : str) (fr : list str) :
  load_json_frames w p = Ok fr -> fr <> [].
Proof.
  unfold load_json_frames.
  destruct (isabs p); cbn; [|discriminate].
  destruct (path_exists w p); cbn; [|discriminate].
  destruct (json_load w p) as [data|e]; cbn; [|discriminate].
  destruct data as [| | | |items|]; try discriminate.
  destruct items as [|x r]; [discriminate|].
  intros H. apply check_frames_ok in H.
  destruct fr; [discriminate H|discriminate].
Qed.

Lemma cached_load_miss (w : world) (c : lru) (p : str) :
  cache_get p (entries c) = None ->
  cached_load w c p
  = match load_json_frames w p with
    | Raise e => (Raise e, counted_miss c)
    | Ok v =>
        (Ok v,
         {| entries :=
              (p, v) :: (if (maxsize <=? length (entries c))%nat
                         then removelast (entries c) else entries c);
            hits := hits c; misses := S (misses c) |})
    end.
Proof. intros H. unfold cached_load. rewrite H. reflexivity. Qed.

Lemma cached_load_raises (w : world) (c : lru) (p : str) (e : exn) :
  cache_get p (entries c) = None ->
  load_json_frames w p = Raise e ->
  cached_load w c p = (Raise e, counted_miss c).
Proof. intros Hc Hl. rewrite cached_load_miss, Hl by exact Hc. reflexivity. Qed.

(** C5 (as the code has it).  For an identifier that is not in the cache:
    a non-absolute one raises [ValueError] whether or not the location
    exists; an absolute one raises [FileNotFoundError] when the location does
    not exist, and [ValueError] when the decoded content is not a non-empty
    list or one of its elements is not a string.  After any failure the
    entries of the cache are what they were, only the miss is counted, and a
    later call with the same identifier runs the body again and raises
    again. *)
Theorem cached_load_failures (w : world) (c : lru) (p : str) :
  cache_get p (entries c) = None ->
  (isabs p = false ->
   cached_load w c p
   = (Raise (ValueError (MustBeAbsolute p)), counted_miss c)) /\
  (isabs p = true -> path_exists w p = false ->
   cached_load w c p
   = (Raise (FileNotFoundError (JsonNotFound p)), counted_miss c)) /\
  (forall data,
      isabs p = true -> path_exists w p = true -> json_load w p = Ok data ->
      nonempty_list data = false ->
      cached_load w c p = (Raise (ValueError NotAFrameList), counted_miss c)) /\
  (forall items,
      isabs p = true -> path_exists w p = true ->
      json_load w p = Ok (JArray items) ->
      Exists (fun x => is_JString x = false) items ->
      exists i x,
        nth_error items i = Some x /\ is_JString x = false /\
        cached_load w c p
        = (Raise (ValueError (FrameNotString i)), counted_miss c)) /\
  (forall e c1,
      cached_load w c p = (Raise e, c1) ->
      c1 = counted_miss c /\
      entries c1 = entries c /\
      cache_get p (entries c1) = None /\
      cached_load w c1 p = (Raise e, counted_miss c1) /\
      misses (counted_miss c1) = S (S (misses c))).
Proof.
  intros Hmiss. repeat split.
  - intros Habs. apply cached_load_raises; [exact Hmiss|].
    unfold load_json_frames. rewrite Habs. reflexivity.
  - intros Habs Hex. apply cached_load_raises; [exact Hmiss|].
    unfold load_json_frames. rewrite Habs, Hex. reflexivity.
  - intros data Habs Hex Hdata Hshape.
    apply cached_load_raises; [exact Hmiss|].
    unfold load_json_frames. rewrite Habs, Hex, Hdata. cbn.
    destruct data as [| | | |[|x r]|]; try reflexivity. discriminate.
  - intros items Habs Hex Hdata Hbad.
    destruct (check_frames_bad items 0 Hbad) as [i [x [Hn [Hx Hc]]]].
    exists i, x. repeat split; auto.
    apply cached_load_raises; [exact Hmiss|].
    unfold load_json_frames. rewrite Habs, Hex, Hdata. cbn.
    destruct items as [|y r]; [inversion Hbad|]. exact Hc.
  - rewrite cached_load_miss in H by exact Hmiss.
    destruct (load_json_frames w p); congruence.
  - rewrite cached_load_miss in H by exact Hmiss.
    destruct (load_json_frames w p); inversion H; reflexivity.
  - rewrite cached_load_miss in H by exact Hmiss.
    destruct (load_json_frames w p); inversion H; exact Hmiss.
  - rewrite cached_load_miss in H by exact Hmiss.
    destruct (load_json_frames w p) eqn:Hl; inversion H; subst.
    apply cached_load_raises; [exact Hmiss|exact Hl].
  - rewrite cached_load_miss in H by exact Hmiss.
    destruct (load_json_frames w p); inversion H; reflexivity.
Qed.

Lemma cached_load_failures_witness :
  cached_load (one_file (str_of "/srv/a.json") (JArray []))
              cache_empty (str_of "/srv/a.json")
  = (Raise (ValueError NotAFrameList), counted_miss cache_empty).
Proof.
  destruct (cached_load_failures
              (one_file (str_of "/srv/a.json") (JArray []))
              cache_empty (str_of "/srv/a.json") eq_refl)
    as [_ [_ [Hshape _]]].
  apply (Hshape (JArray [])); reflexivity.
Defined.

(** Two identifiers whose location does not exist and which do not raise
    [FileNotFoundError]: a relative one is refused with [ValueError]; one
    that is in the cache is served from it, although its file is gone. *)
Lemma cached_load_missing_counterexample :
  (path_exists empty_disk (str_of "frames.json") = false /\
   fst (cached_load empty_disk cache_empty (str_of "frames.json"))
   = Raise (ValueError (MustBeAbsolute (str_of "frames.json")))) /\
  (path_exists empty_disk (str_of "/srv/a.json") = false /\
   fst (cached_load empty_disk
          (snd (cached_load demo_disk cache_empty (str_of "/srv/a.json")))
          (str_of "/srv/a.json"))
   = Ok demo_frames).
Proof. repeat split. Qed.

Example load_json_frames_good :
  load_json_frames
    (one_file (str_of "/srv/a.json")
              (JArray [JString (str_of "one"); JString (str_of "two")]))
    (str_of "/srv/a.json")
  = Ok [str_of "one"; str_of "two"].
Proof. reflexivity. Qed.

Example load_json_frames_second_not_text :
  load_json_frames
    (one_file (str_of "/srv/a.json")
              (JArray [JString (str_of "one"); JNull]))
    (str_of "/srv/a.json")
  = Raise (ValueError (FrameNotString 1)).
Proof. reflexivity. Qed.

(* ------------------------------------------------------------------ *)
(** ** The cache *)

Lemma cache_get_none (k : str) (l : list (str * list str)) :
  cache_get k l = None <-> ~ In k (map fst l).
Proof.
  induction l as [|[k' v] r IH]; cbn; [tauto|].
  destruct (str_eq_dec k k') as [->|Hne].
  - split; [discriminate|]. intros H; exfalso; auto.
  - rewrite IH. split; [intros H [E|E]; auto|tauto].
Qed.

Lemma cache_get_in (k : str) (l : list (str * list str)) (v : list str) :
  cache_get k l = Some v -> In k (map fst l).
Proof.
  intros H. destruct (in_dec str_eq_dec k (map fst l)) as [Hin|Hout]; auto.
  apply cache_get_none in Hout. congruence.
Qed.

Lemma cache_get_middle (k : str) (v : list str) front back :
  ~ In k (map fst front) ->
  cache_get k (front ++ (k, v) :: back) = Some v.
Proof.
  induction front as [|[k' v'] r IH]; cbn; intros Hout.
  - destruct (str_eq_dec k k); congruence.
  - destruct (str_eq_dec k k') as [->|_]; [exfalso; auto|].
    apply IH. tauto.
Qed.

Lemma cache_del_app (k : str) (a b : list (str * list str)) :
  cache_del k (a ++ b) = cache_del k a ++ cache_del k b.
Proof.
  induction a as [|[k' v] r IH]; cbn; [reflexivity|].
  destruct (str_eq_dec k k'); rewrite IH; reflexivity.
Qed.

Lemma cache_del_keys (k x : str) (l : list (str * list str)) :
  In x (map fst (cache_del k l)) <-> In x (map fst l) /\ x <> k.
Proof.
  induction l as [|[k' v] r IH]; cbn; [tauto|].
  destruct (str_eq_dec k k') as [->|Hne]; cbn; rewrite IH.
  - split; [tauto|]. intros [[E|E] Hx]; [congruence|tauto].
  - split; [intros [E|E]; [subst; split; auto|tauto]|tauto].
Qed.

Lemma cache_del_NoDup (k : str) (l : list (str * list str)) :
  NoDup (map fst l) -> NoDup (map fst (cache_del k l)).
Proof.
  induction l as [|[k' v] r IH]; cbn; intros H; [constructor|].
  inversion H as [|? ? Hout Hr]; subst.
  destruct (str_eq_dec k k'); [auto|].
  cbn. constructor; [|auto].
  rewrite cache_del_keys. tauto.
Qed.

Lemma cache_del_length (k : str) (l : list (str * list str)) :
  (length (cache_del k l) <= length l)%nat /\
  (In k (map fst l) -> length (cache_del k l) < length l)%nat.
Proof.
  induction l as [|[k' v] r [IH1 IH2]]; cbn; [split; [lia|tauto]|].
  destruct (str_eq_dec k k') as [->|Hne]; cbn.
  - split; lia.
  - split; [lia|]. intros [E|E]; [congruence|]. specialize (IH2 E). lia.
Qed.

Lemma removelast_prefix {A} (l : list A) :
  l <> [] -> exists x, l = removelast l ++ [x].
Proof.
  intros H. destruct (exists_last H) as [front [x ->]].
  exists x. rewrite removelast_last. reflexivity.
Qed.

Lemma removelast_NoDup_keys (l : list (str * list str)) :
  NoDup (map fst l) -> NoDup (map fst (removelast l)).
Proof.
  destruct l as [|a r]; [auto|].
  destruct (removelast_prefix (a :: r)) as [x Hx]; [discriminate|].
  intros H. rewrite Hx, map_app in H.
  eapply NoDup_app_remove_r; eauto.
Qed.

Lemma removelast_keys_incl (l : list (str * list str)) :
  incl (map fst (removelast l)) (map fst l).
Proof.
  destruct l as [|a r]; [apply incl_refl|].
  destruct (removelast_prefix (a :: r)) as [x Hx]; [discriminate|].
  rewrite Hx at 2. rewrite map_app. apply incl_appl, incl_refl.
Qed.

Lemma removelast_length {A} (l : list A) :
  length (removelast l) = pred (length l).
Proof.
  destruct l as [|a r]; [reflexivity|].
  destruct (removelast_prefix (a :: r)) as [x Hx]; [discriminate|].
  rewrite Hx at 2. rewrite length_app. cbn [length]. lia.
Qed.

Lemma cached_load_hit (w : world) (c : lru) (p : str) (v : list str) :
  cache_get p (entries c) = Some v ->
  cached_load w c p
  = (Ok v, {| entries := (p, v) :: cache_del p (entries c);
              hits := S (hits c); misses := misses c |}).
Proof. intros H. unfold cached_load. rewrite H. reflexivity. Qed.

(** Every call leaves a well-formed cache well formed: the bound holds. *)
Lemma cached_load_ok (w : world) (c : lru) (p : str) :
  cache_ok c -> cache_ok (snd (cached_load w c p)).
Proof.
  intros [Hnd Hlen]. unfold cache_ok, keys in *.
  destruct (cache_get p (entries c)) as [v|] eqn:Hget.
  - rewrite (cached_load_hit w c p v Hget). cbn [snd entries map fst].
    split.
    + constructor; [rewrite cache_del_keys; tauto|].
      apply cache_del_NoDup, Hnd.
    + apply cache_get_in in Hget.
      destruct (cache_del_length p (entries c)) as [_ Hlt].
      specialize (Hlt Hget). cbn [length]. lia.
  - rewrite (cached_load_miss w c p Hget).
    apply cache_get_none in Hget.
    destruct (load_json_frames w p) as [v|e]; cbn [snd entries map fst];
      [|auto].
    destruct (Nat.leb_spec maxsize (length (entries c))) as [Hfull|Hroom].
    + split.
      * constructor; [|apply removelast_NoDup_keys, Hnd].
        intros Hin. apply removelast_keys_incl in Hin. auto.
      * cbn [length]. rewrite removelast_length. unfold maxsize in *. lia.
    + split; [constructor; assumption|cbn [length]; lia].
Qed.

Lemma cached_loads_ok (calls : list (world * str)) (c : lru) :
  cache_ok c -> cache_ok (snd (cached_loads c calls)).
Proof.
  revert c. induction calls as [|[w p] r IH]; intros c Hc; cbn; [exact Hc|].
  pose proof (cached_load_ok w c p Hc) as H1.
  destruct (cached_load w c p) as [x c1].
  specialize (IH c1 H1). destruct (cached_loads c1 r) as [xs c2].
  exact IH.
Qed.

Lemma cached_load_stores (w : world) (c c1 : lru) (p : str) (v : list str) :
  cached_load w c p = (Ok v, c1) ->
  exists back, entries c1 = (p, v) :: back.
Proof.
  unfold cached_load.
  destruct (cache_get p (entries c)) as [u|].
  - intros H; inversion H; subst. eexists. reflexivity.
  - destruct (load_json_frames w p) as [u|e]; intros H; inversion H; subst.
    eexists. reflexivity.
Qed.

Lemma cache_get_some (k : str) (l : list (str * list str)) (v : list str) :
  cache_get k l = Some v -> In (k, v) l.
Proof.
  induction l as [|[k' v'] r IH]; cbn; [discriminate|].
  destruct (str_eq_dec k k') as [->|_]; [|auto].
  intros H; injection H as ->. auto.
Qed.

Lemma cache_del_incl (k : str) (l : list (str * list str)) :
  incl (cache_del k l) l.
Proof.
  induction l as [|[k' v'] r IH]; cbn; [apply incl_refl|].
  destruct (str_eq_dec k k').
  - apply incl_tl, IH.
  - apply incl_cons; [left; reflexivity|apply incl_tl, IH].
Qed.

Lemma removelast_incl {A} (l : list A) : incl (removelast l) l.
Proof.
  destruct l as [|a r]; [apply incl_refl|].
  destruct (removelast_prefix (a :: r)) as [x Hx]; [discriminate|].
  rewrite Hx at 2. apply incl_appl, incl_refl.
Qed.

(** A load that succeeds gives at least one frame, from the source or from
    a cache filled by such loads; so the loop of the stream always has a
    frame to show. *)
Lemma cached_load_nonempty (w : world) (c c1 : lru) (p : str)
  (fr : list str) :
  cache_sound c ->
  cached_load w c p = (Ok fr, c1) ->
  fr <> [] /\ cache_sound c1.
Proof.
  unfold cache_sound. intros Hc. rewrite Forall_forall in Hc.
  destruct (cache_get p (entries c)) as [v|] eqn:Hget.
  - rewrite (cached_load_hit w c p v Hget).
    intros H; injection H as <- <-. cbn [entries].
    apply cache_get_some in Hget.
    split; [apply (Hc _ Hget)|].
    constructor; [apply (Hc _ Hget)|].
    apply Forall_forall. intros kv Hkv. apply Hc.
    eapply cache_del_incl, Hkv.
  - rewrite (cached_load_miss w c p Hget).
    destruct (load_json_frames w p) as [v|e] eqn:Hl; [|discriminate].
    apply load_json_frames_nonempty in Hl.
    destruct (Nat.leb_spec maxsize (length (entries c))) as [Hfull|Hroom];
      intros H; injection H as <- <-; cbn [entries];
      (split; [exact Hl|]); (constructor; [exact Hl|]);
      apply Forall_forall; intros kv Hkv; apply Hc.
    + eapply removelast_incl, Hkv.
    + exact Hkv.
Qed.

Section Window.

Variables (p : str) (v : list str) (others : list str).
Hypothesis others_few : (length others < maxsize)%nat.
Hypothesis others_other : ~ In p others.

Lemma held_get (c : lru) : held p v others c ->
  cache_get p (entries c) = Some v.
Proof.
  intros [[Hnd _] [front [back [He _]]]].
  unfold keys in Hnd. rewrite He, map_app in *. cbn [map fst] in Hnd.
  apply NoDup_remove_2 in Hnd.
  apply cache_get_middle. intros Hin. apply Hnd, in_or_app. auto.
Qed.

Lemma held_step (w : world) (c : lru) (q : str) :
  held p v others c ->
  q = p \/ In q others ->
  held p v others (snd (cached_load w c q)) /\
  (q = p -> fst (cached_load w c q) = Ok v /\
            misses (snd (cached_load w c q)) = misses c) /\
  (misses (snd (cached_load w c q)) <= S (misses c))%nat.
Proof.
  intros Hheld Hq.
  pose proof (held_get c Hheld) as Hget.
  destruct Hheld as [Hok [front [back [He Hincl]]]].
  pose proof (cached_load_ok w c q Hok) as Hok'.
  destruct (str_eq_dec q p) as [->|Hne].
  - rewrite (cached_load_hit w c p v Hget) in *. cbn [fst snd misses].
    split; [|split; [auto|lia]].
    split; [exact Hok'|].
    exists [], (cache_del p (entries c)). split; [reflexivity|].
    intros x [].
  - destruct Hq as [Hq|Hq]; [congruence|].
    split; [split; [exact Hok'|]|split; [congruence|]].
    + destruct (cache_get q (entries c)) as [u|] eqn:Hgq.
      * rewrite (cached_load_hit w c q u Hgq). cbn [snd entries].
        exists ((q, u) :: cache_del q front), (cache_del q back).
        split.
        -- rewrite He, cache_del_app. cbn [cache_del].
           destruct (str_eq_dec q p); [congruence|]. reflexivity.
        -- intros x [<-|Hx]; [exact Hq|].
           apply cache_del_keys in Hx. apply Hincl. tauto.
      * rewrite (cached_load_miss w c q Hgq).
        destruct (load_json_frames w q) as [u|e]; cbn [snd entries].
        2:{ exists front, back. auto. }
        destruct (Nat.leb_spec maxsize (length (entries c)))
          as [Hfull|Hroom].
        2:{ exists ((q, u) :: front), back. split; [rewrite He; reflexivity|].
            intros x [<-|Hx]; auto. }
        destruct back as [|b back'].
        -- exfalso.
           apply cache_get_none in Hgq.
           destruct Hok as [Hnd _]. unfold keys in Hnd.
           rewrite He, map_app in Hnd, Hgq.
           apply NoDup_app_remove_r in Hnd.
           assert (Hlen : (length (q :: map fst front) <= length others)%nat).
           { apply NoDup_incl_length.
             - constructor; [|exact Hnd].
               intros Hin. apply Hgq, in_or_app. auto.
             - intros x [<-|Hx]; auto. }
           rewrite He, length_app in Hfull.
           cbn [length] in Hlen, Hfull. rewrite length_map in Hlen. lia.
        -- exists ((q, u) :: front), (removelast (b :: back')).
           split; [|intros x [<-|Hx]; auto].
           rewrite He, removelast_app by discriminate. reflexivity.
    + destruct (cache_get q (entries c)) as [u|] eqn:Hgq.
      * rewrite (cached_load_hit w c q u Hgq). cbn. lia.
      * rewrite (cached_load_miss w c q Hgq).
        destruct (load_json_frames w q); cbn; lia.
Qed.

Lemma held_loads (calls : list (world * str)) (c : lru) :
  held p v others c ->
  Forall (fun call => snd call = p \/ In (snd call) others) calls ->
  held p v others (snd (cached_loads c calls)) /\
  Forall2 (fun call x => snd call = p -> x = Ok v)
          calls (fst (cached_loads c calls)) /\
  (misses (snd (cached_loads c calls))
   <= misses c + calls_elsewhere p calls)%nat.
Proof.
  revert c. induction calls as [|[w q] r IH]; intros c Hc Hcalls.
  - cbn [cached_loads fst snd].
    split; [exact Hc|split; [constructor|]].
    unfold calls_elsewhere. cbn [filter length]. lia.
  - inversion Hcalls as [|? ? Hq Hr]; subst. cbn [snd] in Hq.
    destruct (held_step w c q Hc Hq) as [H1 [H2 H3]].
    cbn [cached_loads].
    destruct (cached_load w c q) as [x c1]. cbn [fst snd] in *.
    destruct (IH c1 H1 Hr) as [I1 [I2 I3]].
    destruct (cached_loads c1 r) as [xs c2]. cbn [fst snd] in *.
    split; [exact I1|]. split.
    + constructor; [|exact I2]. cbn [snd]. intros E. apply H2, E.
    + unfold calls_elsewhere in *. cbn [filter snd].
      unfold str_eqb at 1.
      destruct (str_eq_dec q p) as [E|E]; cbn [negb length].
      * destruct (H2 E) as [_ Hm]. lia.
      * lia.
Qed.

End Window.

(** C9.  Once a load of [p] has returned [v], [v] is in the cache: a call
    for [p] returns it whatever the source now holds and without running the
    body (no miss is counted), and so does every call for [p] in a series
    that uses fewer than 32 other keys; misses only grow with calls for other
    keys.  The cache never holds more than [maxsize = 32] entries, and a new
    entry put into a full cache takes the place of the one used least
    recently, the last of the list. *)
Theorem cached_load_memoized
  (w : world) (c c1 : lru) (p : str) (v : list str)
  (others : list str) (calls : list (world * str)) :
  cache_ok c ->
  cached_load w c p = (Ok v, c1) ->
  (length others < maxsize)%nat -> ~ In p others ->
  Forall (fun call => snd call = p \/ In (snd call) others) calls ->
  maxsize = 32%nat /\
  cache_get p (entries c1) = Some v /\
  (forall w', fst (cached_load w' c1 p) = Ok v /\
              misses (snd (cached_load w' c1 p)) = misses c1) /\
  Forall2 (fun call x => snd call = p -> x = Ok v)
          calls (fst (cached_loads c1 calls)) /\
  (misses (snd (cached_loads c1 calls))
   <= misses c1 + calls_elsewhere p calls)%nat /\
  cache_get p (entries (snd (cached_loads c1 calls))) = Some v /\
  (length (entries c1) <= maxsize)%nat /\
  (length (entries (snd (cached_loads c1 calls))) <= maxsize)%nat /\
  (cache_get p (entries c) = None ->
   (maxsize <= length (entries c))%nat ->
   entries c1 = (p, v) :: removelast (entries c)).
Proof.
  intros Hok Hload Hfew Hother Hcalls.
  assert (Hok1 : cache_ok c1).
  { pose proof (cached_load_ok w c p Hok) as H. rewrite Hload in H. exact H. }
  assert (Hheld : held p v others c1).
  { split; [exact Hok1|].
    destruct (cached_load_stores w c c1 p v Hload) as [back Hb].
    exists [], back. split; [exact Hb|]. intros x []. }
  pose proof (held_get p v others c1 Hheld) as Hget.
  destruct (held_loads p v others Hfew Hother calls c1 Hheld Hcalls)
    as [H1 [H2 H3]].
  split; [reflexivity|]. split; [exact Hget|]. split.
  { intros w'. rewrite (cached_load_hit w' c1 p v Hget). auto. }
  split; [exact H2|]. split; [exact H3|]. split.
  { apply (held_get p v others), H1. }
  split; [apply Hok1|]. split; [apply H1|].
  intros Hmiss Hfull. rewrite (cached_load_miss w c p Hmiss) in Hload.
  destruct (load_json_frames w p); [|discriminate].
  apply Nat.leb_le in Hfull. rewrite Hfull in Hload.
  inversion Hload; subst. reflexivity.
Qed.

Lemma cached_load_memoized_witness :
  fst (cached_loads
         (snd (cached_load
                 (one_file (str_of "/srv/a.json") (JArray [JString (str_of "f")]))
                 cache_empty (str_of "/srv/a.json")))
         [(empty_disk, str_of "/srv/b.json");
          (empty_disk, str_of "/srv/a.json")])
  = [Raise (FileNotFoundError (JsonNotFound (str_of "/srv/b.json")));
     Ok [str_of "f"]].
Proof.
  pose proof (cached_load_memoized
                (one_file (str_of "/srv/a.json") (JArray [JString (str_of "f")]))
                cache_empty
                {| entries := [(str_of "/srv/a.json", [str_of "f"])];
                   hits := 0; misses := 1 |}
                (str_of "/srv/a.json") [str_of "f"]
                [str_of "/srv/b.json"]
                [(empty_disk, str_of "/srv/b.json");
                 (empty_disk, str_of "/srv/a.json")]) as H.
  destruct H as [_ [_ [_ [Hcalls _]]]].
  - split; [constructor|cbn; unfold maxsize; lia].
  - reflexivity.
  - cbn; unfold maxsize; lia.
  - intros [E|[]]. vm_compute in E. discriminate E.
  - constructor; [right; left; reflexivity|].
    constructor; [left; reflexivity|constructor].
  - reflexivity.
Defined.

(** The bound at work: after thirty-two other sources, the first one has
    left the cache, and a call for it reads the source again. *)
Example cached_load_evicts :
  let c1 := snd (cached_load full_disk cache_empty (str_of "/srv/a.json")) in
  let c2 := snd (cached_loads c1 (map (fun q => (full_disk, q)) other_paths)) in
  cache_get (str_of "/srv/a.json") (entries c1) = Some [str_of "/srv/a.json"] /\
  length (entries c2) = 32%nat /\
  cache_get (str_of "/srv/a.json") (entries c2) = None /\
  fst (cached_load empty_disk c2 (str_of "/srv/a.json"))
  = Raise (FileNotFoundError (JsonNotFound (str_of "/srv/a.json"))).
Proof. vm_compute. repeat split. Qed.
(* ------------------------------------------------------------------ *)
(** ** The stream *)

Lemma succ_mod (j n : nat) :
  n <> 0%nat ->
  (S j mod n)%nat
  = if (S (j mod n) <? n)%nat then S (j mod n) else 0%nat.
Proof.
  intros Hn.
  pose proof (Nat.div_mod_eq j n) as Hj.
  pose proof (Nat.mod_upper_bound j n Hn) as Hlt.
  destruct (Nat.ltb_spec (S (j mod n)) n) as [H|H]; symmetry.
  - apply Nat.mod_unique with (q := (j / n)%nat); lia.
  - apply Nat.mod_unique with (q := S (j / n)); lia.
Qed.

Lemma run_app cp w st evs1 evs2 :
  run cp w st (evs1 ++ evs2)
  = let '(st1, os1) := run cp w st evs1 in
    let '(st2, os2) := run cp w st1 evs2 in
    (st2, os1 ++ os2).
Proof.
  revert st. induction evs1 as [|ev r IH]; intros st; cbn [app run].
  - destruct (run cp w st evs2). reflexivity.
  - destruct (step cp w st ev) as [st1 o]. rewrite IH.
    destruct (run cp w st1 r) as [st2 os].
    destruct (run cp w st2 evs2). reflexivity.
Qed.

Lemma emitted_app os1 os2 : emitted (os1 ++ os2) = emitted os1 ++ emitted os2.
Proof. unfold emitted. apply flat_map_app. Qed.

Lemma emitted_cons (o : outcome) (os : list outcome) :
  emitted (o :: os) = emitted [o] ++ emitted os.
Proof. apply (emitted_app [o] os). Qed.

Lemma step_started cp w c g ev :
  (forall rq, g <> Created rq) ->
  step cp w (c, g) ev = ((c, fst (react cp g ev)), snd (react cp g ev)).
Proof.
  intros H. unfold step.
  destruct g; try (destruct (react cp _ ev); reflexivity).
  exfalso. eapply H. reflexivity.
Qed.

(** One step, then the rest. *)
Lemma run_cons cp w c g ev evs :
  (forall rq, g <> Created rq) ->
  run cp w (c, g) (ev :: evs)
  = (fst (run cp w (c, fst (react cp g ev)) evs),
     snd (react cp g ev) :: snd (run cp w (c, fst (react cp g ev)) evs)).
Proof.
  intros H. cbn [run]. rewrite step_started by exact H.
  destruct (run cp w (c, fst (react cp g ev)) evs). reflexivity.
Qed.

(** *** Encoding *)

Lemma encode_inv (s : str) (b : bytes) : encode s = Ok b -> b = utf8 s.
Proof.
  unfold encode. destruct (existsb is_surrogate s); [discriminate|].
  intros H. injection H as <-. reflexivity.
Qed.

Lemma encode_raises (s : str) (e : exn) :
  encode s = Raise e ->
  e = UnicodeEncodeError /\ exists c, In c s /\ is_surrogate c = true.
Proof.
  unfold encode. destruct (existsb is_surrogate s) eqn:E; [|discriminate].
  intros H. injection H as <-. split; [reflexivity|].
  apply existsb_exists in E. exact E.
Qed.

(** The setup and teardown sequences are plain ASCII: they always encode. *)
Lemma encode_start (alt : bool) :
  encode (start_sequence alt) = Ok (utf8 (start_sequence alt)).
Proof. destruct alt; reflexivity. Qed.

Lemma encode_end (alt : bool) :
  encode (end_sequence alt) = Ok (utf8 (end_sequence alt)).
Proof. destruct alt; reflexivity. Qed.

Lemma prologue_fields (rq : request) (fr : list str) :
  frames (prologue rq fr) = fr /\
  start (prologue rq fr) = start_sequence (alt_screen rq) /\
  end_ (prologue rq fr) = end_sequence (alt_screen rq).
Proof.
  unfold prologue.
  destruct (str_eqb (banner_kind rq) (str_of "big")); repeat split.
Qed.

Lemma prologue_session (rq : request) (fr : list str) :
  session_of (alt_screen rq) (prologue rq fr).
Proof. destruct (prologue_fields rq fr) as [_ H]. exact H. Qed.

(** *** Telling the buffers apart

    A frame buffer differs from the start and from the end at its third
    character, and these two differ from each other, so none can be taken
    for another. *)
Lemma third_char_start (alt : bool) :
  nth_error (start_sequence alt) 2 <> Some 72%N.
Proof. destruct alt; cbn; discriminate. Qed.

Lemma third_char_end (alt : bool) :
  nth_error (end_sequence alt) 2 = Some 63%N.
Proof. destruct alt; reflexivity. Qed.

Lemma composed_inv cp (l : locals) (i : nat) (tick : Z) (b : bytes) :
  composed cp l i tick = Ok b ->
  exists content,
    render_frame_with_banner cp (nth i (frames l) [])
      (view (banner_template l) (banner_width l) tick) (color l)
    = Ok content /\
    b = utf8 (HOME ++ content).
Proof.
  unfold composed.
  destruct (render_frame_with_banner cp _ _ _) as [content|e];
    [|discriminate].
  cbn [bind]. intros H. exists content.
  split; [reflexivity|apply encode_inv; exact H].
Qed.

Lemma composed_not_start cp (l : locals) (i : nat) (tick : Z) (alt : bool)
  (b : bytes) :
  composed cp l i tick = Ok b -> b <> utf8 (start_sequence alt).
Proof.
  intros H E. apply composed_inv in H as [content [_ ->]].
  injection E as E.
  apply (f_equal (fun s => nth_error s 2)) in E. cbv beta in E.
  apply (third_char_start alt). rewrite <- E. reflexivity.
Qed.

Lemma composed_not_end cp (l : locals) (i : nat) (tick : Z) (alt : bool)
  (b : bytes) :
  composed cp l i tick = Ok b -> b <> utf8 (end_sequence alt).
Proof.
  intros H E. apply composed_inv in H as [content [_ ->]].
  injection E as E.
  apply (f_equal (fun s => nth_error s 2)) in E. cbv beta in E.
  rewrite third_char_end in E. cbn [nth_error] in E. discriminate E.
Qed.

Lemma start_not_end (alt alt' : bool) :
  utf8 (start_sequence alt) <> utf8 (end_sequence alt').
Proof.
  intros H. injection H as H.
  destruct alt, alt'; vm_compute in H; discriminate H.
Qed.

Lemma times_cons_same (b : bytes) (bs : list bytes) :
  times b (b :: bs) = S (times b bs).
Proof. unfold times. apply count_occ_cons_eq. reflexivity. Qed.

Lemma times_cons_other (b x : bytes) (bs : list bytes) :
  x <> b -> times b (x :: bs) = times b bs.
Proof. unfold times. apply count_occ_cons_neq. Qed.

Lemma times_app (b : bytes) (xs ys : list bytes) :
  times b (xs ++ ys) = (times b xs + times b ys)%nat.
Proof. unfold times. apply count_occ_app. Qed.

(** Buffers of cycles are neither the setup nor the teardown sequence. *)
Lemma times_cycles_start cp (l : locals) (alt : bool) (from count : nat)
  (bs : list bytes) :
  map Ok bs = cycles cp l from count ->
  times (utf8 (start_sequence alt)) bs = 0%nat.
Proof.
  unfold cycles. revert bs.
  induction (seq from count) as [|j r IH]; intros bs H.
  - destruct bs; [reflexivity|discriminate H].
  - destruct bs as [|b bs]; [discriminate H|].
    cbn [map] in H. injection H as Hb Hbs.
    rewrite times_cons_other; [apply IH; exact Hbs|].
    eapply composed_not_start. symmetry. exact Hb.
Qed.

Lemma times_cycles_end cp (l : locals) (alt : bool) (from count : nat)
  (bs : list bytes) :
  map Ok bs = cycles cp l from count ->
  times (utf8 (end_sequence alt)) bs = 0%nat.
Proof.
  unfold cycles. revert bs.
  induction (seq from count) as [|j r IH]; intros bs H.
  - destruct bs; [reflexivity|discriminate H].
  - destruct bs as [|b bs]; [discriminate H|].
    cbn [map] in H. injection H as Hb Hbs.
    rewrite times_cons_other; [apply IH; exact Hbs|].
    eapply composed_not_end. symmetry. exact Hb.
Qed.

Lemma cycles_succ cp (l : locals) (from count : nat) :
  cycles cp l from (S count)
  = buffer cp l from :: cycles cp l (S from) count.
Proof. reflexivity. Qed.

Lemma cycles_app cp (l : locals) (from a b : nat) :
  cycles cp l from (a + b)
  = cycles cp l from a ++ cycles cp l (from + a) b.
Proof. unfold cycles. rewrite seq_app, map_app. reflexivity. Qed.

(** *** A generator that has left the loop *)

Lemma run_closed_all cp (w : world) (c : lru) (evs : list event) :
  run cp w (c, Closed) evs = ((c, Closed), repeat Exhausted (length evs)).
Proof.
  induction evs as [|ev r IH]; [reflexivity|].
  rewrite run_cons by discriminate. cbn [react fst snd length repeat].
  rewrite IH. reflexivity.
Qed.

Lemma emitted_exhausted (n : nat) : emitted (repeat Exhausted n) = [].
Proof. induction n as [|n IH]; [reflexivity|exact IH]. Qed.

Lemma run_spinning cp (w : world) (c : lru) (evs : list event) :
  run cp w (c, Spinning) evs = ((c, Spinning), repeat Diverged (length evs)).
Proof.
  induction evs as [|ev r IH]; [reflexivity|].
  rewrite run_cons by discriminate. cbn [react fst snd length repeat].
  rewrite IH. reflexivity.
Qed.

Lemma emitted_diverged (n : nat) : emitted (repeat Diverged n) = [].
Proof. induction n as [|n IH]; [reflexivity|exact IH]. Qed.

Lemma finish_closed (pending : option exn) :
  fst (finish pending) = Closed /\ emitted [snd (finish pending)] = []
  /\ snd (finish pending) <> Diverged.
Proof. destruct pending; repeat split; discriminate. Qed.

Lemma react_past_loop cp (g : gen) (ev : event) :
  past_loop g ->
  past_loop (fst (react cp g ev)) /\
  emitted [snd (react cp g ev)] = [] /\
  snd (react cp g ev) <> Diverged.
Proof.
  destruct g as [rq|l|l i t|l i t|l p|l| |]; cbn [past_loop];
    try contradiction; intros _; destruct ev as [|e|]; cbn [react];
    try (repeat split; discriminate);
    try (destruct (finish_closed p) as [-> [H1 H2]]; repeat split; assumption).
  destruct (is_Exception e).
  - destruct (finish_closed p) as [-> [H1 H2]]. repeat split; assumption.
  - repeat split; discriminate.
Qed.

(** After the loop nothing more is emitted. *)
Lemma run_past_loop cp (w : world) (evs : list event) (c : lru) (g : gen) :
  past_loop g ->
  past_loop (snd (fst (run cp w (c, g) evs))) /\
  emitted (snd (run cp w (c, g) evs)) = [] /\
  ~ In Diverged (snd (run cp w (c, g) evs)).
Proof.
  revert g. induction evs as [|ev r IH]; intros g Hg.
  - cbn. auto.
  - rewrite run_cons by (intros rq ->; destruct Hg). cbn [fst snd].
    destruct (react_past_loop cp g ev Hg) as [H1 [H2 H3]].
    destruct (IH _ H1) as [IH1 [IH2 IH3]].
    split; [exact IH1|]. split.
    + rewrite emitted_cons, H2, IH2. reflexivity.
    + intros [E|Hin]; [congruence|auto].
Qed.

(** At [yield end] any event ends the generator. *)
Lemma react_at_end cp (l : locals) (pending : option exn) (ev : event) :
  fst (react cp (AtYieldEnd l pending) ev) = Closed.
Proof.
  destruct ev as [|e|]; cbn [react]; try (destruct pending; reflexivity).
  destruct (is_Exception e); [destruct pending|]; reflexivity.
Qed.

Lemma run_at_end cp (w : world) (c : lru) (l : locals)
  (pending : option exn) (ev : event) (evs : list event) :
  fst (run cp w (c, AtYieldEnd l pending) (ev :: evs)) = (c, Closed).
Proof.
  rewrite run_cons by discriminate. cbn [fst].
  rewrite react_at_end, run_closed_all. reflexivity.
Qed.
(** *** Inside the loop *)

Section Loop.

Variable console_print : str -> result str.
Variable w : world.
Variable alt : bool.
Variable l : locals.
Hypothesis l_session : session_of alt l.

Lemma teardown_eq (pending : option exn) :
  teardown l pending = (AtYieldEnd l pending, Yielded (utf8 (end_ l))).
Proof.
  unfold teardown. destruct l_session as [_ E].
  rewrite E, encode_end. reflexivity.
Qed.

Lemma unwind_eq (e : exn) :
  unwind l e = (AtYieldEnd l (pending_after e), Yielded (utf8 (end_ l))).
Proof. unfold unwind. apply teardown_eq. Qed.

Lemma close_in_try_eq :
  close_in_try l = (Closing l, Raised (PyRuntimeError IGNORED_EXIT)).
Proof.
  unfold close_in_try. destruct l_session as [_ E].
  rewrite E, encode_end. reflexivity.
Qed.

Lemma first_yield_eq :
  first_yield l = (AtYieldStart l, Yielded (utf8 (start l))).
Proof.
  unfold first_yield. destruct l_session as [E _].
  rewrite E, encode_start. reflexivity.
Qed.

(** The loop body yields the buffer of its cycle, or goes to the teardown
    with the exception that composing or encoding the buffer raised. *)
Lemma loop_body_eq (i : nat) (tick : Z) :
  (i < length (frames l))%nat ->
  loop_body console_print l i tick
  = match composed console_print l i tick with
    | Ok b => (AtYieldFrame l i (tick + 1), Yielded b)
    | Raise e => (AtYieldEnd l (pending_after e), Yielded (utf8 (end_ l)))
    end.
Proof.
  intros Hi. unfold loop_body, getitem, composed, view.
  rewrite shift_lines_eq. cbn [bind].
  destruct (nth_error (frames l) i) as [f|] eqn:Hf.
  - cbn [bind]. rewrite (nth_error_nth _ _ _ Hf).
    destruct (render_frame_with_banner console_print f _ (color l))
      as [content|e]; cbn [bind]; [|apply unwind_eq].
    destruct (encode (HOME ++ content)) as [b|e]; [reflexivity|].
    apply unwind_eq.
  - apply nth_error_None in Hf. lia.
Qed.

Lemma frames_length : frames l <> [] -> length (frames l) <> 0%nat.
Proof. destruct (frames l); [congruence|discriminate]. Qed.

Lemma enter_loop_cases :
  (frames l = [] /\ enter_loop console_print l = (Spinning, Diverged))
  \/ (frames l <> [] /\
      enter_loop console_print l = loop_body console_print l 0 0).
Proof.
  unfold enter_loop. destruct (frames l) as [|f fs] eqn:E.
  - left. auto.
  - right. split; [discriminate|reflexivity].
Qed.

Lemma next_turn_eq (j : nat) (tick : Z) :
  frames l <> [] ->
  next_turn console_print l (j mod length (frames l)) tick
  = loop_body console_print l (S j mod length (frames l)) tick.
Proof.
  intros Hne. unfold next_turn.
  rewrite (succ_mod j _ (frames_length Hne)).
  destruct (S (j mod length (frames l)) <? length (frames l))%nat;
    reflexivity.
Qed.

Lemma loop_body_step (k : nat) :
  frames l <> [] ->
  loop_step console_print l k Resume
    (fst (loop_body console_print l (k mod length (frames l)) (Z.of_nat k)))
    (snd (loop_body console_print l (k mod length (frames l)) (Z.of_nat k))).
Proof.
  intros Hne.
  rewrite loop_body_eq
    by (apply Nat.mod_upper_bound, frames_length; exact Hne).
  destruct (composed console_print l _ (Z.of_nat k)) as [b|e] eqn:E;
    cbn [fst snd].
  - apply step_frame; [|reflexivity|exact E].
    cbn [looping]. split; [reflexivity|]. split; [exact Hne|].
    exists k. repeat split. lia.
  - apply step_teardown; [reflexivity|discriminate|].
    intros _. exists e. split; [exact E|reflexivity].
Qed.

(** Every step taken inside the loop ends in one of the five ways. *)
Lemma react_looping (k : nat) (g : gen) (ev : event) :
  looping l k g ->
  loop_step console_print l k ev
    (fst (react console_print g ev)) (snd (react console_print g ev)).
Proof.
  intros Hg.
  assert (Hthrow : forall e,
             loop_step console_print l k (Throw e)
               (fst (unwind l e)) (snd (unwind l e))).
  { intros e. rewrite unwind_eq. cbn [fst snd].
    apply step_teardown; [reflexivity| |discriminate].
    intros e' H. injection H as <-. reflexivity. }
  assert (Hclose : loop_step console_print l k Close
                     (fst (close_in_try l)) (snd (close_in_try l))).
  { rewrite close_in_try_eq. apply step_refused. reflexivity. }
  destruct g as [rq|l'|l' i tick|l' i tick|l' p|l'| |];
    cbn [looping] in Hg; try contradiction.
  - destruct Hg as [-> ->].
    destruct ev as [|e|]; cbn [react]; [|apply Hthrow|apply Hclose].
    destruct enter_loop_cases as [[Hnil ->]|[Hne ->]].
    + apply step_spin; [reflexivity|exact Hnil].
    + pose proof (loop_body_step 0 Hne) as H.
      rewrite Nat.Div0.mod_0_l in H. exact H.
  - destruct Hg as [-> [Hne [j [-> [-> ->]]]]].
    destruct ev as [|e|]; cbn [react]; [|apply Hthrow|apply Hclose].
    cbn [fst snd]. apply step_stay; try reflexivity; [|discriminate].
    cbn [looping]. split; [reflexivity|]. split; [exact Hne|].
    exists j. auto.
  - destruct Hg as [-> [Hne [j [-> [-> ->]]]]].
    destruct ev as [|e|]; cbn [react]; [|apply Hthrow|].
    + rewrite next_turn_eq by exact Hne. apply loop_body_step. exact Hne.
    + cbn [fst snd]. apply step_stay; try reflexivity; [|discriminate].
      cbn [looping]. split; [reflexivity|]. split; [exact Hne|].
      exists j. auto.
Qed.

Lemma looping_started (k : nat) (g : gen) :
  looping l k g -> forall rq, g <> Created rq.
Proof. intros H rq ->. exact H. Qed.

(** What a session emits from inside the loop: the buffers of the next
    cycles, in order, then the teardown or nothing. *)
Lemma run_order (evs : list event) (c : lru) (k : nat) (g : gen) :
  looping l k g ->
  exists m bs tail,
    emitted (snd (run console_print w (c, g) evs)) = bs ++ tail /\
    map Ok bs = cycles console_print l k m /\
    (tail = [] \/ tail = [utf8 (end_ l)]).
Proof.
  revert k g. induction evs as [|ev r IH]; intros k g Hg.
  { exists 0%nat, [], []. auto. }
  rewrite run_cons by (eapply looping_started; exact Hg). cbn [snd].
  pose proof (react_looping k g ev Hg) as Hstep.
  destruct (react console_print g ev) as [g' o]. cbn [fst snd] in *.
  rewrite emitted_cons.
  inversion Hstep as [g1 o1 Hg' Ho _ _| g1 b Hg' _ Hb| p _ _ _| _| _ _];
    subst.
  - destruct (IH k g' Hg') as [m [bs [tail [E [Hbs Ht]]]]].
    exists m, bs, tail. rewrite Ho, E. auto.
  - destruct (IH (S k) g' Hg') as [m [bs [tail [E [Hbs Ht]]]]].
    exists (S m), (b :: bs), tail. rewrite E. split; [reflexivity|].
    split; [|exact Ht]. rewrite cycles_succ. cbn [map].
    rewrite Hb, Hbs. reflexivity.
  - exists 0%nat, [], [utf8 (end_ l)].
    destruct (run_past_loop console_print w r c (AtYieldEnd l p) I)
      as [_ [E _]].
    rewrite E. auto.
  - exists 0%nat, [], [].
    destruct (run_past_loop console_print w r c (Closing l) I)
      as [_ [E _]].
    rewrite E. auto.
  - exists 0%nat, [], [].
    rewrite run_spinning. cbn [snd]. rewrite emitted_diverged. auto.
Qed.

(** With frames to show, no step of the loop runs without an end. *)
Lemma run_loop_ends (evs : list event) (c : lru) (k : nat) (g : gen) :
  looping l k g -> frames l <> [] ->
  ~ In Diverged (snd (run console_print w (c, g) evs)).
Proof.
  revert k g. induction evs as [|ev r IH]; intros k g Hg Hne; [intros []|].
  rewrite run_cons by (eapply looping_started; exact Hg). cbn [snd].
  pose proof (react_looping k g ev Hg) as Hstep.
  destruct (react console_print g ev) as [g' o]. cbn [fst snd] in *.
  inversion Hstep as [g1 o1 Hg' _ Ho _| g1 b Hg' _ _| p _ _ _| _| _ Hnil];
    subst.
  - intros [E|Hin]; [congruence|]. revert Hin. eapply IH; eassumption.
  - intros [E|Hin]; [discriminate E|]. revert Hin. eapply IH; eassumption.
  - intros [E|Hin]; [discriminate E|]. revert Hin.
    apply (run_past_loop console_print w r c (AtYieldEnd l p) I).
  - intros [E|Hin]; [discriminate E|]. revert Hin.
    apply (run_past_loop console_print w r c (Closing l) I).
  - congruence.
Qed.

(** A session that is not closed with [aclose()]: the teardown is handed
    out at most once; once as soon as an exception is raised at a
    suspension point; once, and last, when the generator has ended; and the
    generator ends with the step that follows such an exception. *)
Lemma run_loop_teardown (evs : list event) (c : lru) (k : nat) (g : gen) :
  looping l k g -> frames l <> [] -> ~ In Close evs ->
  let r := run console_print w (c, g) evs in
  let n := times (utf8 (end_ l)) (emitted (snd r)) in
  (n <= 1)%nat /\
  (existsb is_throw evs = true -> n = 1%nat) /\
  (snd (fst r) = Closed ->
   n = 1%nat /\ exists before, emitted (snd r) = before ++ [utf8 (end_ l)]) /\
  (forall evs1 e ev evs2,
      evs = evs1 ++ Throw e :: ev :: evs2 -> snd (fst r) = Closed).
Proof.
  revert k g. induction evs as [|ev r IH]; intros k g Hg Hne Hev.
  { cbn. split; [lia|]. split; [discriminate|]. split.
    - intros ->. destruct Hg.
    - intros evs1 e ev evs2 H. destruct evs1; discriminate H. }
  assert (Hr : ~ In Close r) by (intros H; apply Hev; right; exact H).
  cbv zeta.
  rewrite run_cons by (eapply looping_started; exact Hg). cbn [fst snd].
  pose proof (react_looping k g ev Hg) as Hstep.
  destruct (react console_print g ev) as [g' o]. cbn [fst snd] in *.
  rewrite emitted_cons.
  assert (Hsplit : forall evs1 e ev2 evs2,
             ev :: r = evs1 ++ Throw e :: ev2 :: evs2 ->
             (ev = Throw e /\ r = ev2 :: evs2)
             \/ exists evs1', r = evs1' ++ Throw e :: ev2 :: evs2).
  { intros evs1 e ev2 evs2 H. destruct evs1 as [|x evs1'].
    - injection H as -> ->. left. auto.
    - injection H as _ ->. right. exists evs1'. reflexivity. }
  inversion Hstep
    as [g1 o1 Hg' Ho _ Hnt| g1 b Hg' Hres Hb| p _ _ _| Hcl| _ Hnil];
    subst.
  - specialize (IH k g' Hg' Hne Hr). cbv zeta in IH.
    destruct IH as [IH1 [IH2 [IH3 IH4]]].
    rewrite Ho. cbn [app existsb]. rewrite Hnt. cbn [orb].
    split; [exact IH1|]. split; [exact IH2|]. split; [exact IH3|].
    intros evs1 e ev2 evs2 H.
    destruct (Hsplit _ _ _ _ H) as [[-> _]|[evs1' ->]];
      [discriminate Hnt|].
    eapply IH4. reflexivity.
  - specialize (IH (S k) g' Hg' Hne Hr). cbv zeta in IH.
    destruct IH as [IH1 [IH2 [IH3 IH4]]].
    assert (Hbe : b <> utf8 (end_ l)).
    { destruct l_session as [_ ->]. eapply composed_not_end. exact Hb. }
    cbn [emitted flat_map app existsb is_throw orb].
    rewrite times_cons_other by exact Hbe.
    split; [exact IH1|]. split; [exact IH2|]. split.
    + intros Hst. destruct (IH3 Hst) as [Hone [before Hbefore]].
      split; [exact Hone|]. exists (b :: before). rewrite Hbefore.
      reflexivity.
    + intros evs1 e ev2 evs2 H.
      destruct (Hsplit _ _ _ _ H) as [[E _]|[evs1' ->]];
        [discriminate E|].
      eapply IH4. reflexivity.
  - destruct (run_past_loop console_print w r c (AtYieldEnd l p) I)
      as [_ [E _]].
    rewrite E. cbn [emitted flat_map app].
    rewrite times_cons_same. cbn [times count_occ].
    split; [lia|]. split; [reflexivity|]. split.
    + intros _. split; [reflexivity|]. exists []. reflexivity.
    + intros evs1 e ev2 evs2 H.
      assert (Hcons : exists x xs, r = x :: xs).
      { destruct (Hsplit _ _ _ _ H) as [[_ ->]|[evs1' ->]].
        - eauto.
        - destruct evs1'; cbn; eauto. }
      destruct Hcons as [x [xs ->]]. rewrite run_at_end. reflexivity.
  - exfalso. apply Hev. left. reflexivity.
  - congruence.
Qed.

(** *** The loop going on *)

Lemma run_cycle (c : lru) (j : nat) (b : bytes) :
  frames l <> [] ->
  buffer console_print l (S j) = Ok b ->
  run console_print w
      (c, AtYieldFrame l (j mod length (frames l)) (Z.of_nat (S j)))
      [Resume; Resume]
  = ((c, AtYieldFrame l (S j mod length (frames l)) (Z.of_nat (S (S j)))),
     [Sleeping (pause l); Yielded b]).
Proof.
  intros Hne Hb. unfold buffer in Hb.
  rewrite run_cons by discriminate. cbn [react fst snd].
  rewrite run_cons by discriminate. cbn [react fst snd run].
  rewrite next_turn_eq by exact Hne.
  rewrite loop_body_eq
    by (apply Nat.mod_upper_bound, frames_length; exact Hne).
  rewrite Hb. cbn [fst snd].
  replace (Z.of_nat (S j) + 1) with (Z.of_nat (S (S j))) by lia.
  reflexivity.
Qed.

Lemma run_cycle_fails (c : lru) (j : nat) (e : exn) :
  frames l <> [] ->
  buffer console_print l (S j) = Raise e ->
  run console_print w
      (c, AtYieldFrame l (j mod length (frames l)) (Z.of_nat (S j)))
      [Resume; Resume; Resume]
  = ((c, Closed),
     [Sleeping (pause l); Yielded (utf8 (end_ l));
      snd (finish (pending_after e))]).
Proof.
  intros Hne Hb. unfold buffer in Hb.
  rewrite run_cons by discriminate. cbn [react fst snd].
  rewrite run_cons by discriminate. cbn [react fst snd].
  rewrite next_turn_eq by exact Hne.
  rewrite loop_body_eq
    by (apply Nat.mod_upper_bound, frames_length; exact Hne).
  rewrite Hb. cbn [fst snd].
  rewrite run_cons by discriminate. cbn [react fst snd run].
  destruct (pending_after e); reflexivity.
Qed.

Lemma repeat_resume_succ (k : nat) :
  repeat Resume (2 * S k) = [Resume; Resume] ++ repeat Resume (2 * k).
Proof.
  replace (2 * S k)%nat with (S (S (2 * k))) by lia. reflexivity.
Qed.

Lemma run_cycles (c : lru) (k j : nat) :
  frames l <> [] ->
  (forall i, (j < i <= j + k)%nat ->
             exists b, buffer console_print l i = Ok b) ->
  let r := run console_print w
             (c, AtYieldFrame l (j mod length (frames l)) (Z.of_nat (S j)))
             (repeat Resume (2 * k)) in
  fst r = (c, AtYieldFrame l ((j + k) mod length (frames l))
                           (Z.of_nat (S (j + k)))) /\
  map Ok (emitted (snd r)) = cycles console_print l (S j) k.
Proof.
  intros Hne. revert j. induction k as [|k IH]; intros j Hok.
  - cbn. rewrite Nat.add_0_r. auto.
  - cbv zeta. destruct (Hok (S j) ltac:(lia)) as [b Hb].
    rewrite repeat_resume_succ, run_app, (run_cycle c j b Hne Hb).
    specialize (IH (S j)). cbv zeta in IH.
    destruct IH as [IH1 IH2]; [intros i Hi; apply Hok; lia|].
    destruct (run console_print w _ (repeat Resume (2 * k))) as [st os].
    cbn [fst snd] in *. split.
    + rewrite IH1. replace (j + S k)%nat with (S j + k)%nat by lia.
      reflexivity.
    + rewrite emitted_app. cbn [emitted flat_map app map].
      rewrite IH2, cycles_succ, Hb. reflexivity.
Qed.

(** From [yield start] to the [k+1]-th buffer. *)
Lemma run_started (c : lru) (k : nat) :
  frames l <> [] ->
  (forall i, (i <= k)%nat -> exists b, buffer console_print l i = Ok b) ->
  let r := run console_print w (c, AtYieldStart l)
             (Resume :: repeat Resume (2 * k)) in
  fst r = (c, AtYieldFrame l (k mod length (frames l)) (Z.of_nat (S k))) /\
  map Ok (emitted (snd r)) = cycles console_print l 0 (S k).
Proof.
  intros Hne Hok. cbv zeta.
  destruct (Hok 0%nat ltac:(lia)) as [b Hb].
  rewrite run_cons by discriminate. cbn [react fst snd].
  destruct enter_loop_cases as [[Hnil _]|[_ ->]]; [congruence|].
  rewrite loop_body_eq by (pose proof (frames_length Hne); lia).
  unfold buffer in Hb. rewrite Nat.Div0.mod_0_l in Hb.
  change (Z.of_nat 0) with 0 in Hb. rewrite Hb. cbn [fst snd].
  destruct (run_cycles c k 0 Hne) as [H1 H2];
    [intros i Hi; apply Hok; lia|].
  rewrite Nat.Div0.mod_0_l in H1, H2. change (0 + 1) with (Z.of_nat 1).
  split; [exact H1|].
  rewrite emitted_cons. cbn [emitted flat_map app map].
  rewrite H2, cycles_succ. unfold buffer.
  rewrite Nat.Div0.mod_0_l. change (Z.of_nat 0) with 0.
  rewrite Hb. reflexivity.
Qed.

(** The first cycle that fails to compose or encode ends the loop: the
    teardown is handed out and the next step raises the exception (or
    returns, had it been a cancellation). *)
Lemma run_fails (c : lru) (m : nat) (e : exn) :
  frames l <> [] ->
  (forall i, (i < m)%nat -> exists b, buffer console_print l i = Ok b) ->
  buffer console_print l m = Raise e ->
  let r := run console_print w (c, AtYieldStart l)
             (repeat Resume (2 * m + 2)) in
  fst r = (c, Closed) /\
  (exists bs, map Ok bs = cycles console_print l 0 m /\
              emitted (snd r) = bs ++ [utf8 (end_ l)]) /\
  last (snd r) Exhausted = snd (finish (pending_after e)).
Proof.
  intros Hne Hok He. cbv zeta. destruct m as [|m].
  - cbn [Nat.mul Nat.add repeat].
    rewrite run_cons by discriminate. cbn [react fst snd].
    destruct enter_loop_cases as [[Hnil _]|[_ ->]]; [congruence|].
    rewrite loop_body_eq by (pose proof (frames_length Hne); lia).
    unfold buffer in He. rewrite Nat.Div0.mod_0_l in He.
    change (Z.of_nat 0) with 0 in He. rewrite He. cbn [fst snd].
    rewrite run_cons by discriminate. cbn [react fst snd run].
    split; [destruct (pending_after e); reflexivity|]. split.
    + exists []. split; reflexivity || (destruct (pending_after e);
                                       reflexivity).
    + reflexivity.
  - replace (2 * S m + 2)%nat with (S (2 * m) + 3)%nat by lia.
    rewrite repeat_app, run_app.
    destruct (run_started c m Hne) as [H1 H2];
      [intros i Hi; apply Hok; lia|].
    cbn [repeat] in *.
    destruct (run console_print w (c, AtYieldStart l)
                  (Resume :: repeat Resume (2 * m))) as [st os].
    cbn [fst snd] in H1, H2. subst st.
    rewrite (run_cycle_fails c m e Hne He). cbn [fst snd].
    split; [reflexivity|]. split.
    + exists (emitted os). split; [exact H2|].
      rewrite emitted_app.
      destruct (pending_after e); reflexivity.
    + change [Sleeping (pause l); Yielded (utf8 (end_ l));
              snd (finish (pending_after e))]
        with ([Sleeping (pause l); Yielded (utf8 (end_ l))]
              ++ [snd (finish (pending_after e))]).
      rewrite app_assoc, last_last. reflexivity.
Qed.

End Loop.
(** *** A session from its first step *)

(** The first step of a session whose frames load: the prologue, then
    [yield start]. *)
Lemma run_created cp (w : world) (c c1 : lru) (rq : request)
  (fr : list str) (evs : list event) :
  cached_load w c (json_path rq) = (Ok fr, c1) ->
  run cp w (c, Created rq) (Resume :: evs)
  = (fst (run cp w (c1, AtYieldStart (prologue rq fr)) evs),
     Yielded (utf8 (start (prologue rq fr)))
     :: snd (run cp w (c1, AtYieldStart (prologue rq fr)) evs)).
Proof.
  intros Hload. cbn [run step]. rewrite Hload.
  rewrite (first_yield_eq (alt_screen rq) _ (prologue_session rq fr)).
  destruct (run cp w (c1, AtYieldStart (prologue rq fr)) evs).
  reflexivity.
Qed.

Lemma last_cons {A} (x d : A) (xs : list A) :
  xs <> [] -> last (x :: xs) d = last xs d.
Proof. destruct xs; [congruence|reflexivity]. Qed.

Lemma finish_outcome (e : exn) :
  snd (finish (pending_after e))
  = if is_CancelledError e then Returned else Raised (raised_out e).
Proof. unfold pending_after. destruct (is_CancelledError e); reflexivity. Qed.




(** A frame that the console refuses, here the closing tag [/] alone as
    second frame: the session emits the setup sequence, the first buffer
    and the teardown sequence, and raises the error of the console. *)
Example stream_rejected_frame :
  let rq := demo_request false in
  let l := prologue rq [str_of "a"; str_of "[/]"] in
  exists b,
    composed strict_console l 0 0 = Ok b /\
    run strict_console
        (one_file (json_path rq)
                  (JArray [JString (str_of "a"); JString (str_of "[/]")]))
        (cache_empty, Created rq)
        [Resume; Resume; Resume; Resume; Resume; Resume]
    = (({| entries := [(json_path rq, [str_of "a"; str_of "[/]"])];
           hits := 0; misses := 1 |}, Closed),
       [Yielded (utf8 (start l)); Yielded b; Sleeping (pause l);
        Yielded (utf8 (end_ l));
        Raised (Exception (Other "MarkupError")); Exhausted]).
Proof. eexists. split; vm_compute; reflexivity. Qed.

(** A frame with a lone surrogate, as the JSON decoder gives for an escape
    such as \ud800, cannot be encoded: the loop ends in the same way. *)
Example stream_unencodable_frame :
  let rq := demo_request false in
  let l := prologue rq [[55296%N]] in
  run plain_console (one_file (json_path rq) (JArray [JString [55296%N]]))
      (cache_empty, Created rq) [Resume; Resume; Resume]
  = (({| entries := [(json_path rq, [[55296%N]])];
         hits := 0; misses := 1 |}, Closed),
     [Yielded (utf8 (start l)); Yielded (utf8 (end_ l));
      Raised UnicodeEncodeError]).
Proof. vm_compute. reflexivity. Qed.
(* ------------------------------------------------------------------ *)
(** ** Teardown *)

Lemma contains_alt_codes (alt : bool) :
  contains EXIT_ALT (end_sequence alt) = alt /\
  contains ENTER_ALT (start_sequence alt) = alt.
Proof. destruct alt; split; reflexivity. Qed.

(** [except Exception: pass] around [yield end]: an exception of class
    [Exception] raised there is dropped and the generator ends as if it had
    been resumed. *)
Lemma teardown_failure_dropped cp (l : locals) (pending : option exn)
  (e : exn) :
  is_Exception e = true ->
  react cp (AtYieldEnd l pending) (Throw e)
  = react cp (AtYieldEnd l pending) Resume /\
  snd (react cp (AtYieldEnd l pending) (Throw e))
  = match pending with
    | None => Returned
    | Some first => Raised (raised_out first)
    end.
Proof.
  intros He. cbn [react]. rewrite He.
  split; [reflexivity|]. destruct pending; reflexivity.
Qed.

(** X25.  A session that has started and ends by a cancellation or a
    failure, both of them exceptions raised at a point where the generator
    is suspended (the pause or a [yield]), and is not closed from outside
    with [aclose()]: whatever the events and their order, the teardown
    sequence is emitted at most once; it is emitted, once, as soon as one
    such exception has been raised; the step after that exception ends the
    generator; and a generator that has ended has emitted the teardown
    sequence exactly once, as the last thing it emitted.  The teardown
    sequence holds ESC[?1049l exactly when the session was asked for the
    alternate screen, which is when the setup sequence holds ESC[?1049h.
    An exception of class [Exception] raised at [yield end], a failure of
    the teardown itself, is dropped: the generator ends as if the teardown
    had gone through, returning after a cancellation and raising the first
    error, not the later one, after a failure. *)
Theorem stream_teardown_once (console_print : str -> result str)
  (w : world) (c c1 : lru) (rq : request) (fr : list str)
  (evs : list event) :
  cache_sound c ->
  cached_load w c (json_path rq) = (Ok fr, c1) ->
  ~ In Close evs ->
  let l := prologue rq fr in
  let r := run console_print w (c, Created rq) (Resume :: evs) in
  let n := times (utf8 (end_ l)) (emitted (snd r)) in
  (n <= 1)%nat /\
  (existsb is_throw evs = true -> n = 1%nat) /\
  (forall evs1 e ev evs2,
      evs = evs1 ++ Throw e :: ev :: evs2 -> snd (fst r) = Closed) /\
  (snd (fst r) = Closed ->
   n = 1%nat /\
   exists before, emitted (snd r) = before ++ [utf8 (end_ l)]) /\
  contains EXIT_ALT (end_ l) = alt_screen rq /\
  contains ENTER_ALT (start l) = alt_screen rq /\
  (forall pending e,
      is_Exception e = true ->
      react console_print (AtYieldEnd l pending) (Throw e)
      = react console_print (AtYieldEnd l pending) Resume /\
      snd (react console_print (AtYieldEnd l pending) (Throw e))
      = match pending with
        | None => Returned
        | Some first => Raised (raised_out first)
        end).
Proof.
  intros Hc Hload Hev l r n.
  destruct (cached_load_nonempty w c c1 (json_path rq) fr Hc Hload)
    as [Hne _].
  destruct (prologue_fields rq fr) as [Hfr [Hstart Hend]].
  fold l in Hfr, Hstart, Hend.
  pose proof (prologue_session rq fr) as Hl. fold l in Hl.
  assert (Hnel : frames l <> []) by (rewrite Hfr; exact Hne).
  pose proof (run_loop_teardown console_print w (alt_screen rq) l Hl evs c1
                0 (AtYieldStart l) (conj eq_refl eq_refl) Hnel Hev) as H.
  cbv zeta in H. destruct H as [H1 [H2 [H3 H4]]].
  assert (Hn : n = times (utf8 (end_ l))
                     (emitted (snd (run console_print w
                                        (c1, AtYieldStart l) evs)))).
  { unfold n, r. rewrite (run_created _ _ _ _ _ _ _ Hload). fold l.
    cbn [snd]. rewrite emitted_cons. cbn [emitted flat_map app].
    apply times_cons_other. rewrite Hstart, Hend. apply start_not_end. }
  assert (Hst : snd (fst r)
                = snd (fst (run console_print w (c1, AtYieldStart l) evs))).
  { unfold r. rewrite (run_created _ _ _ _ _ _ _ Hload). reflexivity. }
  destruct (contains_alt_codes (alt_screen rq)) as [Hexit Henter].
  rewrite Hn, Hst.
  split; [exact H1|]. split; [exact H2|]. split; [exact H4|].
  split; [|split; [|split]].
  - intros E. destruct (H3 E) as [Hone [before Hb]].
    split; [exact Hone|]. exists (utf8 (start l) :: before).
    unfold r. rewrite (run_created _ _ _ _ _ _ _ Hload). fold l.
    cbn [snd]. rewrite emitted_cons, Hb. reflexivity.
  - rewrite Hend. exact Hexit.
  - rewrite Hstart. exact Henter.
  - intros pending e He. apply teardown_failure_dropped. exact He.
Qed.

Lemma stream_teardown_once_witness :
  let l := prologue (demo_request true) demo_frames in
  let r := run plain_console demo_disk
               (cache_empty, Created (demo_request true))
               [Resume; Resume;
                Throw (OSError (Other "connection reset"));
                Throw (OSError (Other "connection closed"));
                Resume] in
  times (utf8 (end_ l)) (emitted (snd r)) = 1%nat /\
  snd (fst r) = Closed /\
  contains EXIT_ALT (end_ l) = true.
Proof.
  destruct (stream_teardown_once plain_console demo_disk cache_empty
              demo_cache (demo_request true) demo_frames
              [Resume;
               Throw (OSError (Other "connection reset"));
               Throw (OSError (Other "connection closed"));
               Resume])
    as [_ [Hthrow [Hclosed [_ [Hexit _]]]]].
  - constructor.
  - reflexivity.
  - intros H. cbn in H.
    repeat (destruct H as [H|H]; [discriminate H|]). exact H.
  - split; [apply Hthrow; reflexivity|]. split; [|exact Hexit].
    apply (Hclosed [Resume] (OSError (Other "connection reset"))
             (Throw (OSError (Other "connection closed"))) [Resume]).
    reflexivity.
Defined.

(** The session of the witness, step by step: the failure raised at the
    [yield] of the first buffer brings the teardown; the failure of the
    teardown is dropped and the first error is raised. *)
Example stream_teardown_trace :
  let l := prologue (demo_request true) demo_frames in
  exists b,
    composed plain_console l 0 0 = Ok b /\
    snd (run plain_console demo_disk
             (cache_empty, Created (demo_request true))
             [Resume; Resume;
              Throw (OSError (Other "connection reset"));
              Throw (OSError (Other "connection closed"));
              Resume])
    = [Yielded (utf8 (start l)); Yielded b; Yielded (utf8 (end_ l));
       Raised (OSError (Other "connection reset")); Exhausted].
Proof. eexists. split; vm_compute; reflexivity. Qed.

(** A cancellation is not of class [Exception]: raised at [yield end] it
    goes up, in place of whatever was pending. *)
Example teardown_cancelled (l : locals) (pending : option exn) :
  react plain_console (AtYieldEnd l pending) (Throw CancelledError)
  = (Closed, Raised CancelledError).
Proof. reflexivity. Qed.

(** A session whose load fails emits nothing, neither setup nor teardown. *)
Example stream_load_fails :
  run plain_console empty_disk (cache_empty, Created (demo_request false))
      [Resume; Resume]
  = ((counted_miss cache_empty, Closed),
     [Raised (FileNotFoundError (JsonNotFound (str_of "/srv/a.json")));
      Exhausted]).
Proof. reflexivity. Qed.
(* ------------------------------------------------------------------ *)
(** ** A session closed from outside *)

Lemma run_length cp (w : world) (st : lru * gen) (evs : list event) :
  length (snd (run cp w st evs)) = length evs.
Proof.
  revert st. induction evs as [|ev r IH]; intros st; [reflexivity|].
  cbn [run]. destruct (step cp w st ev) as [st1 o].
  specialize (IH st1). destruct (run cp w st1 r) as [st2 os].
  cbn [snd length] in *. rewrite IH. reflexivity.
Qed.

(** A generator whose teardown was refused ends, without it, as soon as it
    is resumed. *)
Lemma run_closing cp (w : world) (c : lru) (l : locals) (evs : list event) :
  In Resume evs -> snd (fst (run cp w (c, Closing l) evs)) = Closed.
Proof.
  induction evs as [|ev r IH]; intros Hin; [destruct Hin|].
  rewrite run_cons by discriminate. cbn [fst].
  destruct ev as [|e|]; cbn [react finish fst].
  - rewrite run_closed_all. reflexivity.
  - apply IH. destruct Hin as [H|H]; [discriminate H|exact H].
  - apply IH. destruct Hin as [H|H]; [discriminate H|exact H].
Qed.

(** C4 (where the code departs from the claim).  A session closed with
    [aclose()] while the generator is suspended at the [yield] of a buffer,
    the way a session ends when its consumer stops iterating.  The
    generator answers GeneratorExit by running [finally], which yields the
    teardown sequence; a generator being closed may not yield, so the
    closer gets RuntimeError (async generator ignored GeneratorExit) and
    the teardown sequence is dropped.  Whatever follows, the session has
    emitted the setup sequence and its buffers and never the teardown
    sequence; and the generator ends, without it, as soon as it is
    resumed. *)
Theorem stream_closed_at_yield (console_print : str -> result str)
  (w : world) (c c1 : lru) (rq : request) (fr : list str) (k : nat)
  (evs : list event) :
  cache_sound c ->
  cached_load w c (json_path rq) = (Ok fr, c1) ->
  let l := prologue rq fr in
  (forall j, (j <= k)%nat -> exists b, buffer console_print l j = Ok b) ->
  let r := run console_print w (c, Created rq)
               (repeat Resume (2 * S k) ++ Close :: evs) in
  nth (2 * S k) (snd r) Exhausted = Raised (PyRuntimeError IGNORED_EXIT) /\
  (exists bs,
      map Ok bs = cycles console_print l 0 (S k) /\
      emitted (snd r) = utf8 (start l) :: bs) /\
  times (utf8 (end_ l)) (emitted (snd r)) = 0%nat /\
  (In Resume evs -> snd (fst r) = Closed).
Proof.
  intros Hc Hload l Hok r.
  destruct (cached_load_nonempty w c c1 (json_path rq) fr Hc Hload)
    as [Hne _].
  destruct (prologue_fields rq fr) as [Hfr [Hstart Hend]].
  fold l in Hfr, Hstart, Hend.
  pose proof (prologue_session rq fr) as Hl. fold l in Hl.
  assert (Hnel : frames l <> []) by (rewrite Hfr; exact Hne).
  destruct (run_started console_print w (alt_screen rq) l Hl c1 k Hnel Hok)
    as [H1 H2].
  assert (Hplay : repeat Resume (2 * S k)
                  = Resume :: Resume :: repeat Resume (2 * k)).
  { replace (2 * S k)%nat with (S (S (2 * k))) by lia. reflexivity. }
  pose proof (run_length console_print w (c, Created rq)
                (repeat Resume (2 * S k))) as Hlen.
  rewrite repeat_length in Hlen.
  unfold r. rewrite run_app. rewrite Hplay in Hlen |- *.
  rewrite (run_created _ _ _ _ _ _ _ Hload) in Hlen |- *. fold l in Hlen |- *.
  destruct (run console_print w (c1, AtYieldStart l)
                (Resume :: repeat Resume (2 * k))) as [st os].
  cbn [fst snd] in H1, H2, Hlen |- *. subst st.
  rewrite run_cons by discriminate. cbn [react fst snd].
  rewrite (close_in_try_eq (alt_screen rq) l Hl). cbn [fst snd].
  destruct (run_past_loop console_print w evs c1 (Closing l) I)
    as [_ [Hnone _]].
  assert (Hem : emitted ((Yielded (utf8 (start l)) :: os)
                         ++ Raised (PyRuntimeError IGNORED_EXIT)
                            :: snd (run console_print w
                                        (c1, Closing l) evs))
                = utf8 (start l) :: emitted os).
  { rewrite emitted_app, (emitted_cons (Raised _)), Hnone, emitted_cons.
    cbn [emitted flat_map app]. rewrite app_nil_r. reflexivity. }
  split; [|split; [|split]].
  - rewrite app_nth2 by lia. rewrite Hlen, Nat.sub_diag. reflexivity.
  - exists (emitted os). split; [exact H2|exact Hem].
  - rewrite Hem, times_cons_other
      by (rewrite Hstart, Hend; apply start_not_end).
    rewrite Hend. eapply times_cycles_end. exact H2.
  - apply run_closing.
Qed.

Lemma stream_closed_at_yield_witness :
  let l := prologue (demo_request true) demo_frames in
  let r := run plain_console demo_disk
               (cache_empty, Created (demo_request true))
               [Resume; Resume; Close; Resume] in
  nth 2 (snd r) Exhausted = Raised (PyRuntimeError IGNORED_EXIT) /\
  times (utf8 (end_ l)) (emitted (snd r)) = 0%nat /\
  snd (fst r) = Closed.
Proof.
  destruct (stream_closed_at_yield plain_console demo_disk cache_empty
              demo_cache (demo_request true) demo_frames 0 [Resume])
    as [H1 [_ [H3 H4]]].
  - constructor.
  - reflexivity.
  - intros j Hj. destruct j as [|j]; [|lia].
    eexists. vm_compute. reflexivity.
  - split; [exact H1|]. split; [exact H3|].
    apply H4. left. reflexivity.
Defined.

(* ================================================================== *)
(** * Further properties *)

(* ------------------------------------------------------------------ *)
(** ** More on the scrolling view *)

Lemma rotation_short {A} (line : list A) (o : Z) :
  len line <= o -> slice_from line o ++ slice_to line o = line.
Proof.
  intros H. unfold slice_from, slice_to, len in *.
  assert (E : slice_index (length line) o = length line).
  { unfold slice_index.
    destruct (Z.ltb_spec o 0); [lia|]. cbv zeta iota.
    destruct (Z.ltb_spec o 0); [lia|].
    destruct (Z.ltb_spec (Z.of_nat (length line)) o); lia. }
  rewrite E, skipn_all, firstn_all. reflexivity.
Qed.

Lemma rotation_zero {A} (line : list A) :
  slice_from line 0 ++ slice_to line 0 = line.
Proof.
  unfold slice_from, slice_to.
  rewrite slice_index_inside by lia. cbn. apply app_nil_r.
Qed.

Lemma rotation_nil {A} (o : Z) :
  slice_from (@nil A) o ++ slice_to (@nil A) o = [].
Proof.
  pose proof (rotation_length (@nil A) o) as H.
  destruct (slice_from (@nil A) o ++ slice_to (@nil A) o);
    [reflexivity|discriminate H].
Qed.

Lemma rotation_twice_nat (s : str) (a b : nat) :
  (a <= length s)%nat -> (b <= length s)%nat ->
  skipn b (skipn a s ++ firstn a s) ++ firstn b (skipn a s ++ firstn a s)
  = skipn ((a + b) mod length s) s ++ firstn ((a + b) mod length s) s.
Proof.
  intros Ha Hb.
  assert (Hlen : length (skipn a s ++ firstn a s) = length s)
    by (rewrite length_app, length_skipn, length_firstn; lia).
  destruct (Nat.eq_dec (length s) 0) as [Hz|Hn].
  { destruct s; [|discriminate]. destruct a, b; reflexivity. }
  assert (Hm : ((a + b) mod length s < length s)%nat)
    by (apply Nat.mod_upper_bound; exact Hn).
  apply nth_error_ext. intros i.
  destruct (Nat.lt_ge_cases i (length s)) as [Hi|Hi].
  - rewrite rotation_nth by lia. rewrite Hlen.
    rewrite rotation_nth
      by (try lia; apply Nat.mod_upper_bound; exact Hn).
    rewrite rotation_nth by lia.
    rewrite Nat.Div0.add_mod_idemp_l, Nat.Div0.add_mod_idemp_r.
    f_equal. f_equal. lia.
  - transitivity (@None char).
    + apply nth_error_None.
      rewrite length_app, length_skipn, length_firstn, Hlen. lia.
    + symmetry. apply nth_error_None.
      rewrite length_app, length_skipn, length_firstn. lia.
Qed.

Lemma rotation_twice (line : str) (W a b : Z) :
  len line = W ->
  let o1 := a mod Z.max 1 W in
  let o2 := b mod Z.max 1 W in
  let once := slice_from line o1 ++ slice_to line o1 in
  slice_from once o2 ++ slice_to once o2
  = slice_from line ((a + b) mod Z.max 1 W)
    ++ slice_to line ((a + b) mod Z.max 1 W).
Proof.
  intros HW o1 o2 once.
  pose proof (offset_range a W) as H1. fold o1 in H1.
  pose proof (offset_range b W) as H2. fold o2 in H2.
  pose proof (offset_range (a + b) W) as H3.
  assert (Honce : length once = length line) by apply rotation_length.
  unfold len in HW.
  destruct (Z.eq_dec W 0) as [Hz|Hnz].
  - assert (Hnil : line = []) by (destruct line; [reflexivity|cbn in HW; lia]).
    subst line. unfold once. rewrite !rotation_nil. reflexivity.
  - assert (HM : Z.max 1 W = W) by lia.
    unfold slice_from at 1, slice_to at 1. rewrite Honce.
    unfold once, slice_from, slice_to.
    rewrite !slice_index_inside by lia.
    rewrite rotation_twice_nat by lia.
    assert (E : Z.to_nat ((a + b) mod Z.max 1 W)
                = ((Z.to_nat o1 + Z.to_nat o2) mod length line)%nat).
    { assert (E1 : a mod W = o1) by (unfold o1; rewrite HM; reflexivity).
      assert (E2 : b mod W = o2) by (unfold o2; rewrite HM; reflexivity).
      rewrite HM, Z.add_mod, E1, E2 by lia.
      rewrite Z2Nat.inj_mod, Z2Nat.inj_add by lia.
      rewrite <- HW, Nat2Z.id. reflexivity. }
    rewrite E. reflexivity.
Qed.

(** X1.  A line no longer than the offset comes back as it is: the slices
    are clamped, nothing is lost and nothing raises. *)
Theorem shift_lines_short_lines (lines : list str) (t W : Z) :
  Forall (fun line => len line <= t mod Z.max 1 W) lines ->
  shift_lines lines t W = Ok lines.
Proof.
  intros H. rewrite shift_lines_eq. f_equal.
  induction H as [|line rest Hline _ IH]; cbn [map]; [reflexivity|].
  rewrite rotation_short by exact Hline. rewrite IH. reflexivity.
Qed.

Lemma shift_lines_short_lines_witness :
  shift_lines [str_of "ab"; str_of "abc"] 3 7 = Ok [str_of "ab"; str_of "abc"].
Proof.
  apply shift_lines_short_lines.
  repeat constructor; vm_compute; discriminate.
Defined.

(** X2.  Views compose: on a template of width [W], the view at tick [b] of
    the view at tick [a] is the view at tick [a + b]. *)
Theorem shift_lines_compose (lines once twice : list str) (W a b : Z) :
  Forall (fun line => len line = W) lines ->
  shift_lines lines a W = Ok once ->
  shift_lines once b W = Ok twice ->
  shift_lines lines (a + b) W = Ok twice.
Proof.
  intros HW. rewrite !shift_lines_eq.
  intros H1 H2. injection H1 as <-. injection H2 as <-.
  f_equal. rewrite map_map.
  induction HW as [|line rest Hline _ IH]; cbn [map]; [reflexivity|].
  rewrite IH. f_equal. symmetry. apply (rotation_twice line W a b Hline).
Qed.

Lemma shift_lines_compose_witness :
  shift_lines [str_of "ABCDE  "] (5 + 4) 7 = Ok [str_of "CDE  AB"].
Proof.
  apply (shift_lines_compose [str_of "ABCDE  "] [str_of "  ABCDE"]);
    [repeat constructor|reflexivity|reflexivity].
Defined.

(** X3.  At tick 0 and at every multiple of the modulus [max(1, W)] the
    view is the template itself, whatever the lines. *)
Theorem shift_lines_full_turn (lines : list str) (W k : Z) :
  shift_lines lines (k * Z.max 1 W) W = Ok lines.
Proof.
  rewrite shift_lines_eq, Z.mod_mul by lia. f_equal.
  induction lines as [|line rest IH]; cbn [map]; [reflexivity|].
  rewrite rotation_zero, IH. reflexivity.
Qed.

(** X4.  A view only moves characters: each line of it is a permutation of
    the template line it comes from, for any lines, tick and width. *)
Theorem shift_lines_permutes (lines : list str) (t W : Z) :
  exists out,
    shift_lines lines t W = Ok out /\
    Forall2 (@Permutation char) lines out.
Proof.
  eexists. split; [apply shift_lines_eq|].
  induction lines as [|line rest IH]; cbn [map]; constructor; [|exact IH].
  unfold slice_from, slice_to.
  rewrite <- (firstn_skipn (slice_index (length line) (t mod Z.max 1 W)) line)
    at 1.
  apply Permutation_app_comm.
Qed.

(* ------------------------------------------------------------------ *)
(** ** More on the templates *)

Lemma dropwhile_app_all {A} (p : A -> bool) (a b : list A) :
  forallb p a = true -> dropwhile p (a ++ b) = dropwhile p b.
Proof.
  induction a as [|x a IH]; cbn; [reflexivity|].
  intros H. apply andb_true_iff in H as [Hx Ha]. rewrite Hx. auto.
Qed.

Lemma dropwhile_idem {A} (p : A -> bool) (l : list A) :
  dropwhile p (dropwhile p l) = dropwhile p l.
Proof.
  induction l as [|x r IH]; cbn; [reflexivity|].
  destruct (p x) eqn:Hx; [exact IH|]. cbn. rewrite Hx. reflexivity.
Qed.

Lemma rstrip_idem (s : str) : rstrip (rstrip s) = rstrip s.
Proof.
  unfold rstrip. rewrite rev_involutive, dropwhile_idem. reflexivity.
Qed.

Lemma rstrip_app_blank (s ws : str) :
  blank ws = true -> rstrip (s ++ ws) = rstrip s.
Proof.
  intros H. unfold rstrip, blank in *.
  rewrite rev_app_distr, dropwhile_app_all; [reflexivity|].
  rewrite forallb_rev. exact H.
Qed.

Lemma blank_spaces (k : nat) : blank (repeat SP k) = true.
Proof. induction k; [reflexivity|exact IHk]. Qed.

Lemma ljust_eq (s : str) (width : Z) :
  ljust s width = s ++ repeat SP (Z.to_nat (width - len s)) /\
  len (ljust s width) = Z.max (len s) width.
Proof.
  unfold ljust. destruct (Z.leb_spec width (len s)) as [H|H].
  - replace (Z.to_nat (width - len s)) with 0%nat by lia.
    cbn. rewrite app_nil_r. split; [reflexivity|lia].
  - split; [reflexivity|]. unfold len in *.
    rewrite length_app, repeat_length. lia.
Qed.

Lemma fold_left_max_ge (l : list Z) (x : Z) :
  x <= fold_left Z.max l x /\ Forall (fun y => y <= fold_left Z.max l x) l.
Proof.
  revert x. induction l as [|a l IH]; intros x; cbn; [split; [lia|constructor]|].
  destruct (IH (Z.max x a)) as [H1 H2]. split; [lia|].
  constructor; [lia|exact H2].
Qed.

Lemma max_len_bounds (raw : list str) :
  Forall (fun ln => len ln <= max_len raw) raw.
Proof.
  unfold max_len, py_max. destruct raw as [|x r]; [constructor|].
  cbn [map]. destruct (fold_left_max_ge (map len r) (len x)) as [H1 H2].
  constructor; [exact H1|].
  rewrite Forall_map in H2. exact H2.
Qed.

(** X5.  For every list of raw lines and every padding, negative ones
    included: the template has one line per non-blank raw line, in order;
    each is the trimmed raw line followed by spaces only, so stripping it
    again gives the trimmed line back; its length is the larger of the
    trimmed length and the width, the width being the longest trimmed length
    plus the padding.  No line is ever cut. *)
Theorem normalize_banner_lines_pads (lines : list str) (pad : Z) :
  let raw := trimmed_nonblank lines in
  let width := max_len raw + pad in
  exists fixed,
    _normalize_banner_lines lines pad = (fixed, width) /\
    Forall (fun ln => len ln <= max_len raw) raw /\
    Forall2 (fun ln ln' =>
               ln' = ln ++ repeat SP (Z.to_nat (width - len ln)) /\
               len ln' = Z.max (len ln) width /\
               rstrip ln' = ln)
            raw fixed.
Proof.
  intros raw width. unfold _normalize_banner_lines.
  rewrite trimmed_nonblank_eq. fold raw. fold width.
  eexists. split; [reflexivity|]. split; [apply max_len_bounds|].
  assert (Hraw : Forall (fun ln => rstrip ln = ln) raw).
  { unfold raw, trimmed_nonblank. apply Forall_map, Forall_forall.
    intros ln _. apply rstrip_idem. }
  clearbody width. clear -Hraw.
  induction Hraw as [|ln rest Hln _ IH]; cbn [map]; constructor; [|exact IH].
  destruct (ljust_eq ln width) as [E1 E2].
  split; [exact E1|]. split; [exact E2|].
  rewrite E1, rstrip_app_blank by apply blank_spaces. exact Hln.
Qed.

(** X6.  Without a non-blank line the template is empty and the width is the
    padding alone. *)
Theorem normalize_banner_lines_blank (lines : list str) (pad : Z) :
  Forall (fun ln => blank ln = true) lines ->
  _normalize_banner_lines lines pad = ([], pad).
Proof.
  intros H. unfold _normalize_banner_lines.
  rewrite trimmed_nonblank_eq. unfold trimmed_nonblank.
  assert (E : filter (fun ln => negb (blank ln)) lines = []).
  { induction H as [|ln rest Hln _ IH]; cbn; [reflexivity|].
    rewrite Hln. exact IH. }
  rewrite E. reflexivity.
Qed.

Lemma normalize_banner_lines_blank_witness :
  _normalize_banner_lines [[]; str_of "   "; [9%N; 32%N]] PADDING = ([], 10).
Proof.
  apply normalize_banner_lines_blank. repeat constructor.
Defined.

Lemma split_blank (s : str) : blank s = true -> split s = [].
Proof.
  unfold split, blank. induction s as [|c r IH]; cbn; [reflexivity|].
  intros H. apply andb_true_iff in H as [Hc Hr]. rewrite Hc. auto.
Qed.

(** X7.  A caption of whitespace only, the empty one included, gives a
    ticker of spaces: one line of [pad] spaces and the width [pad]. *)
Theorem make_ticker_lines_blank (caption : str) (pad : Z) :
  blank caption = true ->
  make_ticker_lines caption pad = ([repeat SP (Z.to_nat pad)], pad).
Proof.
  intros H. unfold make_ticker_lines. rewrite (split_blank _ H).
  cbn [join truthy]. change (len (@nil char)) with 0.
  rewrite Z.add_0_l. destruct (ljust_eq [] pad) as [E _].
  rewrite E. change (len (@nil char)) with 0.
  rewrite Z.sub_0_r. reflexivity.
Qed.

Lemma make_ticker_lines_blank_witness :
  make_ticker_lines [32%N; 9%N; 10%N] PADDING = ([str_of "          "], 10).
Proof.
  apply (make_ticker_lines_blank [32%N; 9%N; 10%N] PADDING). reflexivity.
Defined.

(** X8.  The ticker depends on the words of the caption only: building it
    from the collapsed caption, or from any caption with the same words,
    gives the same template. *)
Theorem make_ticker_lines_words (caption other : str) (pad : Z) :
  split other = split caption ->
  make_ticker_lines other pad = make_ticker_lines caption pad /\
  make_ticker_lines (join [SP] (split caption)) pad
  = make_ticker_lines caption pad.
Proof.
  intros H. unfold make_ticker_lines. rewrite H. split; [reflexivity|].
  rewrite (split_join_words _ (split_words caption)). reflexivity.
Qed.

Lemma make_ticker_lines_words_witness :
  make_ticker_lines (str_of "  to   be ") PADDING
  = make_ticker_lines (str_of "to be") PADDING.
Proof.
  apply (make_ticker_lines_words (str_of "to be") (str_of "  to   be ")).
  reflexivity.
Defined.
(* ------------------------------------------------------------------ *)
(** ** The ticker caption *)

Lemma dropwhile_app_some {A} (p : A -> bool) (a b : list A) :
  forallb p a = false -> dropwhile p (a ++ b) = dropwhile p a ++ b.
Proof.
  induction a as [|x a IH]; cbn; [discriminate|].
  destruct (p x); [exact IH|reflexivity].
Qed.

(** Trailing whitespace is looked for in the last part only, when that
    part is not all whitespace. *)
Lemma rstrip_app_keep (a b : str) :
  blank b = false -> rstrip (a ++ b) = a ++ rstrip b.
Proof.
  intros H. unfold rstrip, blank in *.
  rewrite rev_app_distr, dropwhile_app_some by (rewrite forallb_rev; exact H).
  rewrite rev_app_distr, rev_involutive. reflexivity.
Qed.

Lemma rstrip_rev_word (cur : str) :
  cur <> [] -> forallb (fun c => negb (isspace c)) cur = true ->
  rstrip (rev cur) = rev cur.
Proof.
  intros Hne Hcur. unfold rstrip. rewrite rev_involutive.
  destruct cur as [|c cur']; [congruence|]. cbn in Hcur |- *.
  apply andb_true_iff in Hcur as [Hc _]. apply negb_true_iff in Hc.
  rewrite Hc. reflexivity.
Qed.

Lemma split_from_nonempty (cur s : str) :
  cur <> [] -> split_from cur s <> [].
Proof.
  revert cur. induction s as [|c r IH]; intros cur Hne; cbn.
  - destruct cur; [congruence|discriminate].
  - destruct (isspace c).
    + destruct cur; [congruence|discriminate].
    + apply IH. discriminate.
Qed.

Lemma join_first (w : str) (ws : list str) :
  join [SP] (w :: ws)
  = match ws with
    | [] => w
    | _ => w ++ SP :: join [SP] ws
    end.
Proof. destruct ws; reflexivity. Qed.

(** The code's [" ".join(text.split())] against the words of the claim,
    read from left to right: inside a word ([cur], last character first),
    and after whitespace that follows the text [x]. *)
Lemma squeeze_split (s : str) :
  (forall cur,
      cur <> [] -> forallb (fun c => negb (isspace c)) cur = true ->
      rstrip (rev cur ++ squeeze false s) = join [SP] (split_from cur s)) /\
  (forall x,
      rstrip x = x ->
      rstrip (x ++ SP :: squeeze true s)
      = match split_from [] s with
        | [] => x
        | ws => x ++ SP :: join [SP] ws
        end).
Proof.
  induction s as [|c r [IHP IHS]].
  - split.
    + intros cur Hne Hcur. cbn [squeeze split_from].
      rewrite app_nil_r, rstrip_rev_word by assumption.
      destruct cur; [congruence|reflexivity].
    + intros x Hx. cbn [squeeze split_from].
      rewrite rstrip_app_blank by reflexivity. exact Hx.
  - split.
    + intros cur Hne Hcur. cbn [squeeze split_from].
      destruct (isspace c) eqn:Hc.
      * rewrite (IHS (rev cur)) by (apply rstrip_rev_word; assumption).
        destruct cur as [|c0 cur0]; [congruence|].
        destruct (split_from [] r); reflexivity.
      * rewrite <- (IHP (c :: cur)).
        -- cbn [rev]. rewrite <- app_assoc. reflexivity.
        -- discriminate.
        -- cbn. rewrite Hc, Hcur. reflexivity.
    + intros x Hx. cbn [squeeze split_from].
      destruct (isspace c) eqn:Hc; [apply IHS; exact Hx|].
      pose proof (split_from_nonempty [c] r ltac:(discriminate)) as Hws.
      pose proof (IHP [c] ltac:(discriminate)
                    ltac:(cbn; rewrite Hc; reflexivity)) as HP1.
      destruct (split_from [c] r) as [|w ws] eqn:E; [congruence|].
      rewrite <- HP1. cbn [rev app].
      change (x ++ SP :: c :: squeeze false r)
        with (x ++ [SP] ++ c :: squeeze false r).
      rewrite app_assoc, rstrip_app_keep by (cbn; rewrite Hc; reflexivity).
      rewrite <- app_assoc. reflexivity.
Qed.

Lemma lstrip_join_words (ws : list str) :
  Forall word ws -> lstrip (join [SP] ws) = join [SP] ws.
Proof.
  intros H. destruct H as [|w ws [Hne Hw] _]; [reflexivity|].
  rewrite join_first. destruct w as [|c w']; [congruence|].
  cbn in Hw. apply andb_true_iff in Hw as [Hc _].
  apply negb_true_iff in Hc.
  destruct ws; unfold lstrip; cbn; rewrite Hc; reflexivity.
Qed.

(** The caption the ticker is built on is the caption of the claim's
    words: whitespace runs collapsed to single spaces, ends trimmed. *)
Lemma collapsed_eq (caption : str) :
  collapsed caption = join [SP] (split caption).
Proof.
  unfold collapsed, strip, split.
  destruct caption as [|c r]; [reflexivity|].
  destruct (squeeze_split r) as [HP HS].
  pose proof (split_words (c :: r)) as Hw. unfold split in Hw.
  cbn [squeeze split_from] in *. destruct (isspace c) eqn:Hc.
  - change (SP :: squeeze true r) with ([] ++ SP :: squeeze true r).
    rewrite (HS [] eq_refl).
    destruct (split_from [] r) as [|w ws] eqn:E; [reflexivity|].
    cbn [app]. unfold lstrip at 1. cbn [dropwhile].
    change (isspace SP) with true. cbn iota.
    apply (lstrip_join_words _ Hw).
  - change (c :: squeeze false r) with (rev [c] ++ squeeze false r).
    rewrite HP; [|discriminate|cbn; rewrite Hc; reflexivity].
    apply (lstrip_join_words _ Hw).
Qed.

Lemma ink_dropwhile (s : str) : ink (dropwhile isspace s) = ink s.
Proof.
  unfold ink. induction s as [|c r IH]; [reflexivity|].
  cbn. destruct (isspace c) eqn:Hc; cbn; [exact IH|].
  rewrite Hc. reflexivity.
Qed.

Lemma ink_rev (s : str) : ink (rev s) = rev (ink s).
Proof. unfold ink. apply filter_rev. Qed.

Lemma ink_strip (s : str) : ink (strip s) = ink s.
Proof.
  unfold strip, lstrip, rstrip.
  rewrite ink_dropwhile, ink_rev, ink_dropwhile, ink_rev, rev_involutive.
  reflexivity.
Qed.

Lemma ink_squeeze (b : bool) (s : str) : ink (squeeze b s) = ink s.
Proof.
  unfold ink. revert b. induction s as [|c r IH]; intros b; [reflexivity|].
  cbn. destruct (isspace c) eqn:Hc.
  - destruct b; cbn; apply IH.
  - cbn. rewrite Hc. cbn. rewrite IH. reflexivity.
Qed.

(** C7.  For every caption, the ticker banner is built on the caption with
    every run of whitespace collapsed to a single space and both ends
    trimmed ([collapsed], written after the words of the claim and not
    after the code): that caption is in normal form and has the
    characters of the given one, whitespace apart.  The template is one
    line, that caption followed by [PADDING = 10] spaces; its width is the
    length of that caption plus [PADDING], which is the length of the line.
    For a caption that is already in normal form this is the length of the
    caption as given plus 10; a caption with more whitespace counts as
    collapsed: the ten characters of "  to   be " give the width 15. *)
Theorem make_ticker_lines_width (caption : str) :
  let base := collapsed caption in
  make_ticker_lines caption PADDING
  = ([base ++ repeat SP 10], len base + PADDING) /\
  PADDING = 10 /\
  len (base ++ repeat SP 10) = len base + PADDING /\
  normal_caption base = true /\
  ink base = ink caption /\
  (normal_caption caption = true ->
   base = caption /\
   make_ticker_lines caption PADDING
   = ([caption ++ repeat SP 10], len caption + 10)) /\
  make_ticker_lines (str_of "  to   be ") PADDING
  = ([str_of "to be          "], 15).
Proof.
  intros base.
  assert (Hbase : base = join [SP] (split caption))
    by apply collapsed_eq.
  assert (Htruthy : (if truthy base then base else []) = base)
    by (destruct base; reflexivity).
  assert (Hmake : make_ticker_lines caption PADDING
                  = ([base ++ repeat SP 10], len base + PADDING)).
  { unfold make_ticker_lines. rewrite <- Hbase, Htruthy.
    destruct (ljust_short base (len base + PADDING)) as [E _];
      [unfold PADDING; lia|].
    rewrite E. replace (len base + PADDING - len base) with 10
      by (unfold PADDING; lia).
    reflexivity. }
  split; [exact Hmake|]. split; [reflexivity|].
  split; [|split; [|split; [|split; [|reflexivity]]]].
  - unfold len, PADDING. rewrite length_app, repeat_length. lia.
  - rewrite Hbase. apply join_words_normal, split_words.
  - unfold base, collapsed. rewrite ink_strip. apply ink_squeeze.
  - intros Hn.
    assert (E : base = caption)
      by (rewrite Hbase; apply join_split_normal; exact Hn).
    split; [exact E|]. rewrite Hmake, E. reflexivity.
Qed.

Lemma make_ticker_lines_width_witness :
  make_ticker_lines (str_of "to be") PADDING
  = ([str_of "to be" ++ repeat SP 10], 15).
Proof.
  destruct (make_ticker_lines_width (str_of "to be"))
    as [_ [_ [_ [_ [_ [H _]]]]]].
  destruct H as [_ H]; [reflexivity|exact H].
Defined.

(* ------------------------------------------------------------------ *)
(** ** More on the frame store *)

Lemma check_frames_strings (fr : list str) (k : nat) :
  check_frames k (map JString fr) = Ok fr.
Proof.
  revert k. induction fr as [|s r IH]; intros k; cbn; [reflexivity|].
  rewrite IH. reflexivity.
Qed.

(** X9.  The body of the loader returns frames exactly when the path is
    absolute, the location exists, and what is decoded there is a list of
    strings with at least one element; what it returns is those strings, in
    order. *)
Theorem load_json_frames_success (w : world) (p : str) (fr : list str) :
  load_json_frames w p = Ok fr <->
  isabs p = true /\ path_exists w p = true /\
  json_load w p = Ok (JArray (map JString fr)) /\ fr <> [].
Proof.
  split.
  - intros H. pose proof (load_json_frames_nonempty w p fr H) as Hne.
    unfold load_json_frames in H.
    destruct (isabs p); cbn in H; [|discriminate].
    destruct (path_exists w p); cbn in H; [|discriminate].
    destruct (json_load w p) as [data|e]; cbn in H; [|discriminate].
    destruct data as [| | | |items|]; try discriminate.
    destruct items as [|x r]; [discriminate|].
    apply check_frames_ok in H. rewrite H. auto.
  - intros [Habs [Hex [Hdata Hne]]].
    unfold load_json_frames. rewrite Habs, Hex, Hdata. cbn.
    destruct fr as [|s r]; [congruence|].
    apply (check_frames_strings (s :: r) 0).
Qed.

Lemma cached_loads_app (c : lru) (a b : list (world * str)) :
  cached_loads c (a ++ b)
  = (fst (cached_loads c a) ++ fst (cached_loads (snd (cached_loads c a)) b),
     snd (cached_loads (snd (cached_loads c a)) b)).
Proof.
  revert c. induction a as [|[w p] r IH]; intros c; cbn [app cached_loads].
  - cbn [fst snd app]. destruct (cached_loads c b). reflexivity.
  - destruct (cached_load w c p) as [x c1]. rewrite IH.
    destruct (cached_loads c1 r) as [xs c2]. cbn [fst snd].
    reflexivity.
Qed.

Lemma cached_loads_length (calls : list (world * str)) (c : lru) :
  length (fst (cached_loads c calls)) = length calls.
Proof.
  revert c. induction calls as [|[w p] r IH]; intros c; cbn; [reflexivity|].
  destruct (cached_load w c p) as [x c1]. specialize (IH c1).
  destruct (cached_loads c1 r) as [xs c2]. cbn in *. lia.
Qed.

Lemma cached_load_counts (w : world) (c : lru) (p : str) :
  (hits (snd (cached_load w c p)) + misses (snd (cached_load w c p))
   = S (hits c + misses c))%nat.
Proof.
  destruct (cache_get p (entries c)) as [v|] eqn:Hget.
  - rewrite (cached_load_hit w c p v Hget). cbn. lia.
  - rewrite (cached_load_miss w c p Hget).
    destruct (load_json_frames w p); cbn; lia.
Qed.

Lemma cached_load_sound (w : world) (c : lru) (p : str) :
  cache_sound c -> cache_sound (snd (cached_load w c p)).
Proof.
  intros Hc. destruct (cached_load w c p) as [[fr|e] c1] eqn:E.
  - apply (cached_load_nonempty w c c1 p fr Hc E).
  - cbn. destruct (cache_get p (entries c)) as [v|] eqn:Hget.
    + rewrite (cached_load_hit w c p v Hget) in E. discriminate.
    + rewrite (cached_load_miss w c p Hget) in E.
      destruct (load_json_frames w p); [discriminate|].
      injection E as _ <-. exact Hc.
Qed.

Lemma cached_loads_keep (calls : list (world * str)) (c : lru) :
  cache_ok c -> cache_sound c ->
  cache_ok (snd (cached_loads c calls)) /\
  cache_sound (snd (cached_loads c calls)) /\
  (hits (snd (cached_loads c calls)) + misses (snd (cached_loads c calls))
   = hits c + misses c + length calls)%nat.
Proof.
  revert c. induction calls as [|[w p] r IH]; intros c Hok Hs.
  - cbn. repeat split; try assumption; try apply Hok. lia.
  - pose proof (cached_load_ok w c p Hok) as H1.
    pose proof (cached_load_sound w c p Hs) as H2.
    pose proof (cached_load_counts w c p) as H3.
    cbn [cached_loads]. destruct (cached_load w c p) as [x c1].
    cbn [snd] in *. destruct (IH c1 H1 H2) as [I1 [I2 I3]].
    destruct (cached_loads c1 r) as [xs c2]. cbn [snd length] in *.
    split; [exact I1|]. split; [exact I2|]. lia.
Qed.

(** X10.  Starting from the empty cache, after any series of calls, each
    against any state of the file system: no key is cached twice, at most 32
    entries are held, every cached sequence has at least one frame, every
    call got an answer, and hits plus misses count the calls. *)
Theorem cached_loads_invariants (calls : list (world * str)) :
  let r := cached_loads cache_empty calls in
  NoDup (keys (snd r)) /\
  (length (entries (snd r)) <= 32)%nat /\
  Forall (fun kv => snd kv <> []) (entries (snd r)) /\
  length (fst r) = length calls /\
  (hits (snd r) + misses (snd r) = length calls)%nat.
Proof.
  intros r.
  destruct (cached_loads_keep calls cache_empty) as [[H1 H2] [H3 H4]].
  - split; [constructor|cbn; unfold maxsize; lia].
  - constructor.
  - repeat split; try assumption.
    apply cached_loads_length.
Qed.

(** The entries of a cache come from the entries it had or from a load of
    the series that returned. *)
Lemma cached_load_entries (w : world) (c : lru) (p k : str) (v : list str) :
  In (k, v) (entries (snd (cached_load w c p))) ->
  In (k, v) (entries c) \/ (k = p /\ load_json_frames w p = Ok v).
Proof.
  destruct (cache_get p (entries c)) as [u|] eqn:Hget.
  - rewrite (cached_load_hit w c p u Hget). cbn [snd entries].
    intros [E|Hin].
    + injection E as <- <-. left. apply cache_get_some, Hget.
    + left. eapply cache_del_incl, Hin.
  - rewrite (cached_load_miss w c p Hget).
    destruct (load_json_frames w p) as [u|e]; cbn [snd entries counted_miss];
      [|auto].
    intros [E|Hin]; [injection E as <- <-; auto|].
    left. destruct (maxsize <=? length (entries c))%nat; [|exact Hin].
    eapply removelast_incl, Hin.
Qed.

Lemma cached_loads_entries (calls : list (world * str)) (c : lru)
  (k : str) (v : list str) :
  In (k, v) (entries (snd (cached_loads c calls))) ->
  In (k, v) (entries c)
  \/ exists w, In (w, k) calls /\ load_json_frames w k = Ok v.
Proof.
  revert c. induction calls as [|[w p] r IH]; intros c; cbn [cached_loads].
  - cbn. auto.
  - pose proof (cached_load_entries w c p k v) as Hstep.
    destruct (cached_load w c p) as [x c1]. specialize (IH c1).
    destruct (cached_loads c1 r) as [xs c2]. cbn [snd] in *.
    intros Hin. destruct (IH Hin) as [H|[w' [H1 H2]]].
    + destruct (Hstep H) as [H'|[-> Hl]]; [auto|].
      right. exists w. split; [left; reflexivity|exact Hl].
    + right. exists w'. split; [right; exact H1|exact H2].
Qed.

(** X11.  Starting from the empty cache, the frames a call returns for a
    key are frames that the body returned for that same key, at this call or
    at an earlier one: the cache hands out nothing else. *)
Theorem cached_loads_provenance
  (before after : list (world * str)) (w : world) (k : str) (v : list str) :
  nth_error (fst (cached_loads cache_empty (before ++ (w, k) :: after)))
            (length before) = Some (Ok v) ->
  exists w', In (w', k) (before ++ [(w, k)]) /\
             load_json_frames w' k = Ok v.
Proof.
  rewrite cached_loads_app.
  cbn [fst]. rewrite nth_error_app2 by (rewrite cached_loads_length; lia).
  rewrite cached_loads_length, Nat.sub_diag.
  pose proof (cached_loads_entries before cache_empty k v) as Hprov.
  destruct (cached_loads cache_empty before) as [xs c1]. cbn [fst snd] in *.
  cbn [cached_loads].
  destruct (cache_get k (entries c1)) as [u|] eqn:Hget.
  - rewrite (cached_load_hit w c1 k u Hget).
    destruct (cached_loads _ after) as [ys c2]. cbn.
    intros E. injection E as <-.
    apply cache_get_some in Hget.
    destruct (Hprov Hget) as [[]|[w' [H1 H2]]].
    exists w'. split; [apply in_or_app; auto|exact H2].
  - rewrite (cached_load_miss w c1 k Hget).
    destruct (load_json_frames w k) as [u|e] eqn:Hl;
      destruct (cached_loads _ after) as [ys c2]; cbn;
      intros E; [|discriminate].
    injection E as <-. exists w. split; [|exact Hl].
    apply in_or_app. right. left. reflexivity.
Qed.

Lemma cached_loads_provenance_witness :
  exists w', In (w', str_of "/srv/a.json")
                ([(demo_disk, str_of "/srv/a.json")]
                 ++ [(empty_disk, str_of "/srv/a.json")]) /\
             load_json_frames w' (str_of "/srv/a.json") = Ok demo_frames.
Proof.
  apply (cached_loads_provenance [(demo_disk, str_of "/srv/a.json")] []).
  reflexivity.
Defined.

(* ------------------------------------------------------------------ *)
(** ** Startup, registry and routes *)

Lemma check_frames_raises (items : list json) (k : nat) (e : exn) :
  check_frames k items = Raise e -> is_Exception e = true.
Proof.
  revert k. induction items as [|x r IH]; intros k; cbn; [discriminate|].
  destruct x; try (intros H; injection H as <-; reflexivity).
  destruct (check_frames (S k) r) eqn:Hr; cbn; [discriminate|].
  intros H; injection H as <-. eapply IH, Hr.
Qed.

Lemma load_json_frames_raises (w : world) (p : str) (e : exn) :
  calm w -> load_json_frames w p = Raise e -> is_Exception e = true.
Proof.
  intros Hw. unfold load_json_frames.
  destruct (isabs p); cbn; [|intros H; injection H as <-; reflexivity].
  destruct (path_exists w p); cbn;
    [|intros H; injection H as <-; reflexivity].
  destruct (json_load w p) as [data|e'] eqn:Hd; cbn.
  - destruct data as [| | | |[|x r]|];
      try (intros H; injection H as <-; reflexivity).
    apply check_frames_raises.
  - intros H; injection H as <-. eapply Hw, Hd.
Qed.

Lemma cached_load_raises_exception (w : world) (c c1 : lru) (p : str)
  (e : exn) :
  calm w -> cached_load w c p = (Raise e, c1) -> is_Exception e = true.
Proof.
  intros Hw. destruct (cache_get p (entries c)) as [v|] eqn:Hget.
  - rewrite (cached_load_hit w c p v Hget). discriminate.
  - rewrite (cached_load_miss w c p Hget).
    destruct (load_json_frames w p) eqn:Hl; [discriminate|].
    intros H; injection H as <- _. eapply load_json_frames_raises; eauto.
Qed.

Lemma warmup_cache_step (w : world) (name : str) (cfg : dict str)
  (rest : dict (dict str)) (c : lru) (p : str) :
  calm w ->
  dict_get cfg (str_of "json_path") = Some p ->
  truthy p && isabs p = true ->
  warmup_cache w ((name, cfg) :: rest) c
  = warmup_cache w rest (snd (cached_load w cache_empty p)).
Proof.
  intros Hw Hp Hok. cbn [warmup_cache]. rewrite Hp.
  apply andb_true_iff in Hok as [H1 H2]. rewrite H1, H2. cbn [negb orb].
  unfold cache_clear.
  destruct (cached_load w cache_empty p) as [[fr|e] c1] eqn:E;
    [reflexivity|].
  rewrite (cached_load_raises_exception w cache_empty c1 p e Hw E).
  reflexivity.
Qed.

Lemma warmup_cache_all_ok (w : world) (items : dict (dict str))
  (name : str) (cfg : dict str) (p : str) (c : lru) :
  calm w ->
  Forall (fun item => entry_ok (snd item) = true) items ->
  dict_get cfg (str_of "json_path") = Some p ->
  truthy p && isabs p = true ->
  warmup_cache w (items ++ [(name, cfg)]) c
  = Started (snd (cached_load w cache_empty p)).
Proof.
  intros Hw Hitems Hp Hok. revert c.
  induction Hitems as [|[n' cfg'] rest Hc _ IH]; intros c.
  - cbn [app]. rewrite (warmup_cache_step w name cfg [] c p Hw Hp Hok).
    reflexivity.
  - cbn [app snd] in *. unfold entry_ok in Hc.
    destruct (dict_get cfg' (str_of "json_path")) as [p'|] eqn:Hp';
      [|discriminate].
    rewrite (warmup_cache_step w n' cfg' _ c p' Hw Hp' Hc). apply IH.
Qed.

(** X12.  On a registry whose entries all have a path, not empty and
    absolute, the startup hook never fails, whether the frames load or not,
    and it leaves the cache as one load of the last entry into an empty
    cache leaves it: at most that one entry, one miss, no hit.  The entries
    before the last are not kept, the cache being cleared at each turn. *)
Theorem warmup_cache_keeps_last (w : world) (items : dict (dict str))
  (name : str) (cfg : dict str) (p : str) (c : lru) :
  calm w ->
  Forall (fun item => entry_ok (snd item) = true) items ->
  dict_get cfg (str_of "json_path") = Some p ->
  truthy p && isabs p = true ->
  let after := snd (cached_load w cache_empty p) in
  warmup_cache w (items ++ [(name, cfg)]) c = Started after /\
  (length (entries after) <= 1)%nat /\
  (forall k v, In (k, v) (entries after) -> k = p) /\
  hits after = 0%nat /\ misses after = 1%nat.
Proof.
  intros Hw Hitems Hp Hok after. split.
  - apply warmup_cache_all_ok; assumption.
  - unfold after. rewrite (cached_load_miss w cache_empty p eq_refl).
    destruct (load_json_frames w p) as [v|e];
      cbn [snd entries hits misses counted_miss cache_empty length
           Nat.leb maxsize].
    + split; [lia|]. split; [|split; reflexivity].
      intros k v' [E|[]]. congruence.
    + split; [lia|]. split; [|split; reflexivity].
      intros k v' [].
Qed.

Lemma warmup_cache_keeps_last_witness :
  warmup_cache full_disk
    ([(str_of "one", [(str_of "json_path", str_of "/srv/one.json")])]
     ++ [(str_of "two", [(str_of "json_path", str_of "/srv/two.json")])])
    cache_empty
  = Started {| entries := [(str_of "/srv/two.json", [str_of "/srv/two.json"])];
               hits := 0; misses := 1 |}.
Proof.
  apply (warmup_cache_keeps_last full_disk
           [(str_of "one", [(str_of "json_path", str_of "/srv/one.json")])]
           (str_of "two") [(str_of "json_path", str_of "/srv/two.json")]
           (str_of "/srv/two.json") cache_empty).
  - intros q e H. discriminate H.
  - repeat constructor.
  - reflexivity.
  - reflexivity.
Defined.

(** X13.  The startup hook fails with [RuntimeError] at the first entry of
    the registry that has no path, an empty one or one that is not
    absolute, naming that entry, whatever comes after it. *)
Theorem warmup_cache_bad_path (w : world) (items rest : dict (dict str))
  (name : str) (cfg : dict str) (c : lru) :
  calm w ->
  Forall (fun item => entry_ok (snd item) = true) items ->
  entry_ok cfg = false ->
  warmup_cache w (items ++ (name, cfg) :: rest) c
  = RuntimeError name (dict_get cfg (str_of "json_path")).
Proof.
  intros Hw Hitems Hbad. revert c.
  induction Hitems as [|[n' cfg'] more Hc _ IH]; intros c.
  - cbn [app warmup_cache]. unfold entry_ok in Hbad.
    destruct (dict_get cfg (str_of "json_path")) as [p|]; [|reflexivity].
    apply andb_false_iff in Hbad.
    destruct Hbad as [->| ->]; cbn [negb orb]; [reflexivity|].
    rewrite orb_true_r. reflexivity.
  - cbn [app snd] in *. unfold entry_ok in Hc.
    destruct (dict_get cfg' (str_of "json_path")) as [p'|] eqn:Hp';
      [|discriminate].
    rewrite (warmup_cache_step w n' cfg' _ c p' Hw Hp' Hc). apply IH.
Qed.

Lemma warmup_cache_bad_path_witness :
  warmup_cache full_disk
    ([(str_of "one", [(str_of "json_path", str_of "/srv/one.json")])]
     ++ (str_of "two", [(str_of "json_path", str_of "two.json")])
        :: [(str_of "three", [])])
    cache_empty
  = RuntimeError (str_of "two") (Some (str_of "two.json")).
Proof.
  apply (warmup_cache_bad_path full_disk).
  - intros q e H. discriminate H.
  - repeat constructor.
  - reflexivity.
Defined.

Lemma check_registry_none (anims : dict (dict str)) :
  check_registry anims = None <->
  Forall (fun item => entry_listed (snd item) = true) anims.
Proof.
  induction anims as [|[name cfg] r IH]; cbn [check_registry].
  - split; [constructor|reflexivity].
  - fold (entry_listed cfg).
    destruct (entry_listed cfg) eqn:E; cbn [negb].
    + rewrite IH. split; [intros H; constructor; auto|].
      intros H; inversion H; assumption.
    + split; [discriminate|]. intros H; inversion H; subst.
      cbn [snd] in *. congruence.
Qed.

Lemma check_registry_some (anims : dict (dict str)) (e : route_error) :
  check_registry anims = Some e ->
  exists good name cfg rest,
    anims = good ++ (name, cfg) :: rest /\
    Forall (fun item => entry_listed (snd item) = true) good /\
    entry_listed cfg = false /\
    e = HTTPException 500
          (quoted_name name ++ str_of " has non-absolute json_path: "
           ++ dict_get_default cfg (str_of "json_path") []).
Proof.
  induction anims as [|[name cfg] r IH]; cbn [check_registry];
    [discriminate|].
  fold (entry_listed cfg). destruct (entry_listed cfg) eqn:E; cbn [negb].
  - intros H. destruct (IH H) as [good [n [c [rest [H1 [H2 [H3 H4]]]]]]].
    exists ((name, cfg) :: good), n, c, rest.
    rewrite H1. repeat split; auto.
  - intros H; injection H as <-.
    exists [], name, cfg, r. repeat split; auto.
Qed.

Lemma list_anims_ok (anims : dict (dict str)) (resp : response) :
  list_anims anims = inr resp <->
  resp = JSONResponse (map fst anims) /\
  Forall (fun item => entry_listed (snd item) = true) anims.
Proof.
  unfold list_anims. destruct (check_registry anims) as [e|] eqn:E.
  - split; [discriminate|]. intros [_ H].
    apply check_registry_none in H. congruence.
  - apply check_registry_none in E. split.
    + intros H; injection H as <-. auto.
    + intros [-> _]. reflexivity.
Qed.

(** X14.  [list_anims] answers with the names of the registry, all of them
    and in its order, exactly when every entry has an absolute path; else it
    raises a 500 that names the first entry whose path is missing or not
    absolute. *)
Theorem list_anims_answers (anims : dict (dict str)) :
  (forall resp,
      list_anims anims = inr resp <->
      resp = JSONResponse (map fst anims) /\
      Forall (fun item => entry_listed (snd item) = true) anims) /\
  (forall e,
      list_anims anims = inl e ->
      exists good name cfg rest,
        anims = good ++ (name, cfg) :: rest /\
        Forall (fun item => entry_listed (snd item) = true) good /\
        entry_listed cfg = false /\
        e = HTTPException 500
              (quoted_name name ++ str_of " has non-absolute json_path: "
               ++ dict_get_default cfg (str_of "json_path") [])).
Proof.
  split; [apply list_anims_ok|]. unfold list_anims.
  - intros e. destruct (check_registry anims) as [e'|] eqn:E; [|discriminate].
    intros H; injection H as <-. apply check_registry_some, E.
Qed.

Lemma path_join_abs (a b : str) :
  isabs a = true -> isabs (path_join a b) = true.
Proof.
  intros Ha. unfold path_join. destruct (isabs b) eqn:Hb; [exact Hb|].
  destruct a as [|c a']; [discriminate|].
  destruct (rev (c :: a')) as [|x r] eqn:E.
  - exfalso. eapply rev_cons_not_nil, E.
  - destruct (x =? 47)%N; exact Ha.
Qed.

Lemma isabs_truthy (p : str) : isabs p = true -> truthy p = true.
Proof. destruct p; [discriminate|reflexivity]. Qed.

Lemma entry_ok_listed (cfg : dict str) :
  entry_ok cfg = true -> entry_listed cfg = true.
Proof.
  unfold entry_ok, entry_listed, dict_get_default.
  destruct (dict_get cfg (str_of "json_path")); [|discriminate].
  intros H. apply andb_true_iff in H. tauto.
Qed.

(** X15.  Wherever the program is installed, its directory being an
    absolute path, the registry it ships passes its own checks: every entry
    has an absolute path, [list_anims] answers with the three names, and the
    startup hook goes through. *)
Theorem ANIMS_valid (base_dir : str) (w : world) (c : lru) :
  isabs base_dir = true ->
  calm w ->
  Forall (fun item => entry_ok (snd item) = true) (ANIMS base_dir) /\
  list_anims (ANIMS base_dir)
  = inr (JSONResponse [str_of "woohoo"; str_of "clap"; str_of "blyat"]) /\
  exists c', warmup_cache w (ANIMS base_dir) c = Started c'.
Proof.
  intros Hbase Hw.
  assert (Hp : forall rel, truthy (path_join base_dir rel)
                           && isabs (path_join base_dir rel) = true).
  { intros rel. rewrite (path_join_abs base_dir rel Hbase).
    rewrite (isabs_truthy _ (path_join_abs base_dir rel Hbase)).
    reflexivity. }
  assert (Hok : Forall (fun item => entry_ok (snd item) = true)
                       (ANIMS base_dir)).
  { unfold ANIMS. repeat constructor; apply Hp. }
  split; [exact Hok|]. split.
  - apply list_anims_ok. split; [reflexivity|].
    eapply Forall_impl; [|exact Hok].
    intros item. apply entry_ok_listed.
  - eexists.
    apply (warmup_cache_all_ok w
             (firstn 2 (ANIMS base_dir)) (str_of "blyat")
             [ (str_of "json_path",
                path_join base_dir (str_of "assets/mellstroy4_ascii.json"));
               (str_of "banner_kind", str_of "big");
               (str_of "banner_text",
                str_of "MELLSTROY " ++ [8226%N] ++ str_of " STREAM "
                ++ [8226%N] ++ str_of " ASCII");
               (str_of "color", str_of "255,0,0") ]
             (path_join base_dir (str_of "assets/mellstroy4_ascii.json")) c Hw).
    + unfold ANIMS. cbn [firstn]. repeat constructor; apply Hp.
    + reflexivity.
    + apply Hp.
Qed.

Lemma ANIMS_valid_witness :
  list_anims (ANIMS (str_of "/opt/app"))
  = inr (JSONResponse [str_of "woohoo"; str_of "clap"; str_of "blyat"]).
Proof.
  destruct (ANIMS_valid (str_of "/opt/app") empty_disk cache_empty)
    as [_ [H _]].
  - reflexivity.
  - intros q e H. injection H as <-. reflexivity.
  - exact H.
Defined.

Lemma dict_get_in {V} (d : dict V) (k : str) :
  In k (map fst d) -> exists v, dict_get d k = Some v /\ In (k, v) d.
Proof.
  induction d as [|[k' v'] r IH]; cbn; [intros []|].
  destruct (str_eq_dec k k') as [->|Hne].
  - intros _. exists v'. auto.
  - intros [E|Hin]; [congruence|].
    destruct (IH Hin) as [v [H1 H2]]. exists v. auto.
Qed.

(** X16.  Every name that [list_anims] lists can be streamed: for a client
    that is not a browser, [stream_anim] answers with a stream, not with
    404 or 500; its generator is not started yet and carries an absolute
    path and the cadence and screen mode that were asked. *)
Theorem listed_can_stream (anims : dict (dict str)) (names : list str)
  (req : http_request) (name : str) (d : Q) (alt : bool)
  (banner : option str) :
  list_anims anims = inr (JSONResponse names) ->
  In name names ->
  is_browser req = false ->
  exists rq,
    stream_anim anims req name d alt banner
    = inr (StreamingResponse (Created rq)
             (str_of "text/plain; charset=utf-8")
             [(str_of "Cache-Control", str_of "no-store")]) /\
    isabs (json_path rq) = true /\
    delay rq = d /\ alt_screen rq = alt.
Proof.
  intros Hlist Hname Hreq.
  apply list_anims_ok in Hlist. destruct Hlist as [E Hall].
  injection E as ->.
  destruct (dict_get_in anims name Hname) as [cfg [Hget Hin]].
  rewrite Forall_forall in Hall. specialize (Hall _ Hin).
  cbn [snd] in Hall. unfold entry_listed, dict_get_default in Hall.
  destruct (dict_get cfg (str_of "json_path")) as [p|] eqn:Hp;
    [|discriminate].
  unfold stream_anim. rewrite Hreq, Hget.
  assert (Hcfg : truthy_cfg (Some cfg) = Some cfg).
  { destruct cfg; [discriminate|reflexivity]. }
  rewrite Hcfg, Hp, Hall. cbn [negb].
  eexists. split; [reflexivity|]. cbn. auto.
Qed.

Lemma listed_can_stream_witness :
  exists rq,
    stream_anim (ANIMS (str_of "/opt/app")) {| headers := [] |}
                (str_of "clap") 0.04%Q true (Some (str_of "ticker"))
    = inr (StreamingResponse (Created rq)
             (str_of "text/plain; charset=utf-8")
             [(str_of "Cache-Control", str_of "no-store")]) /\
    isabs (json_path rq) = true /\
    delay rq = 0.04%Q /\ alt_screen rq = true.
Proof.
  apply (listed_can_stream (ANIMS (str_of "/opt/app"))
           [str_of "woohoo"; str_of "clap"; str_of "blyat"]).
  - reflexivity.
  - right. left. reflexivity.
  - reflexivity.
Defined.

Lemma starts_with_spec (pat s : str) :
  starts_with pat s = true <-> exists post, s = pat ++ post.
Proof.
  revert s. induction pat as [|p pat IH]; intros s; cbn.
  - split; [intros _; exists s; reflexivity|reflexivity].
  - destruct s as [|c s']; [split; [discriminate|intros [post H]; discriminate H]|].
    rewrite andb_true_iff, N.eqb_eq, IH. split.
    + intros [-> [post ->]]. exists post. reflexivity.
    + intros [post H]. injection H as -> ->. split; [reflexivity|eauto].
Qed.

Lemma py_in_spec (sub s : str) :
  py_in sub s = true <-> occurs_in sub s.
Proof.
  unfold occurs_in. induction s as [|c r IH]; cbn [py_in].
  - rewrite orb_false_r, starts_with_spec. split.
    + intros [post H]. exists [], post. exact H.
    + intros [pre [post H]]. destruct pre; [exists post; exact H|].
      discriminate H.
  - rewrite orb_true_iff, starts_with_spec, IH. split.
    + intros [[post H]|[pre [post H]]].
      * exists [], post. exact H.
      * exists (c :: pre), post. rewrite H. reflexivity.
    + intros [pre [post H]]. destruct pre as [|x pre].
      * left. exists post. exact H.
      * right. injection H as _ H. exists pre, post. exact H.
Qed.

(** X17.  A request counts as a browser exactly when, letter case apart,
    its [user-agent] holds one of the words mozilla, chrome, safari, edg,
    firefox, opera somewhere, or its [accept] holds [text/html] somewhere; a
    header that is missing or empty counts as the empty text. *)
Theorem is_browser_spec (req : http_request) :
  is_browser req = true <->
  (exists word, In word browser_words /\
                occurs_in word (lower (header req "user-agent")))
  \/ occurs_in (str_of "text/html") (lower (header req "accept")).
Proof.
  unfold is_browser, header.
  rewrite orb_true_iff, existsb_exists, py_in_spec.
  split; (intros [[word [H1 H2]]|H]; [left; exists word; split; [exact H1|]|right; exact H]).
  - apply py_in_spec, H2.
  - apply py_in_spec, H2.
Qed.

(** A plain command-line client is not a browser; a client whose name
    holds one of the words is, in any letter case. *)
Example is_browser_examples :
  is_browser {| headers := [(str_of "user-agent", str_of "curl/8.5.0");
                            (str_of "accept", str_of "*/*")] |} = false /\
  is_browser {| headers := [] |} = false /\
  is_browser {| headers := [(str_of "user-agent", str_of "MOZILLA/5.0")] |}
  = true /\
  is_browser {| headers := [(str_of "user-agent", str_of "knowledge-bot")] |}
  = true.
Proof. repeat split. Qed.
(* ------------------------------------------------------------------ *)
(** ** More on the stream *)

Lemma raised_out_same (e : exn) :
  e <> StopIteration -> e <> StopAsyncIteration -> raised_out e = e.
Proof. destruct e; intros H1 H2; try reflexivity; congruence. Qed.

(** X18.  When the load of the frames raises, the session ends there: the
    first step raises that exception to the consumer (as it leaves the
    generator: the exception itself, unless it is one of the two that the
    interpreter turns into RuntimeError), nothing is emitted, neither setup
    nor teardown, and the generator is exhausted. *)
Theorem stream_load_failure (console_print : str -> result str) (w : world)
  (c c1 : lru) (rq : request) (e : exn) (evs : list event) :
  cached_load w c (json_path rq) = (Raise e, c1) ->
  run console_print w (c, Created rq) (Resume :: evs)
  = ((c1, Closed), Raised (raised_out e) :: repeat Exhausted (length evs)) /\
  emitted (snd (run console_print w (c, Created rq) (Resume :: evs))) = [] /\
  (e <> StopIteration -> e <> StopAsyncIteration -> raised_out e = e).
Proof.
  intros Hload.
  assert (E : run console_print w (c, Created rq) (Resume :: evs)
              = ((c1, Closed),
                 Raised (raised_out e) :: repeat Exhausted (length evs))).
  { cbn [run step]. rewrite Hload, run_closed_all. reflexivity. }
  split; [exact E|]. split; [|apply raised_out_same].
  rewrite E. cbn [snd]. rewrite emitted_cons.
  cbn [emitted flat_map app]. apply emitted_exhausted.
Qed.

Lemma stream_load_failure_witness :
  run plain_console empty_disk (cache_empty, Created (demo_request true))
      (Resume :: [Resume; Throw CancelledError])
  = ((counted_miss cache_empty, Closed),
     [Raised (FileNotFoundError (JsonNotFound (str_of "/srv/a.json")));
      Exhausted; Exhausted]).
Proof.
  destruct (stream_load_failure plain_console empty_disk cache_empty
              (counted_miss cache_empty) (demo_request true)
              (FileNotFoundError (JsonNotFound (str_of "/srv/a.json")))
              [Resume; Throw CancelledError]) as [H _].
  - reflexivity.
  - exact H.
Defined.

(** X19.  Whatever the events after the start (resumptions, cancellations,
    exceptions at any [yield], [aclose()], in any order), what a session
    emits is: the setup sequence, once, then the buffers of the cycles
    0, 1, ..., m-1 in that order, each a whole composed frame (frame
    [j mod n] with the banner at tick [j]), then the teardown sequence or
    nothing.  No buffer is skipped, repeated or emitted after the
    teardown. *)
Theorem stream_emits_in_order (console_print : str -> result str)
  (w : world) (c c1 : lru) (rq : request) (fr : list str)
  (evs : list event) :
  cached_load w c (json_path rq) = (Ok fr, c1) ->
  let l := prologue rq fr in
  let out :=
    emitted (snd (run console_print w (c, Created rq) (Resume :: evs))) in
  (exists m bs tail,
      out = utf8 (start l) :: bs ++ tail /\
      map Ok bs
      = map (fun j => composed console_print l (j mod length fr)
                               (Z.of_nat j)) (seq 0 m) /\
      (tail = [] \/ tail = [utf8 (end_ l)])) /\
  times (utf8 (start l)) out = 1%nat.
Proof.
  intros Hload l out.
  destruct (prologue_fields rq fr) as [Hfr [Hstart Hend]].
  fold l in Hfr, Hstart, Hend.
  pose proof (prologue_session rq fr) as Hl. fold l in Hl.
  destruct (run_order console_print w (alt_screen rq) l Hl evs c1 0
              (AtYieldStart l)) as [m [bs [tail [E [Hbs Ht]]]]];
    [split; reflexivity|].
  assert (Hout : out = utf8 (start l) :: bs ++ tail).
  { unfold out. rewrite (run_created _ _ _ _ _ _ _ Hload). fold l.
    cbn [snd]. rewrite emitted_cons, E. reflexivity. }
  split.
  - exists m, bs, tail. split; [exact Hout|]. split; [|exact Ht].
    rewrite Hbs. unfold cycles. rewrite Hfr. reflexivity.
  - rewrite Hout, times_cons_same, times_app, Hstart.
    rewrite (times_cycles_start console_print l (alt_screen rq) 0 m bs Hbs).
    destruct Ht as [->| ->]; [reflexivity|].
    rewrite times_cons_other; [reflexivity|].
    rewrite Hend. intros H. symmetry in H. revert H. apply start_not_end.
Qed.

Lemma stream_emits_in_order_witness :
  times (utf8 (start (prologue (demo_request false) demo_frames)))
    (emitted (snd (run plain_console demo_disk
                       (cache_empty, Created (demo_request false))
                       (Resume :: [Resume; Resume; Resume;
                                   Throw (OSError (Other "reset")); Resume]))))
  = 1%nat.
Proof.
  apply (stream_emits_in_order plain_console demo_disk cache_empty
           demo_cache (demo_request false) demo_frames).
  reflexivity.
Defined.

(** X20.  A session never spins: with a cache that holds no empty frame
    list, as every cache filled by the loader does, no step of the
    generator runs without an end, whatever the events, since a load that
    returns gives at least one frame. *)
Theorem stream_never_spins (console_print : str -> result str) (w : world)
  (c : lru) (rq : request) (evs : list event) :
  cache_sound c ->
  ~ In Diverged (snd (run console_print w (c, Created rq) evs)).
Proof.
  intros Hc. destruct evs as [|ev r]; [intros []|].
  assert (Hclosed : forall c' o,
             o <> Diverged ->
             ~ In Diverged (o :: snd (run console_print w (c', Closed) r))).
  { intros c' o Ho [E|Hin]; [congruence|]. revert Hin.
    apply (run_past_loop console_print w r c' Closed I). }
  destruct ev as [|e|].
  - destruct (cached_load w c (json_path rq)) as [[fr|e] c1] eqn:E.
    + rewrite (run_created _ _ _ _ _ _ _ E). cbn [snd].
      destruct (cached_load_nonempty w c c1 (json_path rq) fr Hc E)
        as [Hne _].
      intros [H|H]; [discriminate H|]. revert H.
      apply (run_loop_ends console_print w (alt_screen rq) (prologue rq fr)
               (prologue_session rq fr) r c1 0 (AtYieldStart _)).
      * split; reflexivity.
      * destruct (prologue_fields rq fr) as [-> _]. exact Hne.
    + cbn [run step]. rewrite E.
      destruct (run console_print w (c1, Closed) r) as [st os] eqn:Er.
      cbn [snd]. replace os with (snd (run console_print w (c1, Closed) r))
        by (rewrite Er; reflexivity).
      apply Hclosed. discriminate.
  - cbn [run step].
    destruct (run console_print w (c, Closed) r) as [st os] eqn:Er.
    cbn [snd]. replace os with (snd (run console_print w (c, Closed) r))
      by (rewrite Er; reflexivity).
    apply Hclosed. discriminate.
  - cbn [run step].
    destruct (run console_print w (c, Closed) r) as [st os] eqn:Er.
    cbn [snd]. replace os with (snd (run console_print w (c, Closed) r))
      by (rewrite Er; reflexivity).
    apply Hclosed. discriminate.
Qed.

Lemma stream_never_spins_witness :
  ~ In Diverged
      (snd (run plain_console demo_disk
                (cache_empty, Created (demo_request false))
                [Resume; Resume; Resume; Resume])).
Proof.
  apply stream_never_spins. constructor.
Defined.

(** X21.  Whatever the request, the banner of a session is a template of
    equal width: each of its lines has the width kept with it, which is at
    least the padding; so has each line of each of its views. *)
Theorem prologue_template_width (rq : request) (fr : list str) (tick : Z) :
  let l := prologue rq fr in
  Forall (fun ln => len ln = banner_width l) (banner_template l) /\
  PADDING <= banner_width l /\
  exists shifted,
    shift_lines (banner_template l) tick (banner_width l) = Ok shifted /\
    Forall (fun ln => len ln = banner_width l) shifted.
Proof.
  intros l.
  assert (H : Forall (fun ln => len ln = banner_width l) (banner_template l)
              /\ PADDING <= banner_width l).
  { unfold l, prologue.
    destruct (str_eqb (banner_kind rq) (str_of "big")).
    - cbn [banner_template banner_width].
      destruct BANNER_BIG_shape as [_ [Hw Hall]].
      split; [exact Hall|]. rewrite Hw. unfold PADDING. lia.
    - unfold make_ticker_lines. cbn [banner_template banner_width].
      set (base := if truthy (join [SP] (split (banner_text rq)))
                   then join [SP] (split (banner_text rq)) else []).
      destruct (ljust_eq base (len base + PADDING)) as [_ E].
      split; [|unfold len; lia].
      constructor; [|constructor]. rewrite E. unfold PADDING. lia. }
  destruct H as [Hall Hpad]. split; [exact Hall|]. split; [exact Hpad|].
  eexists. split; [apply shift_lines_eq|].
  induction Hall as [|ln rest Hln _ IH]; cbn [map]; constructor; [|exact IH].
  unfold len in *. rewrite rotation_length. exact Hln.
Qed.

Lemma react_not_created cp (g : gen) (ev : event) :
  (forall rq, g <> Created rq) ->
  forall rq, fst (react cp g ev) <> Created rq.
Proof.
  intros Hg rq.
  destruct g as [rq0|l|l i t|l i t|l p|l| |];
    [exfalso; eapply Hg; reflexivity| | | | | | |];
    destruct ev as [|e|]; cbn [react];
    unfold enter_loop, next_turn, loop_body, unwind, teardown,
      close_in_try, finish;
    repeat match goal with
           | |- context [match ?x with _ => _ end] => destruct x
           end; cbn [fst]; discriminate.
Qed.

Lemma run_keeps_cache cp (w : world) (evs : list event) (c : lru) (g : gen) :
  (forall rq, g <> Created rq) ->
  fst (fst (run cp w (c, g) evs)) = c.
Proof.
  revert g. induction evs as [|ev r IH]; intros g Hg; [reflexivity|].
  rewrite run_cons by exact Hg. cbn [fst].
  apply IH, react_not_created, Hg.
Qed.

(** X22.  A session touches the shared cache once, when its first step
    loads the frames: after any events the cache is what that one call left,
    and a session that gets an exception or is closed before it started
    leaves the cache as it was. *)
Theorem stream_touches_cache_once (console_print : str -> result str)
  (w : world) (c : lru) (rq : request) (e : exn) (evs : list event) :
  fst (fst (run console_print w (c, Created rq) (Resume :: evs)))
  = snd (cached_load w c (json_path rq)) /\
  fst (fst (run console_print w (c, Created rq) (Throw e :: evs))) = c /\
  fst (fst (run console_print w (c, Created rq) (Close :: evs))) = c.
Proof.
  split; [|split]; cbn [run step].
  - destruct (cached_load w c (json_path rq)) as [[fr|e'] c1]; cbn [snd].
    + assert (Hg : forall rq', fst (first_yield (prologue rq fr))
                               <> Created rq').
      { intros rq'. unfold first_yield, unwind, teardown, finish.
        repeat match goal with
               | |- context [match ?x with _ => _ end] => destruct x
               end; cbn [fst]; discriminate. }
      destruct (first_yield (prologue rq fr)) as [g' o]. cbn [fst] in Hg.
      pose proof (run_keeps_cache console_print w evs c1 g' Hg) as H.
      destruct (run console_print w (c1, g') evs) as [st os].
      cbn [fst] in *. exact H.
    + pose proof (run_keeps_cache console_print w evs c1 Closed) as H.
      destruct (run console_print w (c1, Closed) evs) as [st os].
      cbn [fst] in *. apply H. discriminate.
  - pose proof (run_keeps_cache console_print w evs c Closed) as H.
    destruct (run console_print w (c, Closed) evs) as [st os].
    cbn [fst] in *. apply H. discriminate.
  - pose proof (run_keeps_cache console_print w evs c Closed) as H.
    destruct (run console_print w (c, Closed) evs) as [st os].
    cbn [fst] in *. apply H. discriminate.
Qed.

Lemma dict_get_missing {V} (d : dict V) (k : str) :
  ~ In k (map fst d) -> dict_get d k = None.
Proof.
  induction d as [|[k' v] r IH]; cbn; [reflexivity|].
  intros H. destruct (str_eq_dec k k') as [->|_]; [exfalso; auto|].
  apply IH. tauto.
Qed.

(** X23.  For a name that is not in the registry, [stream_anim] raises a
    404 that quotes the name, unless the client is a browser: a browser gets
    the hint with status 200 and no error, the check of the client coming
    first. *)
Theorem stream_anim_unknown (anims : dict (dict str)) (req : http_request)
  (name : str) (d : Q) (alt : bool) (banner : option str) :
  ~ In name (map fst anims) ->
  stream_anim anims req name d alt banner
  = if is_browser req then inr (PlainTextResponse BROWSER_HINT 200)
    else inl (HTTPException 404
                (str_of "Animation '" ++ name ++ str_of "' not found")).
Proof.
  intros H. unfold stream_anim. rewrite (dict_get_missing anims name H).
  destruct (is_browser req); [reflexivity|].
  cbn [truthy_cfg]. unfold quoted_name. rewrite <- !app_assoc. reflexivity.
Qed.

Lemma stream_anim_unknown_witness :
  stream_anim (ANIMS (str_of "/opt/app")) {| headers := [] |}
              (str_of "roma") 0.04%Q false None
  = inl (HTTPException 404 (str_of "Animation 'roma' not found")).
Proof.
  apply (stream_anim_unknown (ANIMS (str_of "/opt/app")) {| headers := [] |}
           (str_of "roma")).
  intros H. vm_compute in H.
  repeat (destruct H as [H|H]; [discriminate H|]). exact H.
Defined.

(** X24.  An exception raised at a suspension point of the loop (thrown
    in at a [yield], or raised by the pause) comes out after the teardown:
    the generator yields the teardown sequence, and on its next step, be it
    a resumption or a failed emission of the teardown, it raises that
    exception; a cancellation instead ends the session quietly, the
    generator returning.  The exception comes out as the interpreter lets
    it leave a generator: itself, except for [StopIteration] and
    [StopAsyncIteration], which come out as [RuntimeError]. *)
Theorem stream_error_surfaces (console_print : str -> result str)
  (w : world) (c : lru) (alt : bool) (l : locals) (g : gen) (e : exn)
  (next : event) :
  session_of alt l ->
  in_try l g -> g <> Spinning ->
  next <> Close ->
  (forall e2, next = Throw e2 -> is_Exception e2 = true) ->
  run console_print w (c, g) [Throw e; next]
  = ((c, Closed),
     [Yielded (utf8 (end_ l));
      if is_CancelledError e then Returned else Raised (raised_out e)]) /\
  (e <> StopIteration -> e <> StopAsyncIteration -> raised_out e = e) /\
  raised_out StopIteration
  = PyRuntimeError "async generator raised StopIteration" /\
  raised_out StopAsyncIteration
  = PyRuntimeError "async generator raised StopAsyncIteration".
Proof.
  intros Hl Hg Hspin Hclose Hnext.
  split; [|split; [apply raised_out_same|split; reflexivity]].
  assert (Hfin : forall pending,
             react console_print (AtYieldEnd l pending) next
             = finish pending).
  { intros pending. destruct next as [|e2|]; cbn [react];
      [reflexivity| |congruence].
    rewrite (Hnext e2 eq_refl). reflexivity. }
  assert (Hfirst : react console_print g (Throw e) = unwind l e).
  { destruct g as [rq|l'|l' i t|l' i t|l' p|l'| |]; cbn [in_try] in Hg;
      try contradiction; try congruence; subst; reflexivity. }
  rewrite run_cons by (intros rq ->; destruct Hg).
  rewrite Hfirst, (unwind_eq alt l Hl). cbn [fst snd].
  rewrite run_cons by discriminate. rewrite Hfin. cbn [run fst snd].
  rewrite <- finish_outcome.
  destruct (pending_after e); reflexivity.
Qed.

Lemma stream_error_surfaces_witness :
  run plain_console demo_disk
      (demo_cache,
       AtYieldFrame (prologue (demo_request true) demo_frames) 1 2)
      [Throw (OSError (Other "broken pipe"));
       Throw (OSError (Other "connection closed"))]
  = ((demo_cache, Closed),
     [Yielded (utf8 (end_ (prologue (demo_request true) demo_frames)));
      Raised (OSError (Other "broken pipe"))]).
Proof.
  destruct (stream_error_surfaces plain_console demo_disk demo_cache true
              (prologue (demo_request true) demo_frames)
              (AtYieldFrame (prologue (demo_request true) demo_frames) 1 2)
              (OSError (Other "broken pipe"))
              (Throw (OSError (Other "connection closed")))) as [H _].
  - split; reflexivity.
  - reflexivity.
  - discriminate.
  - discriminate.
  - intros e2 H. injection H as <-. reflexivity.
  - exact H.
Defined.

(** The two exceptions that cannot leave a generator as they are. *)
Example stream_stop_iteration_surfaces :
  run plain_console demo_disk
      (demo_cache,
       AtYieldFrame (prologue (demo_request false) demo_frames) 0 1)
      [Throw StopAsyncIteration; Resume]
  = ((demo_cache, Closed),
     [Yielded (utf8 (end_ (prologue (demo_request false) demo_frames)));
      Raised (PyRuntimeError "async generator raised StopAsyncIteration")]).
Proof. reflexivity. Qed.

(** X28.  [aclose()] on the generator.  At a [yield] inside [try] the
    generator answers GeneratorExit by yielding the teardown sequence from
    [finally], which a generator being closed may not do: the closer gets
    [RuntimeError], the teardown sequence is not handed out, then or later,
    and the generator, if resumed, ends with GeneratorExit.  During the
    pause the generator is running and cannot be closed.  At [yield end]
    and before the first step [aclose()] ends the generator quietly. *)
Theorem stream_closed (console_print : str -> result str) (w : world)
  (c : lru) (alt : bool) (l : locals) (rq : request) (i : nat) (tick : Z)
  (pending : option exn) (g : gen) (evs : list event) :
  session_of alt l ->
  g = AtYieldStart l \/ g = AtYieldFrame l i tick ->
  run console_print w (c, g) [Close]
  = ((c, Closing l), [Raised (PyRuntimeError IGNORED_EXIT)]) /\
  emitted (snd (run console_print w (c, g) (Close :: evs))) = [] /\
  run console_print w (c, Closing l) [Resume]
  = ((c, Closed), [Raised GeneratorExit]) /\
  run console_print w (c, AtSleep l i tick) [Close]
  = ((c, AtSleep l i tick), [Raised (PyRuntimeError ALREADY_RUNNING)]) /\
  run console_print w (c, AtYieldEnd l pending) [Close]
  = ((c, Closed), [Returned]) /\
  run console_print w (c, Created rq) [Close] = ((c, Closed), [Returned]).
Proof.
  intros Hl Hg.
  assert (E : react console_print g Close
              = (Closing l, Raised (PyRuntimeError IGNORED_EXIT))).
  { destruct Hg as [-> | ->]; cbn [react]; apply (close_in_try_eq alt l Hl). }
  assert (Hs : forall rq', g <> Created rq')
    by (intros rq'; destruct Hg as [-> | ->]; discriminate).
  repeat split.
  - rewrite run_cons by exact Hs. rewrite E. reflexivity.
  - rewrite run_cons by exact Hs. rewrite E. cbn [fst snd].
    rewrite emitted_cons. cbn [emitted flat_map app].
    apply (run_past_loop console_print w evs c (Closing l) I).
Qed.

Lemma stream_closed_witness :
  let l := prologue (demo_request true) demo_frames in
  emitted (snd (run plain_console demo_disk (demo_cache, AtYieldFrame l 0 1)
                    [Close; Close; Throw CancelledError; Resume; Resume]))
  = [].
Proof.
  intros l.
  destruct (stream_closed plain_console demo_disk demo_cache true l
              (demo_request true) 0 1 None (AtYieldFrame l 0 1)
              [Close; Throw CancelledError; Resume; Resume])
    as [_ [H _]].
  - split; reflexivity.
  - right. reflexivity.
  - exact H.
Defined.

(** A session closed at the [yield] of its first buffer, from its first
    step: the setup sequence and the buffer are all it hands out. *)
Example stream_closed_trace :
  let l := prologue (demo_request true) demo_frames in
  exists b,
    composed plain_console l 0 0 = Ok b /\
    run plain_console demo_disk (cache_empty, Created (demo_request true))
        [Resume; Resume; Close; Close; Resume; Resume]
    = ((demo_cache, Closed),
       [Yielded (utf8 (start l)); Yielded b;
        Raised (PyRuntimeError IGNORED_EXIT); Exhausted;
        Raised GeneratorExit; Exhausted]).
Proof. eexists. split; vm_compute; reflexivity. Qed.

(* ------------------------------------------------------------------ *)
(** ** Frames that cannot be shown *)

Lemma for_each_app {A S} (body : S -> A -> result S) (a b : list A)
  (s : S) :
  for_each body (a ++ b) s = (s' <- for_each body a s ;; for_each body b s').
Proof.
  revert s. induction a as [|x a IH]; intros s; cbn [app for_each].
  - reflexivity.
  - destruct (body s x) as [s1|e]; cbn [bind]; [apply IH|reflexivity].
Qed.

Lemma for_each_map {A B S} (f : A -> B) (body : S -> B -> result S)
  (items : list A) (s : S) :
  for_each (fun s x => body s (f x)) items s = for_each body (map f items) s.
Proof.
  revert s. induction items as [|x r IH]; intros s; cbn [map for_each].
  - reflexivity.
  - destruct (body s (f x)) as [s1|e]; cbn [bind]; [apply IH|reflexivity].
Qed.

(** The three loops of the compositor are one loop over the emitted
    lines. *)
Lemma render_frame_with_banner_fold cp (frame : str)
  (banner_lines : list str) (banner_color : str) :
  render_frame_with_banner cp frame banner_lines banner_color
  = (buf <- for_each (print_line_and_clear cp)
                     (emitted_lines frame banner_lines banner_color) [] ;;
     Ok (buf ++ ERASE_DOWN)).
Proof.
  unfold render_frame_with_banner, emitted_lines.
  rewrite !for_each_app.
  destruct (for_each (print_line_and_clear cp) (splitlines frame) [])
    as [b1|e]; cbn [bind for_each app]; [|reflexivity].
  destruct (print_line_and_clear cp b1 []) as [b2|e]; cbn [bind];
    [|reflexivity].
  rewrite (for_each_map (colored banner_color) (print_line_and_clear cp)).
  reflexivity.
Qed.

Lemma render_frame_with_banner_raises cp (frame : str)
  (banner_lines : list str) (banner_color : str)
  (done rest rendered : list str) (ln : str) (e : exn) :
  emitted_lines frame banner_lines banner_color = done ++ ln :: rest ->
  Forall2 (fun ln r => cp ln = Ok r) done rendered ->
  cp ln = Raise e ->
  render_frame_with_banner cp frame banner_lines banner_color = Raise e.
Proof.
  intros Hlines Hdone Hln.
  rewrite render_frame_with_banner_fold, Hlines.
  pose proof (for_each_print_raises cp (fun x => x) done rest
                rendered ln e [] Hdone Hln) as H.
  change (for_each (print_line_and_clear cp)
                   (done ++ ln :: rest) [] = Raise e) in H.
  rewrite H. reflexivity.
Qed.



Lemma existsb_surrogate (s : str) :
  existsb is_surrogate s = true
  <-> exists c, In c s /\ (55296 <= c <= 57343)%N.
Proof.
  rewrite existsb_exists. unfold is_surrogate.
  split; intros [c [Hin H]]; exists c; (split; [exact Hin|]).
  - apply andb_true_iff in H as [H1 H2].
    apply N.leb_le in H1, H2. lia.
  - apply andb_true_iff. split; apply N.leb_le; lia.
Qed.

(** X27.  [.encode("utf-8")] inside the loop: a composed frame that holds
    a surrogate code point (U+D800 to U+DFFF) cannot be encoded; the turn
    of the loop then gives no buffer but goes to the teardown with
    [UnicodeEncodeError] pending, which the step after the teardown raises.
    A composed frame without surrogates is yielded whole, after the
    cursor-home sequence, and the offset of the banner goes up by one. *)
Theorem loop_body_encodes (console_print : str -> result str) (alt : bool)
  (l : locals) (i : nat) (tick : Z) (content : str) :
  session_of alt l ->
  (i < length (frames l))%nat ->
  render_frame_with_banner console_print (nth i (frames l) [])
    (view (banner_template l) (banner_width l) tick) (color l)
  = Ok content ->
  ((exists c, In c content /\ (55296 <= c <= 57343)%N) ->
   loop_body console_print l i tick
   = (AtYieldEnd l (Some UnicodeEncodeError), Yielded (utf8 (end_ l))) /\
   react console_print (AtYieldEnd l (Some UnicodeEncodeError)) Resume
   = (Closed, Raised UnicodeEncodeError)) /\
  (~ (exists c, In c content /\ (55296 <= c <= 57343)%N) ->
   loop_body console_print l i tick
   = (AtYieldFrame l i (tick + 1), Yielded (utf8 (HOME ++ content)))).
Proof.
  intros Hl Hi Hren.
  pose proof (loop_body_eq console_print alt l Hl i tick Hi) as Hbody.
  unfold composed in Hbody. rewrite Hren in Hbody. cbn [bind] in Hbody.
  unfold encode in Hbody.
  assert (Hhome : existsb is_surrogate (HOME ++ content)
                  = existsb is_surrogate content) by reflexivity.
  rewrite Hhome in Hbody.
  destruct (existsb is_surrogate content) eqn:E.
  - split.
    + intros _. split; [exact Hbody|reflexivity].
    + intros Hno. exfalso. apply Hno, existsb_surrogate. exact E.
  - split.
    + intros Hyes. apply existsb_surrogate in Hyes. congruence.
    + intros _. exact Hbody.
Qed.

Lemma loop_body_encodes_witness :
  let l := prologue (demo_request false) [[55296%N]] in
  loop_body plain_console l 0 0
  = (AtYieldEnd l (Some UnicodeEncodeError), Yielded (utf8 (end_ l))).
Proof.
  intros l.
  destruct (loop_body_encodes plain_console false l 0 0
              ([55296%N] ++ ERASE_LINE ++ [LF] ++ ERASE_LINE ++ [LF]
               ++ str_of "[rgb(0,255,180)]hi          [/]"
               ++ ERASE_LINE ++ [LF] ++ ERASE_DOWN))
    as [H _].
  - split; reflexivity.
  - cbn. lia.
  - reflexivity.
  - destruct H as [H _]; [|exact H].
    exists 55296%N. split; [left; reflexivity|lia].
Defined.

(** X29.  A frame that the console rejects, seen from the consumer.  When
    the first [m] cycles compose and encode and the console rejects a line
    of cycle [m] (a line of frame [m mod n] or of the banner at tick [m])
    with the exception [e], the session emits the setup sequence, the [m]
    buffers and the teardown sequence, and the step after the teardown
    raises [e] (or returns, were [e] a cancellation); the generator has
    ended. *)
Theorem stream_rejected_cycle (console_print : str -> result str)
  (w : world) (c c1 : lru) (rq : request) (fr : list str) (m : nat)
  (done rest rendered : list str) (ln : str) (e : exn) :
  cached_load w c (json_path rq) = (Ok fr, c1) ->
  fr <> [] ->
  let l := prologue rq fr in
  (forall j, (j < m)%nat -> exists b, buffer console_print l j = Ok b) ->
  emitted_lines (nth (m mod length fr) fr [])
    (view (banner_template l) (banner_width l) (Z.of_nat m)) (color l)
  = done ++ ln :: rest ->
  Forall2 (fun ln r => console_print ln = Ok r) done rendered ->
  console_print ln = Raise e ->
  let r := run console_print w (c, Created rq)
               (repeat Resume (2 * m + 3)) in
  fst r = (c1, Closed) /\
  (exists bs,
      map Ok bs = cycles console_print l 0 m /\
      emitted (snd r) = utf8 (start l) :: bs ++ [utf8 (end_ l)]) /\
  last (snd r) Exhausted
  = if is_CancelledError e then Returned else Raised (raised_out e).
Proof.
  intros Hload Hne l Hok Hlines Hdone Hln r.
  destruct (prologue_fields rq fr) as [Hfr _]. fold l in Hfr.
  pose proof (prologue_session rq fr) as Hl. fold l in Hl.
  assert (Hnel : frames l <> []) by (rewrite Hfr; exact Hne).
  assert (He : buffer console_print l m = Raise e).
  { unfold buffer, composed. rewrite Hfr.
    rewrite (render_frame_with_banner_raises console_print _ _ _
               done rest rendered ln e Hlines Hdone Hln).
    reflexivity. }
  destruct (run_fails console_print w (alt_screen rq) l Hl c1 m e Hnel Hok He)
    as [H1 [[bs [Hbs Hem]] Hlast]].
  unfold r.
  replace (2 * m + 3)%nat with (S (2 * m + 2)) by lia. cbn [repeat].
  rewrite (run_created _ _ _ _ _ _ _ Hload). fold l.
  destruct (run console_print w (c1, AtYieldStart l)
                (repeat Resume (2 * m + 2))) as [st os].
  cbn [fst snd] in H1, Hem, Hlast |- *. subst st.
  split; [reflexivity|]. split.
  - exists bs. split; [exact Hbs|]. rewrite emitted_cons, Hem. reflexivity.
  - rewrite last_cons, Hlast; [apply finish_outcome|].
    intros ->. destruct bs; discriminate Hem.
Qed.

Lemma stream_rejected_cycle_witness :
  let rq := demo_request false in
  let l := prologue rq [str_of "a"; str_of "[/]"] in
  last (snd (run strict_console
                 (one_file (json_path rq)
                    (JArray [JString (str_of "a"); JString (str_of "[/]")]))
                 (cache_empty, Created rq) (repeat Resume 5)))
       Exhausted
  = Raised (Exception (Other "MarkupError")).
Proof.
  intros rq l.
  destruct (stream_rejected_cycle strict_console
              (one_file (json_path rq)
                 (JArray [JString (str_of "a"); JString (str_of "[/]")]))
              cache_empty
              {| entries := [(json_path rq, [str_of "a"; str_of "[/]"])];
                 hits := 0; misses := 1 |}
              rq [str_of "a"; str_of "[/]"] 1
              [] [[]; str_of "[rgb(0,255,180)]i          h[/]"] []
              (str_of "[/]") (Exception (Other "MarkupError")))
    as [_ [_ H]].
  - reflexivity.
  - discriminate.
  - intros j Hj. destruct j as [|j]; [|lia].
    eexists. vm_compute. reflexivity.
  - reflexivity.
  - constructor.
  - reflexivity.
  - exact H.
Defined.
